(** * wanonpcap: the frame handlers and the anonymizer, embedded in Rocq

    A shallow embedding of [eth.go] (the Ethernet handler, the pcap container
    codec, the default anonymizer and the [run] loop), of
    [radiotap_80211.go] (the Radiotap + 802.11 handler) and of the slice/array
    helpers ([isAllZeroes], [toArray3], [toSlice3], ...).

    Conventions.
    - A Go [[]byte] is a [list byte]; a slice is modelled with its capacity
      equal to its length.  A Go array [[w]byte] is a [vec byte w].
    - Unsigned integers decoded from the wire are [N]; offsets and lengths
      (Go [int], never negative here) are [nat].
    - A Go function that mutates its receiver or a slice argument returns the
      new value; a Go runtime panic is an explicit result.
    - The handlers take an [Anonymizer]; the interface has one
      implementation, [DefaultAnonymizer], and the handlers are modelled
      on it. *)

From Stdlib Require Import Strings.Byte NArith.
From stdpp Require Import base option list vector gmap.

Local Open Scope nat_scope.

(** ** Bytes *)

Global Instance byte_eq_decision : EqDecision byte := Byte.byte_eq_dec.

Global Instance byte_countable : Countable byte :=
  inj_countable Byte.to_N Byte.of_N Byte.of_to_N.

Global Instance byte_inhabited : Inhabited byte := populate x00.

(** The numeric value of a byte, and the byte of the low 8 bits of a number
    (the Go conversion [uint8(x)]). *)
Definition byte_val (x : byte) : N := Byte.to_N x.

Definition byte_of (v : N) : byte :=
  default x00 (Byte.of_N (v mod 256)%N).

(** [x ^ k] on bytes, bit by bit. *)
Definition xor_bits (p q : bool * (bool * (bool * (bool * (bool * (bool * (bool * bool)))))))
  : bool * (bool * (bool * (bool * (bool * (bool * (bool * bool)))))) :=
  let '(a0, (a1, (a2, (a3, (a4, (a5, (a6, a7))))))) := p in
  let '(b0, (b1, (b2, (b3, (b4, (b5, (b6, b7))))))) := q in
  (xorb a0 b0, (xorb a1 b1, (xorb a2 b2, (xorb a3 b3,
   (xorb a4 b4, (xorb a5 b5, (xorb a6 b6, xorb a7 b7))))))).

Definition xor_byte (x k : byte) : byte :=
  Byte.of_bits (xor_bits (Byte.to_bits x) (Byte.to_bits k)).

(** A sub-slice [b[lo : lo+len]] (callers check the bounds first). *)
Definition slice (b : list byte) (lo len : nat) : list byte :=
  take len (drop lo b).

(** Writing [x] back over [b] from offset [lo]: what an in-place mutation of
    the sub-slice [b[lo : lo + len x]] does to [b]. *)
Definition splice (b : list byte) (lo : nat) (x : list byte) : list byte :=
  take lo b ++ x ++ drop (lo + length x) b.

(** ** Slice/array helpers *)

(** [isAllZeroes]: true unless some element is non-zero. *)
Fixpoint isAllZeroes (b : list byte) : bool :=
  match b with
  | [] => true
  | x :: b' => if decide (x = x00) then isAllZeroes b' else false
  end.

(** The array a [for i, x := range b { ba[i] = x }] loop leaves in a zeroed
    [[w]byte] when [b] fits. *)
Fixpoint fill (w : nat) (b : list byte) : vec byte w :=
  match w with
  | 0 => [#]
  | S w' => hd x00 b ::: fill w' (tl b)
  end.

Fixpoint fill_vec_to_list {w} (v : vec byte w) : fill w (vec_to_list v) = v :=
  match v with
  | [#] => eq_refl
  | x ::: v' => f_equal (vcons x) (fill_vec_to_list v')
  end.

(** Arrays of bytes as map keys (an instance whose encoding computes). *)
Global Instance array_countable w : Countable (vec byte w) :=
  inj_countable vec_to_list (λ l, Some (fill w l))
    (λ v, f_equal Some (fill_vec_to_list v)).

(** [toArray3], [toArray4], [toArray16]: copy the slice into a zeroed array.
    Indexing past the array ([len(b) > w]) panics: [None]. *)
Definition toArray (w : nat) (b : list byte) : option (vec byte w) :=
  if decide (length b ≤ w) then Some (fill w b) else None.

(** [toSlice3], [toSlice4], [toSlice16]: copy the array over the start of the
    slice.  Indexing past the slice ([len(b) < w]) panics: [None]. *)
Definition toSlice (w : nat) (b : list byte) (a : vec byte w) : option (list byte) :=
  if decide (w ≤ length b) then Some (vec_to_list a ++ drop w b) else None.

Definition toArray3 := toArray 3.
Definition toArray4 := toArray 4.
Definition toArray16 := toArray 16.
Definition toSlice3 := toSlice 3.
Definition toSlice4 := toSlice 4.
Definition toSlice16 := toSlice 16.

(** ** The stream cipher

    [cipher.Stream] in counter mode: a fixed keystream (a function of the key
    and the initialisation vector) and a cursor.  [XORKeyStream dst src] XORs
    [src] with the next [len src] keystream bytes and advances the cursor. *)
Record Stream := mkStream {
  keystream : nat → byte;
  cursor : nat
}.

Definition segment (s : Stream) (len : nat) : list byte :=
  keystream s <$> seq (cursor s) len.

Definition xor_bytes (b k : list byte) : list byte := zip_with xor_byte b k.

Definition XORKeyStream (s : Stream) (src : list byte) : list byte * Stream :=
  (xor_bytes src (segment s (length src)),
   mkStream (keystream s) (cursor s + length src)).

(** ** The anonymizer *)

Inductive AnonMethod := Encrypt | Pseudonym | Leave.

Global Instance AnonMethod_eq_decision : EqDecision AnonMethod.
Proof. solve_decision. Defined.

Record DefaultAnonymizer := mkAnon {
  macOUI : AnonMethod;
  macNIC : AnonMethod;
  ipv4 : AnonMethod;
  ipv6 : AnonMethod;
  scipher : Stream;
  ouiMap : gmap (vec byte 3) (vec byte 3);
  nicMap : gmap (vec byte 3) (vec byte 3);
  ipv4Map : gmap (vec byte 4) (vec byte 4);
  ipv6Map : gmap (vec byte 16) (vec byte 16);
  nmac : N;
  nipv4 : N;
  nipv6 : N
}.

Definition NewDefaultAnonymizer (macOUI macNIC ipv4 ipv6 : AnonMethod)
    (scipher : Stream) : DefaultAnonymizer :=
  mkAnon macOUI macNIC ipv4 ipv6 scipher ∅ ∅ ∅ ∅ 0 0 0.

(** [x++] on a [uint64]. *)
Definition incr64 (x : N) : N := ((x + 1) mod 2 ^ 64)%N.

(** The [switch] on the method that [MAC] (twice), [IPv4] and [IPv6] each
    apply to their field [b], for arrays of width [w] and the class's map
    [m]; the result is the new field, stream and map. *)
Definition anonymize (w : nat) (method : AnonMethod) (s : Stream)
    (m : gmap (vec byte w) (vec byte w)) (b : list byte)
    : option (list byte * Stream * gmap (vec byte w) (vec byte w)) :=
  match method with
  | Encrypt =>
      let '(b', s') := XORKeyStream s b in Some (b', s', m)
  | Pseudonym =>
      ba ← toArray w b;
      match m !! ba with
      | Some pa => b' ← toSlice w b pa; Some (b', s, m)
      | None =>
          let '(b', s') := XORKeyStream s b in
          ba' ← toArray w b';
          Some (b', s', <[ba := ba']> m)
      end
  | Leave => Some (b, s, m)
  end.

(** [b[:3]] and [b[3:]]; out of range panics: [None]. *)
Definition slice_to (k : nat) (b : list byte) : option (list byte) :=
  if decide (k ≤ length b) then Some (take k b) else None.

Definition slice_from (k : nat) (b : list byte) : option (list byte) :=
  if decide (k ≤ length b) then Some (drop k b) else None.

(** [MAC]: the OUI half [b[:3]], then the NIC half [b[3:]], then [nmac++].
    A half whose method is [Leave] is not even sliced.  (The constant [noop]
    is [false]: the early return it guards, here and in [IPv4] and [IPv6], is
    never taken.) *)
Definition MAC (b : list byte) (a : DefaultAnonymizer)
    : option (list byte * DefaultAnonymizer) :=
  '(b1, s1, m1) ←
    match macOUI a with
    | Leave => Some (b, scipher a, ouiMap a)
    | method =>
        oui ← slice_to 3 b;
        '(oui', s', m') ← anonymize 3 method (scipher a) (ouiMap a) oui;
        Some (oui' ++ drop 3 b, s', m')
    end;
  '(b2, s2, m2) ←
    match macNIC a with
    | Leave => Some (b1, s1, nicMap a)
    | method =>
        nic ← slice_from 3 b1;
        '(nic', s', m') ← anonymize 3 method s1 (nicMap a) nic;
        Some (take 3 b1 ++ nic', s', m')
    end;
  Some (b2, mkAnon (macOUI a) (macNIC a) (ipv4 a) (ipv6 a) s2 m1 m2
              (ipv4Map a) (ipv6Map a) (incr64 (nmac a)) (nipv4 a) (nipv6 a)).

Definition IPv4 (b : list byte) (a : DefaultAnonymizer)
    : option (list byte * DefaultAnonymizer) :=
  '(b', s', m') ← anonymize 4 (ipv4 a) (scipher a) (ipv4Map a) b;
  Some (b', mkAnon (macOUI a) (macNIC a) (ipv4 a) (ipv6 a) s' (ouiMap a)
              (nicMap a) m' (ipv6Map a) (nmac a) (incr64 (nipv4 a)) (nipv6 a)).

Definition IPv6 (b : list byte) (a : DefaultAnonymizer)
    : option (list byte * DefaultAnonymizer) :=
  '(b', s', m') ← anonymize 16 (ipv6 a) (scipher a) (ipv6Map a) b;
  Some (b', mkAnon (macOUI a) (macNIC a) (ipv4 a) (ipv6 a) s' (ouiMap a)
              (nicMap a) (ipv4Map a) m' (nmac a) (nipv4 a) (incr64 (nipv6 a))).

(** ** Errors and panics

    The handlers and [run] return Go [error] values; the constructors are the
    distinct errors the code can produce: the two of the [io] package, and
    one for each [fmt.Errorf] of the code (the short packet of [slurp], the
    bad magic and the unsupported link layer, which are format errors, and
    the exceeded maximum packet length). *)
Inductive error :=
| EOF                           (* io.EOF *)
| ErrUnexpectedEOF              (* io.ErrUnexpectedEOF *)
| ShortPacketError (x n : nat)  (* short packet trying to slurp x bytes at pos n *)
| BadMagicError (m : N)         (* bad magic: 0x... *)
| UnsupportedLinkLayerError (l : N)
| SizeLimitError (len : N).     (* max packet len exceeded: len *)

Inductive panic :=
| BoundsPanic                      (* runtime error: index or slice out of range *)
| InvalidControlSubtype (styp : N) (* invalid control frame subtype: 0x... *)
| ReservedTypePanic.               (* impossible 802.11 type reserved *)

Global Instance error_eq_decision : EqDecision error.
Proof. solve_decision. Defined.

Global Instance panic_eq_decision : EqDecision panic.
Proof. solve_decision. Defined.

(** ** Readers and byte order *)

(** [io.ReadFull] of [k] bytes from a reader holding [r]: the bytes and the
    rest, [io.EOF] when nothing could be read, [io.ErrUnexpectedEOF] when
    only a part could. *)
Definition ReadFull (k : nat) (r : list byte) : error + (list byte * list byte) :=
  if decide (k ≤ length r) then inr (take k r, drop k r)
  else if decide (r = []) then inl EOF else inl ErrUnexpectedEOF.

Inductive ByteOrder := LittleEndian | BigEndian.

Global Instance ByteOrder_eq_decision : EqDecision ByteOrder.
Proof. solve_decision. Defined.

(** The unsigned integer of a little-endian byte string, and back. *)
Fixpoint le_uint (bs : list byte) : N :=
  match bs with
  | [] => 0
  | x :: bs' => byte_val x + 256 * le_uint bs'
  end%N.

Fixpoint le_bytes (k : nat) (v : N) : list byte :=
  match k with
  | 0 => []
  | S k' => byte_of v :: le_bytes k' (v / 256)%N
  end.

Definition Uint (order : ByteOrder) (bs : list byte) : N :=
  match order with
  | LittleEndian => le_uint bs
  | BigEndian => le_uint (reverse bs)
  end.

Definition PutUint (order : ByteOrder) (k : nat) (v : N) : list byte :=
  match order with
  | LittleEndian => le_bytes k v
  | BigEndian => reverse (le_bytes k v)
  end.

(** ** The handler monad

    A handler works on the packet [b], the anonymizer and the running offset
    [n] (the named result).  A step goes on, returns early with an error
    (Go's [return] with [err] set: the offset and the mutations made so far
    stay), or panics. *)
Record hstate := mkH {
  st_b : list byte;
  st_anon : DefaultAnonymizer;
  st_n : nat
}.

Inductive hres (A : Type) :=
| Next (x : A) (s : hstate)
| Stop (e : error) (s : hstate)
| Crash (p : panic).
Arguments Next {A} x s.
Arguments Stop {A} e s.
Arguments Crash {A} p.

Definition handler (A : Type) := hstate → hres A.

Global Instance handler_ret : MRet handler := λ A x s, Next x s.

Global Instance handler_bind : MBind handler := λ A B k m s,
  match m s with
  | Next x s' => k x s'
  | Stop e s' => Stop e s'
  | Crash p => Crash p
  end.

Definition hget : handler hstate := λ s, Next s s.
Definition hfail {A} (e : error) : handler A := λ s, Stop e s.
Definition hpanic {A} (p : panic) : handler A := λ _, Crash p.

(** [n = v] and [n += k]. *)
Definition set_n (v : nat) : handler unit :=
  λ s, Next () (mkH (st_b s) (st_anon s) v).
Definition advance (k : nat) : handler unit :=
  λ s, Next () (mkH (st_b s) (st_anon s) (st_n s + k)).

(** The [slurp] closure of both handlers. *)
Definition slurp (x : nat) (inc : bool) : handler unit :=
  λ s, if decide (length (st_b s) < st_n s + x)
       then Stop (ShortPacketError x (st_n s)) s
       else Next () (if inc then mkH (st_b s) (st_anon s) (st_n s + x) else s).

(** [anon.F(b[n+off : n+off+len])] for a method [F] of the anonymizer: the
    slice expression panics out of range; the method mutates the slice in
    place. *)
Definition anon_at (F : list byte → DefaultAnonymizer → option (list byte * DefaultAnonymizer))
    (off len : nat) : handler unit :=
  λ s, let lo := st_n s + off in
       if decide (lo + len ≤ length (st_b s)) then
         match F (slice (st_b s) lo len) (st_anon s) with
         | Some (x, a) => Next () (mkH (splice (st_b s) lo x) a (st_n s))
         | None => Crash BoundsPanic
         end
       else Crash BoundsPanic.

(** [b[i]]. *)
Definition byte_at (i : nat) : handler byte :=
  λ s, match st_b s !! i with
       | Some x => Next x s
       | None => Crash BoundsPanic
       end.

(** A [for i := 0; i < k; i++] loop. *)
Fixpoint repeat_h (k : nat) (body : handler unit) : handler unit :=
  match k with
  | 0 => mret ()
  | S k' => body ;; repeat_h k' body
  end.

(** What the caller of [Handle] sees: the results [(n, err)], the mutated
    packet and anonymizer; or a panic. *)
Inductive outcome :=
| Returned (b : list byte) (anon : DefaultAnonymizer) (n : nat) (err : option error)
| Panicked (p : panic).

Definition finish (r : hres unit) : outcome :=
  match r with
  | Next _ s => Returned (st_b s) (st_anon s) (st_n s) None
  | Stop e s => Returned (st_b s) (st_anon s) (st_n s) (Some e)
  | Crash p => Panicked p
  end.

Definition run_handler (m : handler unit) (b : list byte) (anon : DefaultAnonymizer)
    : outcome :=
  finish (m (mkH b anon 0)).

(** ** The Ethernet handler *)

Definition ipv4EtherType : N := 0x0800.
Definition ipv6EtherType : N := 0x86dd.
Definition vlanEtherType : N := 0x8100.
Definition arpEtherType : N := 0x0806.

Record EthHeader := mkEthHeader {
  DestMAC : vec byte 6;
  SrcMAC : vec byte 6;
  EtherType : N;
  VLAN : bool;
  TCI : N
}.

(** [EthHeader.Read] from a reader holding [r]. *)
Definition EthHeader_Read (r : list byte) : error + EthHeader :=
  match ReadFull 6 r with
  | inl e => inl e
  | inr (dst, r) =>
  match ReadFull 6 r with
  | inl e => inl e
  | inr (src, r) =>
  match ReadFull 2 r with
  | inl e => inl e
  | inr (et, r) =>
    if decide (Uint BigEndian et = vlanEtherType) then
      match ReadFull 2 r with
      | inl e => inl e
      | inr (tci, r) =>
      match ReadFull 2 r with
      | inl e => inl e
      | inr (et', r) =>
          inr (mkEthHeader (fill 6 dst) (fill 6 src) (Uint BigEndian et') true
                 (Uint BigEndian tci))
      end end
    else
      inr (mkEthHeader (fill 6 dst) (fill 6 src) (Uint BigEndian et) false 0)
  end end end.

(** [EthHeader.Write] into an empty buffer: the bytes written and the
    count [n] it returns. *)
Definition EthHeader_Write (h : EthHeader) : list byte * nat :=
  let w := vec_to_list (DestMAC h) in
  let n := 6 in
  let w := w ++ vec_to_list (SrcMAC h) in
  let n := n + 6 in
  let '(w, n) :=
    if VLAN h then (w ++ PutUint BigEndian 2 (TCI h), n + 4) else (w, n) in
  let w := w ++ PutUint BigEndian 2 (EtherType h) in
  let n := n + 2 in
  (w, n).

(** [copy(b, w)]. *)
Definition copy (b w : list byte) : list byte :=
  take (length b) w ++ drop (length w) b.

Definition copy_b (w : list byte) : handler unit :=
  λ s, Next () (mkH (copy (st_b s) w) (st_anon s) (st_n s)).

(** [anon.MAC(a[:])] on an array of the header. *)
Definition anon_array (a : vec byte 6) : handler (vec byte 6) :=
  λ s, match MAC (vec_to_list a) (st_anon s) with
       | Some (x, an) => Next (fill 6 x) (mkH (st_b s) an (st_n s))
       | None => Crash BoundsPanic
       end.

(** The first part of [EthHandler.Handle]: read the header, anonymize both
    addresses, write the header back over the packet. *)
Definition eth_header : handler EthHeader :=
  s ← hget;
  match EthHeader_Read (st_b s) with
  | inl e => hfail e
  | inr eh =>
      dst ← anon_array (DestMAC eh);
      src ← anon_array (SrcMAC eh);
      let eh := mkEthHeader dst src (EtherType eh) (VLAN eh) (TCI eh) in
      let '(w, n) := EthHeader_Write eh in
      set_n n ;;
      copy_b w ;;
      mret eh
  end.

(** One round of the ARP loop: a MAC field, then an IPv4 field. *)
Definition arp_pair : handler unit :=
  slurp 6 false ;;
  s ← hget;
  (if isAllZeroes (slice (st_b s) (st_n s) 6) then mret () else anon_at MAC 0 6) ;;
  advance 6 ;;
  slurp 4 false ;;
  anon_at IPv4 0 4 ;;
  advance 4.

(** The [switch eh.EtherType] of [EthHandler.Handle]. *)
Definition eth_switch (etherType : N) : handler unit :=
  if decide (etherType = arpEtherType) then
    slurp 8 true ;;
    repeat_h 2 arp_pair
  else if decide (etherType = ipv4EtherType) then
    slurp 20 false ;;
    anon_at IPv4 12 4 ;;
    anon_at IPv4 16 4 ;;
    advance 20 ;;
    b0 ← byte_at 0;
    let ihl := N.to_nat (N.land (byte_val b0) 0xf) in
    if decide (5 < ihl) then slurp ((ihl - 5) * 4) true else mret ()
  else if decide (etherType = ipv6EtherType) then
    slurp 40 false ;;
    anon_at IPv6 8 16 ;;
    anon_at IPv6 24 16 ;;
    advance 40
  else mret ().

Definition EthHandler_Handle (b : list byte) (anon : DefaultAnonymizer) : outcome :=
  run_handler (eh ← eth_header; eth_switch (EtherType eh)) b anon.

(** ** The Radiotap + 802.11 handler *)

Definition typeMgmt : N := 0.
Definition typeControl : N := 1.
Definition typeData : N := 2.
Definition typeReserved : N := 3.

Definition cfWrapper : N := 0x7.
Definition cfBlockAckReq : N := 0x8.
Definition cfBlockAck : N := 0x9.
Definition cfPSPoll : N := 0xa.
Definition cfRTS : N := 0xb.
Definition cfCTS : N := 0xc.
Definition cfACK : N := 0xd.
Definition cfEnd : N := 0xe.
Definition cfEndAck : N := 0xf.

(** Control frame subtypes to number of MACs. *)
Definition cfMACs : gmap N nat :=
  list_to_map
    [ (cfWrapper, 1); (cfBlockAckReq, 2); (cfBlockAck, 2); (cfPSPoll, 1);
      (cfRTS, 2); (cfCTS, 1); (cfACK, 1); (cfEnd, 1); (cfEndAck, 2) ].

Definition qosMask : N := 0x8.

Record RadiotapHeader := mkRadiotapHeader {
  Version : N;
  Pad : N;
  Len : N;
  Present : N
}.

(** [RadiotapHeader.Read]: the 8 bytes of the struct, little-endian. *)
Definition RadiotapHeader_Read (r : list byte) : error + RadiotapHeader :=
  match ReadFull 8 r with
  | inl e => inl e
  | inr (bs, _) =>
      inr (mkRadiotapHeader (Uint LittleEndian (slice bs 0 1))
             (Uint LittleEndian (slice bs 1 1))
             (Uint LittleEndian (slice bs 2 2))
             (Uint LittleEndian (slice bs 4 4)))
  end.

Definition parseFC (fc : byte) : N * N * N :=
  let ver := N.land (byte_val fc) 0x3 in
  let typ := N.land (N.shiftr (byte_val fc) 2) 0x3 in
  let styp := N.land (N.shiftr (byte_val fc) 4) 0xF in
  (ver, typ, styp).

Definition parseFlags (flags : byte) : bool * bool * bool :=
  let tods := bool_decide (N.land (byte_val flags) 0x01 = 0x01%N) in
  let fromds := bool_decide (N.land (byte_val flags) 0x02 = 0x02%N) in
  let order := bool_decide (N.land (byte_val flags) 0x80 = 0x80%N) in
  (tods, fromds, order).

(** [bytes.NewBuffer(b[n:])]: the slice expression panics past the end. *)
Definition buffer_from_n : handler (list byte) :=
  λ s, if decide (st_n s ≤ length (st_b s))
       then Next (drop (st_n s) (st_b s)) s
       else Crash BoundsPanic.

(** [binary.Read] of one [uint8] from a reader holding [r]. *)
Definition read_uint8 (r : list byte) : handler (byte * list byte) :=
  match ReadFull 1 r with
  | inl e => hfail e
  | inr (x, r') => mret (hd x00 x, r')
  end.

(** One address field: [slurp(6, false); anon.MAC(b[n : n+6]); n += 6]. *)
Definition mac_field : handler unit :=
  slurp 6 false ;;
  anon_at MAC 0 6 ;;
  advance 6.

(** The [switch typ] that sets [nmacs]. *)
Definition count_macs (typ styp : N) : handler nat :=
  if decide (typ = typeMgmt) then mret 3
  else if decide (typ = typeControl) then
    match cfMACs !! styp with
    | Some nm => mret nm
    | None => hpanic (InvalidControlSubtype styp)
    end
  else if decide (typ = typeData) then mret 3
  else hpanic ReservedTypePanic.

(** [Radiotap80211Handler.Handle], in three parts.  Last, the fields that
    follow the frame control and the flags. *)
Definition radiotap_fields (typ styp : N) (tods fromds order : bool)
    : handler unit :=
  (* duration/ID *)
  slurp 2 true ;;
  (* macs *)
  nmacs ← count_macs typ styp;
  (* up to first three macs *)
  repeat_h nmacs mac_field ;;
  (* sequence control *)
  (if decide (typ ≠ typeControl) then slurp 2 true else mret ()) ;;
  (* fourth mac for tods && fromds *)
  (if bool_decide (typ = typeData) && tods && fromds then mac_field
   else mret ()) ;;
  (* qos control *)
  let qosDataFrame :=
    bool_decide (typ = typeData) && bool_decide (N.land styp qosMask ≠ 0%N) in
  (if qosDataFrame then slurp 2 true else mret ()) ;;
  (* carried frame control *)
  (if bool_decide (typ = typeControl) && bool_decide (styp = cfWrapper)
   then slurp 2 true else mret ()) ;;
  (* ht control *)
  (if (bool_decide (typ = typeControl) && bool_decide (styp = cfWrapper))
      || (qosDataFrame && order)
      || (bool_decide (typ = typeMgmt) && order)
   then slurp 4 true else mret ()).

(** Before that, from the end of the Radiotap header: frame control and
    flags. *)
Definition radiotap_frame (rh : RadiotapHeader) : handler unit :=
  set_n (N.to_nat (Len rh)) ;;
  r ← buffer_from_n;
  '(fc, r) ← read_uint8 r;
  advance 1 ;;
  let '(_, typ, styp) := parseFC fc in
  '(flags, r) ← read_uint8 r;
  advance 1 ;;
  let '(tods, fromds, order) := parseFlags flags in
  radiotap_fields typ styp tods fromds order.

(** First, the Radiotap header. *)
Definition radiotap_handle : handler unit :=
  s ← hget;
  match RadiotapHeader_Read (st_b s) with
  | inl e => hfail e
  | inr rh => radiotap_frame rh
  end.

Definition Radiotap80211Handler_Handle (b : list byte) (anon : DefaultAnonymizer)
    : outcome :=
  run_handler radiotap_handle b anon.

(** ** The container codec and the [run] loop *)

(** The packet handlers, by pcap link type. *)
Inductive Handler := EthHandler | Radiotap80211Handler.

Definition Handle (h : Handler) : list byte → DefaultAnonymizer → outcome :=
  match h with
  | EthHandler => EthHandler_Handle
  | Radiotap80211Handler => Radiotap80211Handler_Handle
  end.

Definition Handlers : gmap N Handler :=
  list_to_map [ (1%N, EthHandler); (127%N, Radiotap80211Handler) ].

Definition MaxPacketLen : N := 256 * 1024.

Definition MagicLE : N := 0xd4c3b2a1.
Definition MagicBE : N := 0xa1b2c3d4.

(** [Magic.Read]: four bytes, always decoded big-endian. *)
Definition Magic_Read (r : list byte) : error + (N * list byte) :=
  match ReadFull 4 r with
  | inl e => inl e
  | inr (bs, r') =>
      let m := Uint BigEndian bs in
      if bool_decide (m ≠ MagicLE) && bool_decide (m ≠ MagicBE)
      then inl (BadMagicError m)
      else inr (m, r')
  end.

(** [Magic.ByteOrder]; any other value panics, [None]. *)
Definition Magic_ByteOrder (m : N) : option ByteOrder :=
  if decide (m = MagicLE) then Some LittleEndian
  else if decide (m = MagicBE) then Some BigEndian
  else None.

(** [Magic.Write]: the constant [MagicBE] in the byte order of [m]. *)
Definition Magic_Write (m : N) : option (list byte) :=
  order ← Magic_ByteOrder m; Some (PutUint order 4 MagicBE).

Record GlobalHeader := mkGlobalHeader {
  VersionMajor : N;
  VersionMinor : N;
  ThisZone : Z;
  Sigfigs : N;
  Snaplen : N;
  LinkLayer : N
}.

(** An [int32] from its 32-bit pattern, and back. *)
Definition to_int32 (v : N) : Z :=
  if decide (v < 2 ^ 31)%N then Z.of_N v else (Z.of_N v - 2 ^ 32)%Z.
Definition of_int32 (z : Z) : N := Z.to_N (z mod 2 ^ 32).

Definition GlobalHeader_Read (r : list byte) (order : ByteOrder)
    : error + (GlobalHeader * list byte) :=
  match ReadFull 20 r with
  | inl e => inl e
  | inr (bs, r') =>
      inr (mkGlobalHeader (Uint order (slice bs 0 2)) (Uint order (slice bs 2 2))
             (to_int32 (Uint order (slice bs 4 4))) (Uint order (slice bs 8 4))
             (Uint order (slice bs 12 4)) (Uint order (slice bs 16 4)), r')
  end.

Definition GlobalHeader_Write (h : GlobalHeader) (order : ByteOrder) : list byte :=
  PutUint order 2 (VersionMajor h) ++ PutUint order 2 (VersionMinor h) ++
  PutUint order 4 (of_int32 (ThisZone h)) ++ PutUint order 4 (Sigfigs h) ++
  PutUint order 4 (Snaplen h) ++ PutUint order 4 (LinkLayer h).

Record PacketHeader := mkPacketHeader {
  TimestampSec : N;
  TimestampUsec : N;
  PLen : N;       (* the field Len *)
  OrigLen : N
}.

Definition PacketHeader_Read (r : list byte) (order : ByteOrder)
    : error + (PacketHeader * list byte) :=
  match ReadFull 16 r with
  | inl e => inl e
  | inr (bs, r') =>
      inr (mkPacketHeader (Uint order (slice bs 0 4)) (Uint order (slice bs 4 4))
             (Uint order (slice bs 8 4)) (Uint order (slice bs 12 4)), r')
  end.

Definition PacketHeader_Write (h : PacketHeader) (order : ByteOrder) : list byte :=
  PutUint order 4 (TimestampSec h) ++ PutUint order 4 (TimestampUsec h) ++
  PutUint order 4 (PLen h) ++ PutUint order 4 (OrigLen h).

(** The state of [run]: what is left of standard input, what was written to
    standard output, the anonymizer and the packet count.  (A read that
    fails for want of bytes has consumed what was left.) *)
Record rstate := mkR {
  rin : list byte;
  rout : list byte;
  ranon : DefaultAnonymizer;
  packets : N
}.

(** How [run] ends: it returns [(packets, err)] ([err] is never nil: the loop
    is left only through an error, [io.EOF] at the end of the input), or a
    handler panics. *)
Inductive run_outcome :=
| RunReturned (s : rstate) (err : error)
| RunPanicked (s : rstate) (p : panic).

(** One round of the packet loop: [inl] to go on, [inr] when [run] ends. *)
Definition run_packet (h : Handler) (order : ByteOrder) (truncate : bool)
    (s : rstate) : rstate + run_outcome :=
  (* read packet header *)
  match PacketHeader_Read (rin s) order with
  | inl e => inr (RunReturned (mkR [] (rout s) (ranon s) (packets s)) e)
  | inr (ph, r) =>
  let s := mkR r (rout s) (ranon s) (packets s) in
  if decide (MaxPacketLen < PLen ph)%N then
    inr (RunReturned s (SizeLimitError (PLen ph)))
  else
  (* read packet *)
  match ReadFull (N.to_nat (PLen ph)) r with
  | inl e => inr (RunReturned (mkR [] (rout s) (ranon s) (packets s)) e)
  | inr (b, r) =>
  let s := mkR r (rout s) (ranon s) (packets s) in
  (* anonymize packet *)
  match Handle h b (ranon s) with
  | Panicked p => inr (RunPanicked s p)
  | Returned b anon n (Some e) => inr (RunReturned (mkR r (rout s) anon (packets s)) e)
  | Returned b anon n None =>
  let s := mkR r (rout s) anon (packets s) in
  match (if truncate
         then b' ← slice_to n b;
              Some (b', mkPacketHeader (TimestampSec ph) (TimestampUsec ph)
                          (N.of_nat n mod 2 ^ 32)%N (OrigLen ph))
         else Some (b, ph)) with
  | None => inr (RunPanicked s BoundsPanic)
  | Some (b, ph) =>
  (* write header and packet *)
  inl (mkR r (rout s ++ PacketHeader_Write ph order ++ b) anon
         ((packets s + 1) mod 2 ^ 64)%N)
  end end end end.

(** The [for] loop, with fuel: a round consumes at least the 16 bytes of a
    packet header, so [S (length (rin s))] rounds are enough. *)
Fixpoint run_loop (fuel : nat) (h : Handler) (order : ByteOrder) (truncate : bool)
    (s : rstate) : option run_outcome :=
  match fuel with
  | 0 => None
  | S fuel' =>
      match run_packet h order truncate s with
      | inl s' => run_loop fuel' h order truncate s'
      | inr o => Some o
      end
  end.

(** [run]: magic, global header, then the packets. *)
Definition run (input : list byte) (anon : DefaultAnonymizer) (truncate : bool)
    : option run_outcome :=
  (* magic *)
  match Magic_Read input with
  | inl e => Some (RunReturned (mkR (drop 4 input) [] anon 0) e)
  | inr (magic, r) =>
  let s := mkR r [] anon 0 in
  match Magic_Write magic, Magic_ByteOrder magic with
  | Some w, Some order =>
  (* global header *)
  match GlobalHeader_Read r order with
  | inl e => Some (RunReturned (mkR [] w anon 0) e)
  | inr (gh, r) =>
  let s := mkR r w anon 0 in
  match Handlers !! LinkLayer gh with
  | None => Some (RunReturned s (UnsupportedLinkLayerError (LinkLayer gh)))
  | Some h =>
  let s := mkR r (w ++ GlobalHeader_Write gh order) anon 0 in
  (* packets *)
  run_loop (S (length r)) h order truncate s
  end end
  | _, _ => Some (RunPanicked s BoundsPanic)
  end end.

(** ** Runs of anonymizer calls

    Within one run the handlers call the three methods of one anonymizer, in
    stream order.  A run is the list of those calls; its result is the list
    of the mutated fields and the last state. *)
Inductive call :=
| CallMAC (b : list byte)
| CallIPv4 (b : list byte)
| CallIPv6 (b : list byte).

Definition do_call (c : call) (a : DefaultAnonymizer)
    : option (list byte * DefaultAnonymizer) :=
  match c with
  | CallMAC b => MAC b a
  | CallIPv4 b => IPv4 b a
  | CallIPv6 b => IPv6 b a
  end.

Fixpoint run_calls (cs : list call) (a : DefaultAnonymizer)
    : option (list (list byte) * DefaultAnonymizer) :=
  match cs with
  | [] => Some ([], a)
  | c :: cs' =>
      '(out, a1) ← do_call c a;
      '(outs, a') ← run_calls cs' a1;
      Some (out :: outs, a')
  end.

(** The four classes of fields, each with its method, its map and its
    width. *)
Inductive class := OUI | NIC | V4 | V6.

Definition width (cls : class) : nat :=
  match cls with OUI => 3 | NIC => 3 | V4 => 4 | V6 => 16 end.

Definition method_of (cls : class) (a : DefaultAnonymizer) : AnonMethod :=
  match cls with
  | OUI => macOUI a | NIC => macNIC a | V4 => ipv4 a | V6 => ipv6 a
  end.

Definition map_of (cls : class) (a : DefaultAnonymizer)
    : gmap (vec byte (width cls)) (vec byte (width cls)) :=
  match cls with
  | OUI => ouiMap a | NIC => nicMap a | V4 => ipv4Map a | V6 => ipv6Map a
  end.

(** The part of a mutated or original field that belongs to the class. *)
Definition part (cls : class) (b : list byte) : list byte :=
  match cls with
  | OUI => take 3 b
  | NIC => drop 3 b
  | V4 | V6 => b
  end.

(** The original value of class [cls] that a call presents, for the field
    sizes the handlers use (6, 4 and 16 bytes). *)
Definition field_of (cls : class) (c : call) : option (list byte) :=
  match cls, c with
  | (OUI | NIC), CallMAC b => if decide (length b = 6) then Some (part cls b) else None
  | V4, CallIPv4 b => if decide (length b = 4) then Some b else None
  | V6, CallIPv6 b => if decide (length b = 16) then Some b else None
  | _, _ => None
  end.

(** Where the stream cursor stands when a call reaches the field of class
    [cls]: for the NIC half, after what the OUI half consumed. *)
Definition field_cursor (cls : class) (c : call) (a : DefaultAnonymizer) : nat :=
  match cls, c with
  | NIC, CallMAC b =>
      match macOUI a with
      | Encrypt => cursor (scipher a) + 3
      | Pseudonym =>
          match ouiMap a !! fill 3 (take 3 b) with
          | Some _ => cursor (scipher a)
          | None => cursor (scipher a) + 3
          end
      | Leave => cursor (scipher a)
      end
  | _, _ => cursor (scipher a)
  end.

(** ** Sample frames *)

(** An untagged IPv4 frame of 38 bytes whose IP header starts with [0x46]
    (header length 6 words) and whose destination address starts with
    [0x00]. *)
Definition frame_ihl6 : list byte :=
  [x00; x11; x22; x33; x44; x55] ++ [x66; x77; x88; x99; xaa; xbb] ++
  [x08; x00] ++ [x46] ++ replicate 23 x01.

(** An untagged IPv4 frame of 34 bytes whose IP header starts with [0x45]
    (header length 5 words) and whose destination address starts with
    [0x0f]. *)
Definition frame_ihl5 : list byte :=
  [x0f; x11; x22; x33; x44; x55] ++ [x66; x77; x88; x99; xaa; xbb] ++
  [x08; x00] ++ [x45] ++ replicate 19 x01.

(** A keystream for examples: byte [i] is [i mod 256]. *)
Definition count_stream : Stream := mkStream (λ i, byte_of (N.of_nat i)) 0.

(** Two big-endian records: one of 14 bytes, and one whose header declares
    [0x00100000] bytes. *)
Definition record_small : list byte :=
  [x00; x00; x00; x01] ++ [x00; x00; x00; x02] ++
  [x00; x00; x00; x0e] ++ [x00; x00; x00; x0e] ++ replicate 14 x07.

Definition record_big : list byte :=
  [x00; x00; x00; x03] ++ [x00; x00; x00; x04] ++
  [x00; x10; x00; x00] ++ [x00; x10; x00; x00] ++ replicate 5 x09.

(** A little-endian capture of link type 1 with one record: an untagged
    IPv4 frame of 34 bytes without options. *)
Definition capture_le : list byte :=
  [xd4; xc3; xb2; xa1] ++
  [x02; x00; x04; x00] ++ [x00; x00; x00; x00] ++ [x00; x00; x00; x00] ++
  [xff; xff; x00; x00] ++ [x01; x00; x00; x00] ++
  [x01; x00; x00; x00] ++ [x02; x00; x00; x00] ++
  [x22; x00; x00; x00] ++ [x22; x00; x00; x00] ++
  [x00; x11; x22; x33; x44; x55] ++ [x66; x77; x88; x99; xaa; xbb] ++
  [x08; x00] ++ [x45] ++ replicate 19 x01.

(** Radiotap payloads: an 8-byte Radiotap header (declared length 8), the
    frame control byte [fc], the flags byte [fl], then [k] more bytes. *)
Definition radiotap_payload (fc fl : byte) (k : nat) : list byte :=
  [x00; x00; x08; x00; x00; x00; x00; x00] ++ [fc; fl] ++ replicate k x01.

(** A VLAN-tagged frame (TCI [0xaabb]) carrying an EtherType the handler
    does not know, 20 bytes. *)
Definition frame_vlan : list byte :=
  [x00; x11; x22; x33; x44; x55] ++ [x66; x77; x88; x99; xaa; xbb] ++
  [x81; x00] ++ [xaa; xbb] ++ [x88; xcc] ++ [x01; x02].

(** An untagged ARP request of 42 bytes: sender [02:00:00:00:00:01] at
    [10.0.0.1], target address all zero, target [10.0.0.2]. *)
Definition frame_arp : list byte :=
  [xff; xff; xff; xff; xff; xff] ++ [x02; x00; x00; x00; x00; x01] ++
  [x08; x06] ++ [x00; x01; x08; x00; x06; x04; x00; x01] ++
  [x02; x00; x00; x00; x00; x01] ++ [x0a; x00; x00; x01] ++
  [x00; x00; x00; x00; x00; x00] ++ [x0a; x00; x00; x02].

(** A little-endian capture of link type 127 with one record, the payload
    [radiotap_payload fc fl k] (for [k < 246], so that the length fits one
    byte). *)
Definition capture_radiotap (fc fl : byte) (k : nat) : list byte :=
  [xd4; xc3; xb2; xa1] ++
  [x02; x00; x04; x00] ++ [x00; x00; x00; x00] ++ [x00; x00; x00; x00] ++
  [xff; xff; x00; x00] ++ [x7f; x00; x00; x00] ++
  [x01; x00; x00; x00] ++ [x02; x00; x00; x00] ++
  [byte_of (N.of_nat (10 + k)); x00; x00; x00] ++
  [byte_of (N.of_nat (10 + k)); x00; x00; x00] ++
  radiotap_payload fc fl k.

(** An untagged IPv6 frame of 56 bytes: the 40 bytes of the IP header and
    two bytes after it. *)
Definition frame_ipv6 : list byte :=
  [x00; x11; x22; x33; x44; x55] ++ [x66; x77; x88; x99; xaa; xbb] ++
  [x86; xdd] ++ [x60; x00; x00; x00; x00; x02; x3b; x40] ++
  replicate 16 x20 ++ replicate 16 x30 ++ [x01; x02].

(** An untagged frame of 20 bytes with an EtherType the handler does not
    know. *)
Definition frame_lldp : list byte :=
  [x01; x80; xc2; x00; x00; x0e] ++ [x66; x77; x88; x99; xaa; xbb] ++
  [x88; xcc] ++ [x02; x07; x04; x00; x01; x02].

(** ** Notions used to state the properties *)

(** Projections used to state results. *)
Definition handle_result (o : outcome) : option (nat * option error) :=
  match o with
  | Returned _ _ n e => Some (n, e)
  | Panicked _ => None
  end.

Definition run_state (o : run_outcome) : rstate :=
  match o with
  | RunReturned s _ => s
  | RunPanicked s _ => s
  end.

(** [k] rounds of the packet loop that all go on. *)
Fixpoint run_rounds (k : nat) (h : Handler) (order : ByteOrder) (truncate : bool)
    (s : rstate) : option rstate :=
  match k with
  | 0 => Some s
  | S k' =>
      match run_packet h order truncate s with
      | inl s' => run_rounds k' h order truncate s'
      | inr _ => None
      end
  end.

(** The slice a call is made on. *)
Definition call_input (c : call) : list byte :=
  match c with
  | CallMAC b | CallIPv4 b | CallIPv6 b => b
  end.

(** What becomes of a 6-byte MAC field [mac] of an ARP packet in anonymizer
    state [a], [mac'] and [a'] being the field and the state after it: a
    field of six zero bytes is left as it is and the anonymizer is not
    called; any other field is what [anon.MAC] makes of it. *)
Definition arp_mac_result (mac : list byte) (a : DefaultAnonymizer)
    (mac' : list byte) (a' : DefaultAnonymizer) : Prop :=
  (mac = replicate 6 x00 → mac' = mac ∧ a' = a) ∧
  (mac ≠ replicate 6 x00 → MAC mac a = Some (mac', a')).

(** A step that is sure to go on when [k] more bytes are there: it then
    advances the offset by [k], keeps the length of the packet, and calls
    [anon.MAC] [j] times. *)
Definition sure (m : handler unit) (k j : nat) : Prop :=
  ∀ s, st_n s + k ≤ length (st_b s) →
    ∃ s', m s = Next () s' ∧
          st_n s' = st_n s + k ∧
          length (st_b s') = length (st_b s) ∧
          nmac (st_anon s') = Nat.iter j incr64 (nmac (st_anon s)).

(** The number of bytes [radiotap_fields] consumes, and of address fields
    it anonymizes, when the packet is long enough and the type switch finds
    [nm] addresses. *)
Definition fields_len (typ styp : N) (tods fromds order : bool) (nm : nat) : nat :=
  2 + (nm * 6 +
  ((if decide (typ ≠ typeControl) then 2 else 0) +
  ((if bool_decide (typ = typeData) && tods && fromds then 6 else 0) +
  ((if bool_decide (typ = typeData) && bool_decide (N.land styp qosMask ≠ 0%N)
    then 2 else 0) +
  ((if bool_decide (typ = typeControl) && bool_decide (styp = cfWrapper)
    then 2 else 0) +
   (if (bool_decide (typ = typeControl) && bool_decide (styp = cfWrapper))
       || (bool_decide (typ = typeData) && bool_decide (N.land styp qosMask ≠ 0%N)
           && order)
       || (bool_decide (typ = typeMgmt) && order)
    then 4 else 0)))))).

Definition fields_macs (typ : N) (tods fromds : bool) (nm : nat) : nat :=
  0 + (nm * 1 + (0 +
  ((if bool_decide (typ = typeData) && tods && fromds then 1 else 0) +
   (0 + (0 + 0))))).

(** The statement that, in a run, two distinct originals of a class whose
    method is [Pseudonym] or [Encrypt] get different outputs, each of the
    length of its input. *)
Definition distinct_originals_distinct_outputs : Prop :=
  ∀ cls cs a outs a' i j ci cj oi oj vi vj,
    method_of cls a = Pseudonym ∨ method_of cls a = Encrypt →
    run_calls cs a = Some (outs, a') →
    cs !! i = Some ci → cs !! j = Some cj →
    outs !! i = Some oi → outs !! j = Some oj →
    field_of cls ci = Some vi → field_of cls cj = Some vj →
    vi ≠ vj →
    part cls oi ≠ part cls oj ∧
    length oi = length (call_input ci) ∧ length oj = length (call_input cj).

(** The field values a header can hold. *)
Definition GlobalHeader_wf (h : GlobalHeader) : Prop :=
  (VersionMajor h < 2 ^ 16)%N ∧ (VersionMinor h < 2 ^ 16)%N ∧
  (- 2 ^ 31 ≤ ThisZone h < 2 ^ 31)%Z ∧ (Sigfigs h < 2 ^ 32)%N ∧
  (Snaplen h < 2 ^ 32)%N ∧ (LinkLayer h < 2 ^ 32)%N.

Definition PacketHeader_wf (h : PacketHeader) : Prop :=
  (TimestampSec h < 2 ^ 32)%N ∧ (TimestampUsec h < 2 ^ 32)%N ∧
  (PLen h < 2 ^ 32)%N ∧ (OrigLen h < 2 ^ 32)%N.

(** [a] is a later state of the anonymizer [a0]: the methods and the
    keystream are those of [a0], and every class map contains that of
    [a0]. *)
Definition anon_ext (a0 a : DefaultAnonymizer) : Prop :=
  keystream (scipher a) = keystream (scipher a0) ∧
  ∀ cls, map_of cls a0 ⊆ map_of cls a ∧ method_of cls a = method_of cls a0.

(** What a step of a handler does from a state in [P]: it goes on into [Q],
    returns an error in [E], or panics with a panic in [C]. *)
Definition triple {A} (P : hstate → Prop) (m : handler A)
    (Q : A → hstate → Prop) (E : error → hstate → Prop) (C : panic → Prop) : Prop :=
  ∀ s, P s → match m s with
             | Next x s' => Q x s'
             | Stop e s' => E e s'
             | Crash p => C p
             end.

(** The states of a handler at work on a packet of [L] bytes with an
    anonymizer that started as [a0]: the packet keeps its length, and the
    [k] bytes from the offset on are within it. *)
Definition within (L : nat) (a0 : DefaultAnonymizer) (k : nat) (s : hstate) : Prop :=
  length (st_b s) = L ∧ st_n s + k ≤ L ∧ anon_ext a0 (st_anon s).

(** The error of [slurp], returned at an offset within the packet for
    bytes that are not there. *)
Definition short_at (L : nat) (a0 : DefaultAnonymizer) (e : error) (s : hstate) : Prop :=
  within L a0 0 s ∧ ∃ x, e = ShortPacketError x (st_n s) ∧ L < st_n s + x.

(** A method of the anonymizer that takes fields of [len] bytes: it
    returns, and the field keeps its length. *)
Definition takes (F : list byte → DefaultAnonymizer → option (list byte * DefaultAnonymizer))
    (len : nat) : Prop :=
  ∀ b a, length b = len →
    ∃ x a', F b a = Some (x, a') ∧ length x = len ∧ anon_ext a a'.

(** Every method is [Leave]. *)
Definition all_leave (a : DefaultAnonymizer) : Prop :=
  macOUI a = Leave ∧ macNIC a = Leave ∧ ipv4 a = Leave ∧ ipv6 a = Leave.

(** Every method is [Encrypt]. *)
Definition all_encrypt (a : DefaultAnonymizer) : Prop :=
  macOUI a = Encrypt ∧ macNIC a = Encrypt ∧ ipv4 a = Encrypt ∧ ipv6 a = Encrypt.

(** A method of the anonymizer that, when every method is [Leave], returns
    the field as it is, for any field. *)
Definition leaves (F : list byte → DefaultAnonymizer → option (list byte * DefaultAnonymizer))
    : Prop :=
  ∀ x a, all_leave a → ∃ a', F x a = Some (x, a') ∧ all_leave a' ∧ anon_ext a a'.

(** The states of a handler that has left the packet [b] as it was, with an
    anonymizer whose methods are all [Leave]. *)
Definition left_alone (b : list byte) (s : hstate) : Prop :=
  st_b s = b ∧ all_leave (st_anon s).

(** The states of a handler that has not touched the packet [b] from [k]
    bytes after the offset on. *)
Definition tail_kept (b : list byte) (k : nat) (s : hstate) : Prop :=
  length (st_b s) = length b ∧
  drop (st_n s + k) (st_b s) = drop (st_n s + k) b.

(** The same call, on another slice. *)
Definition with_input (c : call) (b : list byte) : call :=
  match c with
  | CallMAC _ => CallMAC b
  | CallIPv4 _ => CallIPv4 b
  | CallIPv6 _ => CallIPv6 b
  end.

(** Two runs of a step in lockstep: from states related by [R] they take
    the same way out, with the same value, error or panic, into states
    related by [R]. *)
Definition lock (R : hstate → hstate → Prop) {A} (m : handler A) : Prop :=
  ∀ s1 s2, R s1 s2 →
    match m s1, m s2 with
    | Next x1 s1', Next x2 s2' => x1 = x2 ∧ R s1' s2'
    | Stop e1 s1', Stop e2 s2' => e1 = e2 ∧ R s1' s2'
    | Crash p1, Crash p2 => p1 = p2
    | _, _ => False
    end.

(** Two states of a handler at the same offset, with the same anonymizer,
    all of whose methods are [Encrypt], on packets whose bytewise XOR is
    [D]. *)
Definition twins (D : list byte) (s1 s2 : hstate) : Prop :=
  st_n s1 = st_n s2 ∧ st_anon s1 = st_anon s2 ∧ all_encrypt (st_anon s1) ∧
  length (st_b s1) = length D ∧ length (st_b s2) = length D ∧
  xor_bytes (st_b s1) (st_b s2) = D.

(** A method of the anonymizer that, when every method is [Encrypt], XORs a
    field of [len] bytes with the keystream at the cursor. *)
Definition ciphers (F : list byte → DefaultAnonymizer → option (list byte * DefaultAnonymizer))
    (len : nat) : Prop :=
  ∀ a, all_encrypt a →
    ∃ a', all_encrypt a' ∧
      ∀ x, length x = len →
        F x a = Some (xor_bytes x (segment (scipher a) len), a').

(** The states of a handler that has not touched the first [m] bytes of
    the packet [b], and the states that moreover are at an offset past
    them. *)
Definition head_kept (b : list byte) (m : nat) (s : hstate) : Prop :=
  length (st_b s) = length b ∧ take m (st_b s) = take m b.

Definition head_past (b : list byte) (m : nat) (s : hstate) : Prop :=
  head_kept b m s ∧ m ≤ st_n s.


(** * Properties *)

(** ** Bytes and integers *)

Lemma byte_val_lt (x : byte) : (byte_val x < 256)%N.
Proof. unfold byte_val. pose proof (Byte.to_N_bounded x). lia. Qed.

Lemma xorb_cancel_r (a b k : bool) : xorb a k = xorb b k → a = b.
Proof. by destruct a, b, k. Qed.

Lemma xor_bits_cancel p q k : xor_bits p k = xor_bits q k → p = q.
Proof.
  destruct p as (a0 & a1 & a2 & a3 & a4 & a5 & a6 & a7).
  destruct q as (b0 & b1 & b2 & b3 & b4 & b5 & b6 & b7).
  destruct k as (k0 & k1 & k2 & k3 & k4 & k5 & k6 & k7).
  simpl. intros Heq. injection Heq as E0 E1 E2 E3 E4 E5 E6 E7.
  repeat f_equal; eauto using xorb_cancel_r.
Qed.

Lemma xor_byte_inj x y k : xor_byte x k = xor_byte y k → x = y.
Proof.
  unfold xor_byte. intros Heq.
  apply (f_equal Byte.to_bits) in Heq. rewrite !Byte.to_bits_of_bits in Heq.
  apply xor_bits_cancel in Heq.
  rewrite <- (Byte.of_bits_to_bits x), <- (Byte.of_bits_to_bits y). by f_equal.
Qed.

Lemma xor_byte_cancel x k : xor_byte (xor_byte x k) k = x.
Proof.
  unfold xor_byte. rewrite Byte.to_bits_of_bits.
  rewrite <- (Byte.of_bits_to_bits x) at 2. f_equal.
  destruct (Byte.to_bits x) as (a0 & a1 & a2 & a3 & a4 & a5 & a6 & a7).
  destruct (Byte.to_bits k) as (k0 & k1 & k2 & k3 & k4 & k5 & k6 & k7).
  simpl. by rewrite !xorb_assoc, !xorb_nilpotent, !xorb_false_r.
Qed.

Lemma xor_byte_zero_l k : xor_byte x00 k = k.
Proof.
  unfold xor_byte. rewrite <- (Byte.of_bits_to_bits k) at 2. f_equal.
  by destruct (Byte.to_bits k) as (k0 & k1 & k2 & k3 & k4 & k5 & k6 & k7).
Qed.

Global Arguments xor_byte : simpl never.

Lemma length_xor_bytes b k : length k = length b → length (xor_bytes b k) = length b.
Proof. intros Hk. unfold xor_bytes. rewrite length_zip_with. lia. Qed.

Lemma xor_bytes_inj b1 b2 k :
  length b1 = length k → length b2 = length k →
  xor_bytes b1 k = xor_bytes b2 k → b1 = b2.
Proof.
  revert b2 k. induction b1 as [|x b1 IH]; intros [|y b2] [|z k]; simpl;
    try done.
  intros [=H1] [=H2] [=Hx Hr]. f_equal; [by eapply xor_byte_inj | by eapply IH].
Qed.

Lemma length_segment s len : length (segment s len) = len.
Proof. unfold segment. by rewrite length_fmap, length_seq. Qed.

Lemma le_bytes_le_uint bs : le_bytes (length bs) (le_uint bs) = bs.
Proof.
  induction bs as [|x bs IH]; [done|]. simpl.
  pose proof (byte_val_lt x) as Hx. f_equal.
  - unfold byte_of.
    rewrite <- (N.mod_unique _ 256 (le_uint bs) (byte_val x)) by (done || lia).
    unfold byte_val. by rewrite Byte.of_to_N.
  - by rewrite <- (N.div_unique _ 256 (le_uint bs) (byte_val x)) by (done || lia).
Qed.

Lemma PutUint_Uint order bs : PutUint order (length bs) (Uint order bs) = bs.
Proof.
  destruct order; simpl.
  - apply le_bytes_le_uint.
  - rewrite <- (length_reverse bs), le_bytes_le_uint. apply reverse_involutive.
Qed.

(** ** Arrays and slices *)

Lemma vec_to_list_fill w (b : list byte) :
  length b = w → vec_to_list (fill w b) = b.
Proof.
  revert b. induction w as [|w IH]; intros [|x b] Hlen; simplify_eq/=; [done|].
  by rewrite IH.
Qed.

Lemma toArray_Some w b : length b ≤ w → toArray w b = Some (fill w b).
Proof. intros. unfold toArray. by rewrite decide_True. Qed.

Lemma toArray_inv w b v : toArray w b = Some v → length b ≤ w ∧ v = fill w b.
Proof. unfold toArray. case_decide; naive_solver. Qed.

Lemma toSlice_inv w b a x :
  toSlice w b a = Some x → w ≤ length b ∧ x = vec_to_list a ++ drop w b.
Proof. unfold toSlice. case_decide; naive_solver. Qed.

Lemma length_splice b lo x :
  lo + length x ≤ length b → length (splice b lo x) = length b.
Proof.
  intros. unfold splice. rewrite !length_app, length_take, length_drop. lia.
Qed.

Lemma length_slice b lo len : lo + len ≤ length b → length (slice b lo len) = len.
Proof. intros. unfold slice. rewrite length_take, length_drop. lia. Qed.

Lemma slice_splice_same b lo x :
  lo ≤ length b → slice (splice b lo x) lo (length x) = x.
Proof.
  intros. unfold slice, splice.
  rewrite drop_app_length' by (rewrite length_take; lia).
  by rewrite take_app_length.
Qed.

Lemma slice_splice_before b lo x lo' len :
  lo' + len ≤ lo → lo ≤ length b →
  slice (splice b lo x) lo' len = slice b lo' len.
Proof.
  intros. unfold slice, splice.
  rewrite !take_drop_commute.
  rewrite take_app_le by (rewrite length_take; lia).
  rewrite take_take. by rewrite Nat.min_l by lia.
Qed.

Lemma slice_splice_after b lo x lo' len :
  lo + length x ≤ lo' → lo + length x ≤ length b →
  slice (splice b lo x) lo' len = slice b lo' len.
Proof.
  intros. unfold slice, splice. f_equal.
  rewrite app_assoc.
  rewrite drop_app_ge by (rewrite length_app, length_take; lia).
  rewrite length_app, length_take, drop_drop. f_equal. lia.
Qed.

Lemma lookup_splice_before b lo x i :
  i < lo → lo ≤ length b → splice b lo x !! i = b !! i.
Proof.
  intros. unfold splice.
  rewrite lookup_app_l by (rewrite length_take; lia).
  by apply lookup_take_lt.
Qed.

Lemma splice_slice_id b lo len :
  lo + len ≤ length b → splice b lo (slice b lo len) = b.
Proof.
  intros. unfold splice. rewrite length_slice by done. unfold slice.
  rewrite app_assoc, take_take_drop. apply take_drop.
Qed.

Lemma copy_short b w : length w ≤ length b → copy b w = w ++ drop (length w) b.
Proof. intros. unfold copy. by rewrite take_ge. Qed.

Lemma slice_app_after (w b : list byte) off len :
  length w ≤ off → length w ≤ length b →
  slice (w ++ drop (length w) b) off len = slice b off len.
Proof.
  intros. unfold slice. f_equal. rewrite drop_app_ge by done.
  rewrite drop_drop. f_equal. lia.
Qed.

Lemma length_le_bytes k v : length (le_bytes k v) = k.
Proof. revert v. induction k as [|k IH]; intros v; simpl; [done | by rewrite IH]. Qed.

Lemma length_PutUint order k v : length (PutUint order k v) = k.
Proof. destruct order; simpl; rewrite ?length_reverse; apply length_le_bytes. Qed.

(** ** The anonymizer *)

(** Every method leaves the length of the field as it is. *)
Lemma anonymize_length w method s m b x s' m' :
  anonymize w method s m b = Some (x, s', m') → length x = length b.
Proof.
  unfold anonymize. destruct method.
  - intros [= <- _ _]. apply length_xor_bytes, length_segment.
  - intros Ha. destruct (toArray w b) as [ba|] eqn:Eba; [|done].
    apply toArray_inv in Eba as [Hle ->]. simpl in Ha.
    destruct (m !! fill w b) as [pa|].
    + destruct (toSlice w b pa) as [b'|] eqn:Es; [|done].
      apply toSlice_inv in Es as [Hge ->]. simpl in Ha. injection Ha as <- _ _.
      rewrite length_app, length_vec_to_list, length_drop. lia.
    + simpl in Ha. destruct (toArray w _); [|done]. simpl in Ha.
      injection Ha as <- _ _. apply length_xor_bytes, length_segment.
  - by intros [= <- _ _].
Qed.

(** The class map only grows, and the keystream stays. *)
Lemma anonymize_mono w method s m b x s' m' :
  anonymize w method s m b = Some (x, s', m') →
  m ⊆ m' ∧ keystream s' = keystream s.
Proof.
  unfold anonymize. destruct method.
  - by intros [= _ <- <-].
  - intros Ha. destruct (toArray w b) as [ba|]; [|done]. simpl in Ha.
    destruct (m !! ba) as [pa|] eqn:Em.
    + destruct (toSlice w b pa); [|done]. simpl in Ha. by injection Ha as _ <- <-.
    + simpl in Ha. destruct (toArray w _); [|done]. simpl in Ha.
      injection Ha as _ <- <-. split; [|done]. by apply insert_subseteq.
  - by intros [= _ <- <-].
Qed.

(** On a field of the width of the class no method panics. *)
Lemma anonymize_ok w method s m b :
  length b = w → is_Some (anonymize w method s m b).
Proof.
  intros Hlen. unfold anonymize. destruct method; [done| |done].
  rewrite toArray_Some by lia. simpl.
  destruct (m !! fill w b) as [pa|].
  - unfold toSlice. by rewrite decide_True by lia.
  - simpl. rewrite toArray_Some; [done|].
    rewrite length_xor_bytes; [lia | apply length_segment].
Qed.

Global Arguments anonymize : simpl never.

(** [Pseudonym], value already in the map: the stored value, nothing else
    changes. *)
Lemma anonymize_pseudonym_hit w s m b pa :
  length b = w → m !! fill w b = Some pa →
  anonymize w Pseudonym s m b = Some (vec_to_list pa, s, m).
Proof.
  intros Hlen Hm. unfold anonymize. rewrite toArray_Some by lia. simpl.
  rewrite Hm. unfold toSlice. rewrite decide_True by lia. simpl.
  by rewrite drop_ge, app_nil_r by lia.
Qed.

(** [Pseudonym], first occurrence: the value XORed with the next [w]
    keystream bytes; the pair is added to the map. *)
Lemma anonymize_pseudonym_miss w s m b :
  length b = w → m !! fill w b = None →
  anonymize w Pseudonym s m b
  = Some (xor_bytes b (segment s w), mkStream (keystream s) (cursor s + w),
          <[fill w b := fill w (xor_bytes b (segment s w))]> m).
Proof.
  intros <- Hm. unfold anonymize. rewrite toArray_Some by lia. simpl.
  rewrite Hm. simpl. rewrite toArray_Some; [done|].
  rewrite length_xor_bytes; [lia | apply length_segment].
Qed.

(** After a [Pseudonym] call the map holds the pair (original, output). *)
Lemma anonymize_pseudonym_records w s m b x s' m' :
  length b = w → anonymize w Pseudonym s m b = Some (x, s', m') →
  m' !! fill w b = Some (fill w x).
Proof.
  intros Hlen Ha. destruct (m !! fill w b) as [pa|] eqn:Em.
  - rewrite (anonymize_pseudonym_hit _ _ _ _ pa) in Ha by done.
    injection Ha as <- _ <-. by rewrite fill_vec_to_list.
  - rewrite anonymize_pseudonym_miss in Ha by done.
    injection Ha as <- _ <-. by rewrite lookup_insert_eq.
Qed.

(** [MAC] on six bytes: the switch on the OUI method over the first three
    bytes, then the switch on the NIC method over the last three. *)
Lemma MAC_spec b a :
  length b = 6 →
  ∃ oui s1 m1 nic s2 m2,
    anonymize 3 (macOUI a) (scipher a) (ouiMap a) (take 3 b) = Some (oui, s1, m1) ∧
    anonymize 3 (macNIC a) s1 (nicMap a) (drop 3 b) = Some (nic, s2, m2) ∧
    length oui = 3 ∧ length nic = 3 ∧
    MAC b a = Some (oui ++ nic,
                    mkAnon (macOUI a) (macNIC a) (ipv4 a) (ipv6 a) s2 m1 m2
                      (ipv4Map a) (ipv6Map a) (incr64 (nmac a)) (nipv4 a) (nipv6 a)).
Proof.
  intros Hlen.
  destruct (anonymize_ok 3 (macOUI a) (scipher a) (ouiMap a) (take 3 b))
    as [[[oui s1] m1] Ho]; [rewrite length_take; lia|].
  destruct (anonymize_ok 3 (macNIC a) s1 (nicMap a) (drop 3 b))
    as [[[nic s2] m2] Hn]; [rewrite length_drop; lia|].
  pose proof (anonymize_length _ _ _ _ _ _ _ _ Ho) as Hlo.
  pose proof (anonymize_length _ _ _ _ _ _ _ _ Hn) as Hln.
  rewrite length_take in Hlo. rewrite length_drop in Hln.
  exists oui, s1, m1, nic, s2, m2. repeat split; [done|done|lia|lia|].
  unfold MAC.
  assert (Hb1 : (match macOUI a with
                 | Leave => Some (b, scipher a, ouiMap a)
                 | method =>
                     oui ← slice_to 3 b;
                     '(oui', s', m') ← anonymize 3 method (scipher a) (ouiMap a) oui;
                     Some (oui' ++ drop 3 b, s', m')
                 end) = Some (oui ++ drop 3 b, s1, m1)).
  { unfold slice_to. rewrite decide_True by lia. simpl.
    revert Ho. destruct (macOUI a); intros Ho; simpl.
    - unfold anonymize in Ho. simpl in Ho. by injection Ho as <- <- <-.
    - by rewrite Ho.
    - unfold anonymize in Ho. injection Ho as <- <- <-. by rewrite take_drop. }
  rewrite Hb1. simpl.
  assert (Hd : drop 3 (oui ++ drop 3 b) = drop 3 b).
  { rewrite drop_app_length' by lia. done. }
  assert (Ht : take 3 (oui ++ drop 3 b) = oui).
  { rewrite take_app_length' by lia. done. }
  unfold slice_from. rewrite length_app, length_drop.
  revert Hn. destruct (macNIC a); intros Hn.
  - rewrite decide_True by lia. cbn [mbind option_bind]. rewrite Hd, Ht.
    unfold anonymize in Hn. simpl in Hn. by injection Hn as <- <- <-.
  - rewrite decide_True by lia. cbn [mbind option_bind]. rewrite Hd, Hn.
    simpl. by rewrite Ht.
  - unfold anonymize in Hn. by injection Hn as <- <- <-.
Qed.

Lemma IPv4_spec b a :
  length b = 4 →
  ∃ x s' m',
    anonymize 4 (ipv4 a) (scipher a) (ipv4Map a) b = Some (x, s', m') ∧
    length x = 4 ∧
    IPv4 b a = Some (x, mkAnon (macOUI a) (macNIC a) (ipv4 a) (ipv6 a) s' (ouiMap a)
                          (nicMap a) m' (ipv6Map a) (nmac a) (incr64 (nipv4 a))
                          (nipv6 a)).
Proof.
  intros Hlen.
  destruct (anonymize_ok 4 (ipv4 a) (scipher a) (ipv4Map a) b)
    as [[[x s'] m'] Hx]; [done|].
  pose proof (anonymize_length _ _ _ _ _ _ _ _ Hx) as Hl.
  exists x, s', m'. repeat split; [done|lia|]. unfold IPv4. by rewrite Hx.
Qed.

Lemma IPv6_spec b a :
  length b = 16 →
  ∃ x s' m',
    anonymize 16 (ipv6 a) (scipher a) (ipv6Map a) b = Some (x, s', m') ∧
    length x = 16 ∧
    IPv6 b a = Some (x, mkAnon (macOUI a) (macNIC a) (ipv4 a) (ipv6 a) s' (ouiMap a)
                          (nicMap a) (ipv4Map a) m' (nmac a) (nipv4 a)
                          (incr64 (nipv6 a))).
Proof.
  intros Hlen.
  destruct (anonymize_ok 16 (ipv6 a) (scipher a) (ipv6Map a) b)
    as [[[x s'] m'] Hx]; [done|].
  pose proof (anonymize_length _ _ _ _ _ _ _ _ Hx) as Hl.
  exists x, s', m'. repeat split; [done|lia|]. unfold IPv6. by rewrite Hx.
Qed.

(** Where the switch leaves the cursor. *)
Lemma anonymize_cursor w method s m b x s' m' :
  length b = w →
  anonymize w method s m b = Some (x, s', m') →
  cursor s' = match method with
              | Encrypt => cursor s + w
              | Pseudonym =>
                  match m !! fill w b with
                  | Some _ => cursor s
                  | None => cursor s + w
                  end
              | Leave => cursor s
              end.
Proof.
  intros Hlen Ha. destruct method.
  - unfold anonymize in Ha. simpl in Ha. injection Ha as _ <- _. simpl. lia.
  - destruct (m !! fill w b) as [pa|] eqn:Em.
    + rewrite (anonymize_pseudonym_hit _ _ _ _ pa) in Ha by done.
      by injection Ha as _ <- _.
    + rewrite anonymize_pseudonym_miss in Ha by done. by injection Ha as _ <- _.
  - unfold anonymize in Ha. by injection Ha as _ <- _.
Qed.

(** The cursor never goes back. *)
Lemma anonymize_cursor_le w method s m b x s' m' :
  anonymize w method s m b = Some (x, s', m') → cursor s ≤ cursor s'.
Proof.
  unfold anonymize. destruct method.
  - intros [= _ <- _]. simpl. lia.
  - intros Ha. destruct (toArray w b) as [ba|]; [|done]. simpl in Ha.
    destruct (m !! ba) as [pa|].
    + destruct (toSlice w b pa); [|done]. simpl in Ha. by injection Ha as _ <- _.
    + simpl in Ha. destruct (toArray w _); [|done]. simpl in Ha.
      injection Ha as _ <- _. simpl. lia.
  - by intros [= _ <- _].
Qed.

(** What a call does for one class: the switch of that class, on the part
    of the field that belongs to the class, from the cursor
    [field_cursor]. *)
Lemma do_call_class cls c a out a' v :
  do_call c a = Some (out, a') →
  field_of cls c = Some v →
  length v = width cls ∧
  ∃ s0 s1,
    keystream s0 = keystream (scipher a) ∧
    cursor s0 = field_cursor cls c a ∧
    cursor (scipher a) ≤ cursor s0 ∧ cursor s1 ≤ cursor (scipher a') ∧
    anonymize (width cls) (method_of cls a) s0 (map_of cls a) v
    = Some (part cls out, s1, map_of cls a').
Proof.
  intros Hc Hf.
  destruct cls, c as [b|b|b]; simpl in Hf; try done; case_decide as Hlen;
    try done; injection Hf as <-; simpl in Hc.
  - destruct (MAC_spec b a Hlen) as (oui & s1 & m1 & nic & s2 & m2 & Ho & Hn & Hlo & Hln & HM).
    rewrite HM in Hc. injection Hc as <- <-. simpl.
    split; [rewrite length_take; lia|]. exists (scipher a), s1.
    rewrite take_app_length' by done.
    apply anonymize_cursor_le in Hn. repeat split; try done; lia.
  - destruct (MAC_spec b a Hlen) as (oui & s1 & m1 & nic & s2 & m2 & Ho & Hn & Hlo & Hln & HM).
    rewrite HM in Hc. injection Hc as <- <-. simpl.
    split; [rewrite length_drop; lia|]. exists s1, s2.
    rewrite drop_app_length' by done.
    pose proof (anonymize_cursor_le _ _ _ _ _ _ _ _ Ho) as Hle.
    pose proof (anonymize_mono _ _ _ _ _ _ _ _ Ho) as [_ Hks].
    apply anonymize_cursor in Ho; [|rewrite length_take; lia].
    repeat split; try done; try lia; rewrite Ho; by destruct (macOUI a).
  - destruct (IPv4_spec b a Hlen) as (x & s' & m' & Hx & _ & HI).
    rewrite HI in Hc. injection Hc as <- <-. simpl.
    split; [done|]. exists (scipher a), s'. repeat split; try done; lia.
  - destruct (IPv6_spec b a Hlen) as (x & s' & m' & Hx & _ & HI).
    rewrite HI in Hc. injection Hc as <- <-. simpl.
    split; [done|]. exists (scipher a), s'. repeat split; try done; lia.
Qed.

(** Whatever the call and its size: the maps only grow, the methods and the
    keystream stay, the cursor does not go back, and the field keeps its
    length. *)
Lemma MAC_inv b a out a' :
  MAC b a = Some (out, a') →
  length out = length b ∧
  ouiMap a ⊆ ouiMap a' ∧ nicMap a ⊆ nicMap a' ∧
  ipv4Map a' = ipv4Map a ∧ ipv6Map a' = ipv6Map a ∧
  macOUI a' = macOUI a ∧ macNIC a' = macNIC a ∧
  ipv4 a' = ipv4 a ∧ ipv6 a' = ipv6 a ∧
  keystream (scipher a') = keystream (scipher a).
Proof.
  unfold MAC. intros HM.
  destruct (match macOUI a with Leave => _ | _ => _ end)
    as [[[b1 s1] m1]|] eqn:E1; [|done].
  cbn [mbind option_bind] in HM.
  destruct (match macNIC a with Leave => _ | _ => _ end)
    as [[[b2 s2] m2]|] eqn:E2; [|done].
  cbn [mbind option_bind] in HM. injection HM as <- <-. simpl.
  assert (H1 : length b1 = length b ∧ ouiMap a ⊆ m1 ∧
               keystream s1 = keystream (scipher a)).
  { destruct (macOUI a).
    - unfold slice_to in E1. case_decide; [|done]. cbn [mbind option_bind] in E1.
      destruct (anonymize _ _ _ _ _) as [[[x s'] m']|] eqn:Ea; [|done].
      simpl in E1. injection E1 as <- <- <-.
      pose proof (anonymize_length _ _ _ _ _ _ _ _ Ea) as Hl.
      pose proof (anonymize_mono _ _ _ _ _ _ _ _ Ea) as [? ?].
      rewrite length_take in Hl.
      split; [rewrite length_app, length_drop; lia | done].
    - unfold slice_to in E1. case_decide; [|done]. cbn [mbind option_bind] in E1.
      destruct (anonymize _ _ _ _ _) as [[[x s'] m']|] eqn:Ea; [|done].
      simpl in E1. injection E1 as <- <- <-.
      pose proof (anonymize_length _ _ _ _ _ _ _ _ Ea) as Hl.
      pose proof (anonymize_mono _ _ _ _ _ _ _ _ Ea) as [? ?].
      rewrite length_take in Hl.
      split; [rewrite length_app, length_drop; lia | done].
    - by injection E1 as <- <- <-. }
  destruct H1 as (Hl1 & Hm1 & Hk1).
  assert (H2 : length b2 = length b1 ∧ nicMap a ⊆ m2 ∧ keystream s2 = keystream s1).
  { destruct (macNIC a).
    - unfold slice_from in E2. case_decide; [|done]. cbn [mbind option_bind] in E2.
      destruct (anonymize _ _ _ _ _) as [[[x s'] m']|] eqn:Ea; [|done].
      simpl in E2. injection E2 as <- <- <-.
      pose proof (anonymize_length _ _ _ _ _ _ _ _ Ea) as Hl.
      pose proof (anonymize_mono _ _ _ _ _ _ _ _ Ea) as [? ?].
      rewrite length_drop in Hl.
      split; [rewrite length_app, length_take; lia | done].
    - unfold slice_from in E2. case_decide; [|done]. cbn [mbind option_bind] in E2.
      destruct (anonymize _ _ _ _ _) as [[[x s'] m']|] eqn:Ea; [|done].
      simpl in E2. injection E2 as <- <- <-.
      pose proof (anonymize_length _ _ _ _ _ _ _ _ Ea) as Hl.
      pose proof (anonymize_mono _ _ _ _ _ _ _ _ Ea) as [? ?].
      rewrite length_drop in Hl.
      split; [rewrite length_app, length_take; lia | done].
    - by injection E2 as <- <- <-. }
  destruct H2 as (Hl2 & Hm2 & Hk2).
  repeat split; try done; congruence.
Qed.

Lemma do_call_inv cls c a out a' :
  do_call c a = Some (out, a') →
  length out = length (call_input c) ∧
  map_of cls a ⊆ map_of cls a' ∧
  method_of cls a' = method_of cls a ∧
  keystream (scipher a') = keystream (scipher a).
Proof.
  destruct c as [b|b|b]; simpl; intros Hc.
  - apply MAC_inv in Hc as (? & ? & ? & E4 & E6 & ? & ? & ? & ? & ?).
    destruct cls; simpl; rewrite ?E4, ?E6; done.
  - unfold IPv4 in Hc.
    destruct (anonymize _ _ _ _ _) as [[[x s'] m']|] eqn:Ea; [|done].
    simpl in Hc. injection Hc as <- <-.
    pose proof (anonymize_length _ _ _ _ _ _ _ _ Ea) as Hl.
    pose proof (anonymize_mono _ _ _ _ _ _ _ _ Ea) as [? ?].
    destruct cls; simpl; done.
  - unfold IPv6 in Hc.
    destruct (anonymize _ _ _ _ _) as [[[x s'] m']|] eqn:Ea; [|done].
    simpl in Hc. injection Hc as <- <-.
    pose proof (anonymize_length _ _ _ _ _ _ _ _ Ea) as Hl.
    pose proof (anonymize_mono _ _ _ _ _ _ _ _ Ea) as [? ?].
    destruct cls; simpl; done.
Qed.

(** ** Pseudonyms over a run *)

Section pseudonym.
Variable cls : class.

Lemma call_records c a out a' v :
  method_of cls a = Pseudonym →
  do_call c a = Some (out, a') →
  field_of cls c = Some v →
  map_of cls a' !! fill (width cls) v = Some (fill (width cls) (part cls out)).
Proof.
  intros Hm Hc Hf.
  destruct (do_call_class cls c a out a' v Hc Hf) as (Hlen & s0 & s1 & _ & _ & _ & _ & Ha).
  rewrite Hm in Ha. by eapply anonymize_pseudonym_records.
Qed.

Lemma call_hit c a out a' v pa :
  method_of cls a = Pseudonym →
  do_call c a = Some (out, a') →
  field_of cls c = Some v →
  map_of cls a !! fill (width cls) v = Some pa →
  part cls out = vec_to_list pa.
Proof.
  intros Hm Hc Hf Hpa.
  destruct (do_call_class cls c a out a' v Hc Hf) as (Hlen & s0 & s1 & _ & _ & _ & _ & Ha).
  rewrite Hm, (anonymize_pseudonym_hit _ _ _ _ pa) in Ha by done.
  by injection Ha as <- _ _.
Qed.

Lemma call_miss c a out a' v :
  method_of cls a = Pseudonym →
  do_call c a = Some (out, a') →
  field_of cls c = Some v →
  map_of cls a !! fill (width cls) v = None →
  part cls out
  = xor_bytes v (keystream (scipher a) <$> seq (field_cursor cls c a) (width cls)) ∧
  map_of cls a'
  = <[fill (width cls) v := fill (width cls) (part cls out)]> (map_of cls a) ∧
  cursor (scipher a) ≤ field_cursor cls c a ∧
  field_cursor cls c a + width cls ≤ cursor (scipher a').
Proof.
  intros Hm Hc Hf Hnone.
  destruct (do_call_class cls c a out a' v Hc Hf)
    as (Hlen & s0 & s1 & Hk & Hcur & Hge & Hle & Ha).
  rewrite Hm, anonymize_pseudonym_miss in Ha by done.
  injection Ha as <- <- <-. simpl in Hle. unfold segment. rewrite Hk, Hcur.
  repeat split; try done; lia.
Qed.

Lemma run_calls_inv cs a outs a' :
  run_calls cs a = Some (outs, a') →
  length outs = length cs ∧
  map_of cls a ⊆ map_of cls a' ∧
  method_of cls a' = method_of cls a.
Proof.
  revert a outs. induction cs as [|c cs IH]; intros a outs Hr; simpl in Hr.
  - by injection Hr as <- <-.
  - destruct (do_call c a) as [[out a1]|] eqn:Hc; [|done]. simpl in Hr.
    destruct (run_calls cs a1) as [[outs1 a2]|] eqn:Hr1; [|done]. simpl in Hr.
    injection Hr as <- <-.
    destruct (IH _ _ Hr1) as (Hl & Hsub & Hmeth).
    destruct (do_call_inv cls _ _ _ _ Hc) as (_ & Hsub1 & Hmeth1 & _).
    split; [simpl; lia|]. split; [by etrans | congruence].
Qed.

(** Once a value is in the map, every later call on it gives the stored
    value. *)
Lemma run_calls_hit cs a outs a' v pa :
  method_of cls a = Pseudonym →
  run_calls cs a = Some (outs, a') →
  map_of cls a !! fill (width cls) v = Some pa →
  ∀ j cj oj, cs !! j = Some cj → outs !! j = Some oj →
             field_of cls cj = Some v → part cls oj = vec_to_list pa.
Proof.
  revert a outs. induction cs as [|c cs IH]; intros a outs Hm Hr Hpa j cj oj Hcj Hoj Hf;
    [done|]. simpl in Hr.
  destruct (do_call c a) as [[out a1]|] eqn:Hc; [|done]. simpl in Hr.
  destruct (run_calls cs a1) as [[outs1 a2]|] eqn:Hr1; [|done]. simpl in Hr.
  injection Hr as <- <-.
  destruct (do_call_inv cls _ _ _ _ Hc) as (_ & Hsub1 & Hmeth1 & _).
  destruct j as [|j]; simpl in Hcj, Hoj.
  - injection Hcj as ->. injection Hoj as ->. by eapply call_hit.
  - eapply (IH a1 outs1); try done; [congruence|].
    by eapply lookup_weaken.
Qed.

Lemma run_calls_consistent_lt cs a outs a' i j ci cj oi oj v :
  method_of cls a = Pseudonym →
  run_calls cs a = Some (outs, a') →
  i < j →
  cs !! i = Some ci → cs !! j = Some cj →
  outs !! i = Some oi → outs !! j = Some oj →
  field_of cls ci = Some v → field_of cls cj = Some v →
  part cls oj = part cls oi.
Proof.
  revert a outs i j. induction cs as [|c cs IH];
    intros a outs i j Hm Hr Hij Hci Hcj Hoi Hoj Hfi Hfj; [done|].
  simpl in Hr.
  destruct (do_call c a) as [[out a1]|] eqn:Hc; [|done]. simpl in Hr.
  destruct (run_calls cs a1) as [[outs1 a2]|] eqn:Hr1; [|done]. simpl in Hr.
  injection Hr as <- <-.
  destruct (do_call_inv cls _ _ _ _ Hc) as (_ & Hsub1 & Hmeth1 & _).
  destruct j as [|j]; [lia|]. simpl in Hcj, Hoj.
  destruct i as [|i]; simpl in Hci, Hoi.
  - injection Hci as ->. injection Hoi as ->.
    pose proof (call_records _ _ _ _ _ Hm Hc Hfi) as Hrec.
    destruct (do_call_class cls _ _ _ _ _ Hc Hfi) as (Hlv & s0 & s1 & _ & _ & _ & _ & Ha).
    apply anonymize_length in Ha.
    rewrite (run_calls_hit cs a1 outs1 a2 v _ ltac:(congruence) Hr1 Hrec j cj oj)
      by done.
    apply vec_to_list_fill. lia.
  - eapply (IH a1 outs1 i j); try done; [congruence | lia].
Qed.

(** Every value presented during the run is in the last map, with the
    output of its call. *)
Lemma run_calls_records cs a outs a' i ci oi v :
  method_of cls a = Pseudonym →
  run_calls cs a = Some (outs, a') →
  cs !! i = Some ci → outs !! i = Some oi →
  field_of cls ci = Some v →
  map_of cls a' !! fill (width cls) v = Some (fill (width cls) (part cls oi)).
Proof.
  revert a outs i. induction cs as [|c cs IH];
    intros a outs i Hm Hr Hci Hoi Hfi; [done|].
  simpl in Hr.
  destruct (do_call c a) as [[out a1]|] eqn:Hc; [|done]. simpl in Hr.
  destruct (run_calls cs a1) as [[outs1 a2]|] eqn:Hr1; [|done]. simpl in Hr.
  injection Hr as <- <-.
  destruct (do_call_inv cls _ _ _ _ Hc) as (_ & Hsub1 & Hmeth1 & _).
  destruct i as [|i]; simpl in Hci, Hoi.
  - injection Hci as ->. injection Hoi as ->.
    destruct (run_calls_inv _ _ _ _ Hr1) as (_ & Hsub & _).
    eapply lookup_weaken; [|exact Hsub]. by eapply call_records.
  - eapply (IH a1 outs1 i); try done. congruence.
Qed.
End pseudonym.

(** ** Readers *)

Lemma ReadFull_inr k r x r' :
  ReadFull k r = inr (x, r') → k ≤ length r ∧ x = take k r ∧ r' = drop k r.
Proof. unfold ReadFull. repeat case_decide; naive_solver. Qed.

Lemma ReadFull_ok k r : k ≤ length r → ReadFull k r = inr (take k r, drop k r).
Proof. intros. unfold ReadFull. by rewrite decide_True. Qed.

Lemma ReadFull_inl k r e :
  ReadFull k r = inl e → length r < k ∧ (e = EOF ∨ e = ErrUnexpectedEOF).
Proof. unfold ReadFull. repeat case_decide; naive_solver lia. Qed.

Lemma PacketHeader_Read_inr r order ph r' :
  PacketHeader_Read r order = inr (ph, r') → 16 ≤ length r ∧ r' = drop 16 r.
Proof.
  unfold PacketHeader_Read. destruct (ReadFull 16 r) as [|[bs r0]] eqn:E; [done|].
  apply ReadFull_inr in E as (Hlen & _ & ->). by intros [= _ <-].
Qed.

(** ** The packet loop *)

Lemma run_packet_inl h order truncate s s' :
  run_packet h order truncate s = inl s' →
  length (rin s') + 16 ≤ length (rin s) ∧ ∃ w, rout s' = rout s ++ w.
Proof.
  unfold run_packet. intros Hr.
  destruct (PacketHeader_Read _ _) as [|[ph r]] eqn:Eh; [done|].
  apply PacketHeader_Read_inr in Eh as [Hlen ->].
  case_decide; [done|].
  destruct (ReadFull _ _) as [|[b r]] eqn:Eb; [done|].
  apply ReadFull_inr in Eb as (_ & _ & ->).
  destruct (Handle _ _ _) as [b' anon n [e|]|]; try done.
  simpl in Hr. destruct (if truncate then _ else _) as [[b2 ph2]|]; [|done].
  injection Hr as <-. simpl. rewrite !length_drop. split; [lia | eauto].
Qed.

Lemma run_packet_inr h order truncate s o :
  run_packet h order truncate s = inr o → rout (run_state o) = rout s.
Proof.
  unfold run_packet. intros Hr.
  repeat (case_match; simplify_eq/=; try done).
Qed.

Lemma run_loop_total fuel h order truncate s :
  length (rin s) < fuel →
  ∃ o, run_loop fuel h order truncate s = Some o ∧
       ∃ w, rout (run_state o) = rout s ++ w.
Proof.
  revert s. induction fuel as [|fuel IH]; intros s Hf; [lia|]. simpl.
  destruct (run_packet h order truncate s) as [s'|o] eqn:E.
  - apply run_packet_inl in E as [Hlen [w Hw]].
    destruct (IH s') as (o & Ho & w' & Hw'); [lia|].
    exists o. split; [done|]. exists (w ++ w'). by rewrite Hw', Hw, app_assoc.
  - exists o. split; [done|]. exists []. rewrite app_nil_r.
    by eapply run_packet_inr.
Qed.

Lemma run_loop_rounds k fuel h order truncate s0 s :
  run_rounds k h order truncate s0 = Some s →
  length (rin s0) < fuel →
  length (rin s) < fuel - k ∧
  run_loop fuel h order truncate s0 = run_loop (fuel - k) h order truncate s.
Proof.
  revert fuel s0. induction k as [|k IH]; intros fuel s0 Hk Hf; simpl in Hk.
  - injection Hk as <-. by rewrite Nat.sub_0_r.
  - destruct (run_packet h order truncate s0) as [s1|] eqn:E; [|done].
    pose proof E as [Hlen _]%run_packet_inl.
    destruct fuel as [|fuel]; [lia|]. simpl. rewrite E.
    destruct (IH fuel s1 Hk) as [Hlt Heq]; [lia|]. done.
Qed.

(** [run] always ends: the fuel it gives the loop is enough. *)
Lemma run_total input anon truncate : is_Some (run input anon truncate).
Proof.
  unfold run. destruct (Magic_Read input) as [e|[magic r]]; [done|].
  destruct (Magic_Write magic), (Magic_ByteOrder magic) as [order|]; try done.
  destruct (GlobalHeader_Read r order) as [e|[gh r']]; [done|].
  destruct (Handlers !! LinkLayer gh) as [h|]; [|done].
  edestruct (run_loop_total (S (length r')) h order truncate) as (o & Ho & _);
    [|by rewrite Ho]. simpl. lia.
Qed.

(** ** The magic number *)

Lemma Magic_bytes bs :
  length bs = 4 →
  (Uint BigEndian bs = MagicLE → bs = [xd4; xc3; xb2; xa1]) ∧
  (Uint BigEndian bs = MagicBE → bs = [xa1; xb2; xc3; xd4]).
Proof.
  intros Hlen. pose proof (PutUint_Uint BigEndian bs) as Hrt. rewrite Hlen in Hrt.
  split; intros Hm; rewrite Hm in Hrt; by rewrite <- Hrt.
Qed.

(** C4. When the first four bytes of the input are one of the two recognized
    magic values, [run] writes those same four bytes first, whichever of the
    two it is and however the run ends; for any other four bytes it returns
    the bad-magic error with nothing written (and nothing read past the
    magic). *)
Theorem C4_magic_round_trip (input : list byte) (anon : DefaultAnonymizer)
    (truncate : bool) :
  4 ≤ length input →
  let m := Uint BigEndian (take 4 input) in
  ∃ o, run input anon truncate = Some o ∧
       if decide (m = MagicLE ∨ m = MagicBE)
       then take 4 (rout (run_state o)) = take 4 input
       else o = RunReturned (mkR (drop 4 input) [] anon 0) (BadMagicError m).
Proof.
  intros Hlen m. unfold run, Magic_Read. rewrite ReadFull_ok by done.
  fold m. destruct (Magic_bytes (take 4 input)) as [HLE HBE].
  { rewrite length_take. lia. }
  fold m in HLE, HBE.
  destruct (decide (m = MagicLE ∨ m = MagicBE)) as [Hm|Hm].
  - assert (∃ order, Magic_ByteOrder m = Some order ∧
                     PutUint order 4 MagicBE = take 4 input) as (order & Ho & Hw).
    { destruct Hm as [Hm|Hm].
      - exists LittleEndian. rewrite HLE by done. by rewrite Hm.
      - exists BigEndian. rewrite HBE by done. by rewrite Hm. }
    replace (bool_decide (m ≠ MagicLE) && bool_decide (m ≠ MagicBE)) with false
      by (destruct Hm as [->| ->]; done).
    unfold Magic_Write. rewrite Ho. simpl. rewrite Hw.
    assert (Hpre : ∀ w, take 4 (take 4 input ++ w) = take 4 input).
    { intros w. rewrite take_app_le by (rewrite length_take; lia).
      rewrite take_take. by rewrite Nat.min_id. }
    destruct (GlobalHeader_Read _ _) as [e|[gh r]].
    { eexists; split; [done|]. simpl. by rewrite take_take, Nat.min_id. }
    destruct (Handlers !! LinkLayer gh) as [h|].
    + destruct (run_loop_total (S (length r)) h order truncate
                  (mkR r (take 4 input ++ GlobalHeader_Write gh order) anon 0))
        as (o & Ho' & w & Hw'); [simpl; lia|].
      exists o. split; [exact Ho'|]. rewrite Hw'. simpl. by rewrite <- app_assoc.
    + eexists; split; [done|]. simpl. by rewrite take_take, Nat.min_id.
  - rewrite !bool_decide_eq_true_2 by naive_solver. simpl. eauto.
Qed.

(** With every method [Leave] and no truncation the output is the input,
    byte for byte; the run ends at the end of the input, after one packet. *)
Example run_leave_is_identity (s : Stream) :
  ∃ a, run capture_le (NewDefaultAnonymizer Leave Leave Leave Leave s) false
       = Some (RunReturned (mkR [] capture_le a 1) EOF).
Proof. eexists. vm_compute. reflexivity. Qed.

(** The big-endian magic comes out as it came in, too. *)
Example run_magic_big_endian (a : DefaultAnonymizer) :
  run [xa1; xb2; xc3; xd4] a true
  = Some (RunReturned (mkR [] [xa1; xb2; xc3; xd4] a 0) EOF).
Proof. reflexivity. Qed.

Lemma C4_magic_round_trip_witness :
  ∃ o, run [xd4; xc3; xb2; xa1] (NewDefaultAnonymizer Leave Leave Leave Leave count_stream)
         true = Some o ∧
       take 4 (rout (run_state o)) = [xd4; xc3; xb2; xa1].
Proof.
  destruct (C4_magic_round_trip [xd4; xc3; xb2; xa1]
              (NewDefaultAnonymizer Leave Leave Leave Leave count_stream) true)
    as (o & Ho & Hm); [simpl; lia|].
  exists o. split; [exact Ho | exact Hm].
Defined.

(** C8. When the packet loop reaches a record whose header declares a length
    above [MaxPacketLen] (after any number [k] of records that went through),
    [run] ends there with the size-limit error: only the 16 header bytes of
    that record have been taken from the input, and the output and the
    packet count are those of the [k] records before it. *)
Theorem C8_size_limit_before_payload (k fuel : nat) (h : Handler)
    (order : ByteOrder) (truncate : bool) (s0 s : rstate) (ph : PacketHeader)
    (r : list byte) :
  run_rounds k h order truncate s0 = Some s →
  PacketHeader_Read (rin s) order = inr (ph, r) →
  (MaxPacketLen < PLen ph)%N →
  length (rin s0) < fuel →
  run_loop fuel h order truncate s0 =
    Some (RunReturned (mkR (drop 16 (rin s)) (rout s) (ranon s) (packets s))
            (SizeLimitError (PLen ph))).
Proof.
  intros Hk Hph Hmax Hfuel.
  destruct (run_loop_rounds k fuel h order truncate s0 s Hk Hfuel) as [Hlt ->].
  destruct (fuel - k) as [|f]; [lia|]. simpl.
  unfold run_packet. rewrite Hph.
  apply PacketHeader_Read_inr in Hph as [_ ->].
  by rewrite decide_True.
Qed.

Lemma C8_size_limit_before_payload_witness :
  let a := NewDefaultAnonymizer Leave Leave Leave Leave count_stream in
  let a1 := mkAnon Leave Leave Leave Leave count_stream ∅ ∅ ∅ ∅ 2 0 0 in
  run_loop 52 EthHandler BigEndian true (mkR (record_small ++ record_big) [] a 0) =
    Some (RunReturned (mkR (replicate 5 x09) record_small a1 1)
            (SizeLimitError 0x100000)).
Proof.
  intros a a1.
  apply (C8_size_limit_before_payload 1 52 EthHandler BigEndian true
           (mkR (record_small ++ record_big) [] a 0)
           (mkR record_big record_small a1 1)
           (mkPacketHeader 3 4 0x100000 0x100000) (replicate 5 x09)).
  - vm_compute. reflexivity.
  - vm_compute. reflexivity.
  - vm_compute. reflexivity.
  - vm_compute. lia.
Defined.

(** ** Short payloads *)

(** C3. A payload shorter than the 14 bytes of an Ethernet header makes the
    Ethernet handler fail in its header read, with [io.EOF] or
    [io.ErrUnexpectedEOF] and offset 0, not with the short-packet error of
    [slurp]; with exactly 12 bytes the error is [io.EOF].  The same holds
    for the Radiotap handler and a payload shorter than the 8 bytes of its
    header. *)
Theorem C3_short_header_read_is_EOF (b : list byte) (anon : DefaultAnonymizer) :
  length b < 14 →
  ∃ e1,
    (e1 = EOF ∨ e1 = ErrUnexpectedEOF) ∧
    EthHandler_Handle b anon = Returned b anon 0 (Some e1) ∧
    (length b = 12 → e1 = EOF) ∧
    (length b < 8 →
     ∃ e2, (e2 = EOF ∨ e2 = ErrUnexpectedEOF) ∧
           Radiotap80211Handler_Handle b anon = Returned b anon 0 (Some e2)).
Proof.
  intros Hlen.
  do 14 (destruct b as [|? b];
         [eexists; split; [|split; [reflexivity|split]];
          [eauto
          |intros Hl; first [reflexivity | discriminate Hl]
          |intros Hl; first [eexists; split; [|reflexivity]; eauto
                            |simpl in Hl; lia]] |]).
  simpl in Hlen. lia.
Qed.

Lemma C3_short_header_read_is_EOF_witness :
  let b := [xff; xff; xff; xff; xff; xff; x02; x00; x00; x00; x00; x01] in
  let anon := NewDefaultAnonymizer Leave Leave Leave Leave count_stream in
  ∃ e1,
    (e1 = EOF ∨ e1 = ErrUnexpectedEOF) ∧
    EthHandler_Handle b anon = Returned b anon 0 (Some e1) ∧
    (length b = 12 → e1 = EOF) ∧
    (length b < 8 →
     ∃ e2, (e2 = EOF ∨ e2 = ErrUnexpectedEOF) ∧
           Radiotap80211Handler_Handle b anon = Returned b anon 0 (Some e2)).
Proof.
  intros b anon. apply (C3_short_header_read_is_EOF b anon).
  vm_compute. lia.
Defined.

(** An empty payload gives [io.EOF], which the caller of [run] cannot tell
    from the end of the input. *)
Lemma empty_payload_is_EOF (anon : DefaultAnonymizer) :
  EthHandler_Handle [] anon = Returned [] anon 0 (Some EOF) ∧
  Radiotap80211Handler_Handle [] anon = Returned [] anon 0 (Some EOF).
Proof. done. Qed.

(** ** Stepping through a handler *)

Lemma bind_next {A B} (m : handler A) (k : A → handler B) s x s' :
  m s = Next x s' → (m ≫= k) s = k x s'.
Proof. intros Hm. unfold mbind, handler_bind. by rewrite Hm. Qed.

Lemma bind_stop {A B} (m : handler A) (k : A → handler B) s e s' :
  m s = Stop e s' → (m ≫= k) s = Stop e s'.
Proof. intros Hm. unfold mbind, handler_bind. by rewrite Hm. Qed.

Lemma bind_crash {A B} (m : handler A) (k : A → handler B) s p :
  m s = Crash p → (m ≫= k) s = Crash p.
Proof. intros Hm. unfold mbind, handler_bind. by rewrite Hm. Qed.

Lemma slurp_next x inc s :
  st_n s + x ≤ length (st_b s) →
  slurp x inc s
  = Next () (if inc then mkH (st_b s) (st_anon s) (st_n s + x) else s).
Proof. intros. unfold slurp. by rewrite decide_False by lia. Qed.

Lemma slurp_stop x inc s :
  length (st_b s) < st_n s + x →
  slurp x inc s = Stop (ShortPacketError x (st_n s)) s.
Proof. intros. unfold slurp. by rewrite decide_True by lia. Qed.

Lemma anon_at_next F off len s x a :
  st_n s + off + len ≤ length (st_b s) →
  F (slice (st_b s) (st_n s + off) len) (st_anon s) = Some (x, a) →
  anon_at F off len s = Next () (mkH (splice (st_b s) (st_n s + off) x) a (st_n s)).
Proof. intros Hlen HF. unfold anon_at. rewrite decide_True by lia. by rewrite HF. Qed.

Lemma anon_at_next0 F len s x a :
  st_n s + len ≤ length (st_b s) →
  F (slice (st_b s) (st_n s) len) (st_anon s) = Some (x, a) →
  anon_at F 0 len s = Next () (mkH (splice (st_b s) (st_n s) x) a (st_n s)).
Proof.
  intros Hlen HF. unfold anon_at. rewrite Nat.add_0_r.
  rewrite decide_True by lia. by rewrite HF.
Qed.

Lemma radiotap_handle_read s rh :
  RadiotapHeader_Read (st_b s) = inr rh →
  radiotap_handle s = radiotap_frame rh s.
Proof.
  intros Hrh. unfold radiotap_handle. rewrite (bind_next hget _ s s s) by done.
  by rewrite Hrh.
Qed.

Lemma read_uint8_lookup (b : list byte) (i : nat) (x : byte) :
  b !! i = Some x → read_uint8 (drop i b) = mret (x, drop (S i) b).
Proof.
  intros Hx. unfold read_uint8.
  pose proof (lookup_lt_Some _ _ _ Hx) as Hlt.
  rewrite ReadFull_ok by (rewrite length_drop; lia).
  rewrite drop_drop, Nat.add_1_r.
  by rewrite (drop_S _ _ _ Hx).
Qed.

Lemma mac_field_next s :
  st_n s + 6 ≤ length (st_b s) →
  ∃ x a,
    MAC (slice (st_b s) (st_n s) 6) (st_anon s) = Some (x, a) ∧
    length x = 6 ∧ nmac a = incr64 (nmac (st_anon s)) ∧
    mac_field s = Next () (mkH (splice (st_b s) (st_n s) x) a (st_n s + 6)).
Proof.
  intros Hlen.
  destruct (MAC_spec (slice (st_b s) (st_n s) 6) (st_anon s))
    as (oui & s1 & m1 & nic & s2 & m2 & _ & _ & Ho & Hn & HM).
  { by apply length_slice. }
  eexists _, _. split; [exact HM|]. split; [rewrite length_app; lia|].
  split; [done|]. unfold mac_field.
  rewrite (bind_next _ _ s () s) by (by rewrite slurp_next).
  erewrite bind_next by (apply anon_at_next0; [lia | exact HM]).
  done.
Qed.

Lemma sure_ret : sure (mret ()) 0 0.
Proof. intros s _. exists s. repeat split; simpl; lia. Qed.

Lemma sure_slurp x : sure (slurp x true) x 0.
Proof. intros s Hlen. eexists. split; [by apply slurp_next|]. done. Qed.

Lemma sure_mac_field : sure mac_field 6 1.
Proof.
  intros s Hlen. destruct (mac_field_next s Hlen) as (x & a & _ & Hx & Ha & ->).
  eexists. split; [done|]. simpl. repeat split; [|done].
  apply length_splice. lia.
Qed.

Lemma sure_bind m1 m2 k1 j1 k2 j2 :
  sure m1 k1 j1 → sure m2 k2 j2 → sure (m1 ;; m2) (k1 + k2) (j1 + j2).
Proof.
  intros H1 H2 s Hlen.
  destruct (H1 s) as (s1 & Hs1 & Hn1 & Hl1 & Hc1); [lia|].
  destruct (H2 s1) as (s2 & Hs2 & Hn2 & Hl2 & Hc2); [lia|].
  exists s2. split; [by erewrite bind_next|].
  repeat split; [lia | congruence |].
  rewrite Hc2, Hc1, Nat.add_comm. by rewrite Nat.iter_add.
Qed.

Lemma sure_if (c : bool) m k j :
  sure m k j →
  sure (if c then m else mret ()) (if c then k else 0) (if c then j else 0).
Proof. destruct c; [done|]. intros _. apply sure_ret. Qed.

Lemma sure_if_slurp (c : bool) x :
  sure (if c then slurp x true else mret ()) (if c then x else 0) 0.
Proof. destruct c; [apply sure_slurp | apply sure_ret]. Qed.

Lemma sure_repeat n m k j : sure m k j → sure (repeat_h n m) (n * k) (n * j).
Proof.
  intros Hm. induction n as [|n IH]; simpl; [apply sure_ret|].
  by apply sure_bind.
Qed.

Lemma radiotap_fields_sure typ styp tods fromds order nm :
  count_macs typ styp = mret nm →
  sure (radiotap_fields typ styp tods fromds order)
       (fields_len typ styp tods fromds order nm) (fields_macs typ tods fromds nm).
Proof.
  intros Hnm. unfold radiotap_fields, fields_len, fields_macs.
  apply sure_bind; [apply sure_slurp|].
  rewrite Hnm.
  change (mret nm ≫= ?f) with (f nm). cbv beta.
  apply sure_bind; [by apply sure_repeat, sure_mac_field|].
  apply sure_bind.
  { destruct (decide (typ ≠ typeControl)); [apply sure_slurp | apply sure_ret]. }
  apply sure_bind; [apply sure_if, sure_mac_field|].
  apply sure_bind; [apply sure_if_slurp|].
  apply sure_bind; [apply sure_if_slurp|].
  apply sure_if_slurp.
Qed.

(** From the payload to the fields: when the packet holds the frame control
    byte [fc] at the declared header length and the flags byte after it. *)
Lemma radiotap_handle_fields b anon rh fc flags :
  RadiotapHeader_Read b = inr rh →
  b !! N.to_nat (Len rh) = Some fc →
  b !! S (N.to_nat (Len rh)) = Some flags →
  radiotap_handle (mkH b anon 0)
  = radiotap_fields (parseFC fc).1.2 (parseFC fc).2
      (parseFlags flags).1.1 (parseFlags flags).1.2 (parseFlags flags).2
      (mkH b anon (N.to_nat (Len rh) + 1 + 1)).
Proof.
  intros Hrh Hfc Hflags. rewrite (radiotap_handle_read _ rh) by done.
  unfold radiotap_frame.
  erewrite bind_next by reflexivity.
  erewrite bind_next; cycle 1.
  { unfold buffer_from_n. cbn [st_n st_b set_n].
    rewrite decide_True; [done|]. apply lookup_lt_Some in Hfc. lia. }
  cbn [st_n st_b set_n]. rewrite (read_uint8_lookup _ _ _ Hfc).
  erewrite bind_next by reflexivity. cbv beta iota.
  erewrite bind_next by reflexivity.
  destruct (parseFC fc) as [[ver typ] styp].
  rewrite (read_uint8_lookup _ _ _ Hflags).
  erewrite bind_next by reflexivity. cbv beta iota.
  erewrite bind_next by reflexivity.
  by destruct (parseFlags flags) as [[tods fromds] order].
Qed.

(** A Radiotap header that declares more bytes than the payload holds makes
    the handler panic on the slice [b[n:]]. *)
Lemma radiotap_length_past_end_panics (b : list byte) (anon : DefaultAnonymizer)
    (rh : RadiotapHeader) :
  RadiotapHeader_Read b = inr rh →
  length b < N.to_nat (Len rh) →
  Radiotap80211Handler_Handle b anon = Panicked BoundsPanic.
Proof.
  intros Hrh Hlen. unfold Radiotap80211Handler_Handle, run_handler.
  rewrite (radiotap_handle_read _ rh) by done. unfold radiotap_frame.
  erewrite bind_next by reflexivity.
  erewrite bind_crash; [done|].
  unfold buffer_from_n. simpl. by rewrite decide_False by lia.
Qed.


(** ** The Ethernet header *)

Lemma EthHeader_Read_untagged b :
  14 ≤ length b → Uint BigEndian (slice b 12 2) ≠ vlanEtherType →
  EthHeader_Read b
  = inr (mkEthHeader (fill 6 (slice b 0 6)) (fill 6 (slice b 6 6))
           (Uint BigEndian (slice b 12 2)) false 0).
Proof.
  intros Hlen Hne. unfold EthHeader_Read, slice in *.
  rewrite ReadFull_ok by lia.
  rewrite ReadFull_ok by (rewrite length_drop; lia).
  rewrite ReadFull_ok by (rewrite !length_drop; lia).
  rewrite !drop_drop. simpl. by rewrite decide_False.
Qed.

Lemma EthHeader_Read_tagged b :
  18 ≤ length b → Uint BigEndian (slice b 12 2) = vlanEtherType →
  EthHeader_Read b
  = inr (mkEthHeader (fill 6 (slice b 0 6)) (fill 6 (slice b 6 6))
           (Uint BigEndian (slice b 16 2)) true (Uint BigEndian (slice b 14 2))).
Proof.
  intros Hlen Heq. unfold EthHeader_Read, slice in *.
  rewrite ReadFull_ok by lia.
  rewrite ReadFull_ok by (rewrite length_drop; lia).
  rewrite ReadFull_ok by (rewrite !length_drop; lia).
  rewrite !drop_drop. simpl. rewrite decide_True by done.
  rewrite ReadFull_ok by (rewrite !length_drop; lia).
  rewrite ReadFull_ok by (rewrite !length_drop; lia).
  by rewrite !drop_drop.
Qed.

Lemma anon_array_next (x : vec byte 6) s :
  ∃ x' a,
    MAC (vec_to_list x) (st_anon s) = Some (x', a) ∧ length x' = 6 ∧
    anon_array x s = Next (fill 6 x') (mkH (st_b s) a (st_n s)).
Proof.
  destruct (MAC_spec (vec_to_list x) (st_anon s))
    as (oui & s1 & m1 & nic & s2 & m2 & _ & _ & Ho & Hn & HM).
  { apply length_vec_to_list. }
  eexists _, _. split; [exact HM|]. split; [rewrite length_app; lia|].
  unfold anon_array. by rewrite HM.
Qed.

(** The header part of the handler, once the header could be read: both
    addresses go through [MAC], and the packet gets the bytes of
    [EthHeader.Write] over its start. *)
Lemma eth_header_next b anon eh :
  EthHeader_Read b = inr eh →
  ∃ dst a1 src a2,
    MAC (vec_to_list (DestMAC eh)) anon = Some (dst, a1) ∧
    MAC (vec_to_list (SrcMAC eh)) a1 = Some (src, a2) ∧
    length dst = 6 ∧ length src = 6 ∧
    let eh' := mkEthHeader (fill 6 dst) (fill 6 src) (EtherType eh) (VLAN eh) (TCI eh) in
    eth_header (mkH b anon 0)
    = Next eh' (mkH (copy b (EthHeader_Write eh').1) a2 (EthHeader_Write eh').2).
Proof.
  intros Hrd.
  destruct (anon_array_next (DestMAC eh) (mkH b anon 0)) as (dst & a1 & Hd & Hld & Hd').
  destruct (anon_array_next (SrcMAC eh) (mkH b a1 0)) as (src & a2 & Hs & Hls & Hs').
  exists dst, a1, src, a2. repeat split; try done.
  unfold eth_header. erewrite bind_next by reflexivity. cbn [st_b]. rewrite Hrd.
  erewrite bind_next by exact Hd'.
  erewrite bind_next by exact Hs'.
  by destruct (EthHeader_Write _) as [w n].
Qed.

Lemma EthHeader_Read_inr b eh :
  EthHeader_Read b = inr eh →
  if VLAN eh then 18 ≤ length b else 14 ≤ length b.
Proof.
  unfold EthHeader_Read. intros Hrd.
  repeat match type of Hrd with
  | context [ReadFull ?k ?r] =>
      let E := fresh "E" in
      destruct (ReadFull k r) as [|[? ?]] eqn:E; [done|];
      apply ReadFull_inr in E as (? & -> & ->)
  | context [decide ?P] => destruct (decide P)
  end; injection Hrd as <-; simpl; rewrite ?length_drop in *; lia.
Qed.

Lemma EthHeader_Write_length eh :
  length (EthHeader_Write eh).1 = (if VLAN eh then 16 else 14) ∧
  (EthHeader_Write eh).2 = (if VLAN eh then 18 else 14).
Proof.
  unfold EthHeader_Write. destruct (VLAN eh); cbn [fst snd];
    rewrite !length_app, !length_vec_to_list, !length_PutUint; done.
Qed.

(** What the header part leaves: the offset is 14 or 18, within the packet;
    the packet keeps its length, and its bytes from that offset on. *)
Lemma eth_header_inv b anon eh s :
  eth_header (mkH b anon 0) = Next eh s →
  (st_n s = 14 ∨ st_n s = 18) ∧ st_n s ≤ length b ∧
  length (st_b s) = length b ∧
  ∀ off len, st_n s ≤ off → slice (st_b s) off len = slice b off len.
Proof.
  intros Hh. destruct (EthHeader_Read b) as [e|eh0] eqn:Hrd.
  { unfold eth_header in Hh. erewrite bind_next in Hh by reflexivity.
    cbn [st_b] in Hh. by rewrite Hrd in Hh. }
  destruct (eth_header_next b anon eh0 Hrd)
    as (dst & a1 & src & a2 & _ & _ & _ & _ & Heq).
  cbv zeta in Heq. rewrite Heq in Hh. injection Hh as <- <-.
  set (eh' := mkEthHeader _ _ _ _ _).
  destruct (EthHeader_Write_length eh') as [Hw Hn].
  apply EthHeader_Read_inr in Hrd. cbn [st_n st_b]. rewrite Hn.
  change (VLAN eh') with (VLAN eh0) in *.
  assert (Hwb : length (EthHeader_Write eh').1 ≤ length b)
    by (destruct (VLAN eh0); lia).
  rewrite copy_short by done.
  repeat split.
  - destruct (VLAN eh0); auto.
  - destruct (VLAN eh0); lia.
  - rewrite length_app, length_drop. lia.
  - intros off len Hoff. apply slice_app_after; [|done].
    destruct (VLAN eh0); lia.
Qed.

(** C10. For a frame whose bytes 12 and 13 are [0x81 0x00]: the bytes
    [EthHeader.Write] produces are the two (anonymized) addresses, the TCI
    bytes (those of offsets 14-16 of the frame) and the EtherType bytes
    (those of offsets 16-18), 16 bytes in all and without the [0x8100]
    tag, while the count it returns is 18.  The packet after the write-back
    is those 16 bytes followed by the original bytes from offset 16 on: the
    TCI is at offsets 12-14, the EtherType at offsets 14-16, and bytes 16-18
    are the original ones; and the rest of [Handle] is the EtherType switch
    started at offset 18. *)
Theorem C10_vlan_header_write_back (b : list byte) (anon : DefaultAnonymizer) :
  18 ≤ length b →
  slice b 12 2 = [x81; x00] →
  ∃ dst a1 src a2 eh,
    MAC (slice b 0 6) anon = Some (dst, a1) ∧
    MAC (slice b 6 6) a1 = Some (src, a2) ∧
    let w := dst ++ src ++ slice b 14 2 ++ slice b 16 2 in
    let s := mkH (w ++ drop 16 b) a2 18 in
    EthHeader_Write eh = (w, 18) ∧
    length w = 16 ∧
    EtherType eh = Uint BigEndian (slice b 16 2) ∧
    eth_header (mkH b anon 0) = Next eh s ∧
    slice (st_b s) 12 2 = slice b 14 2 ∧
    slice (st_b s) 14 2 = slice b 16 2 ∧
    slice (st_b s) 16 2 = slice b 16 2 ∧
    EthHandler_Handle b anon = finish (eth_switch (EtherType eh) s).
Proof.
  intros Hlen Htag.
  assert (Hrd := EthHeader_Read_tagged b Hlen).
  rewrite Htag in Hrd. specialize (Hrd eq_refl).
  destruct (eth_header_next b anon _ Hrd)
    as (dst & a1 & src & a2 & Hd & Hs & Hld & Hls & Heq).
  cbn [DestMAC SrcMAC EtherType VLAN TCI] in Hd, Hs, Heq.
  rewrite vec_to_list_fill in Hd by (by apply length_slice; lia).
  rewrite vec_to_list_fill in Hs by (by apply length_slice; lia).
  set (eh := mkEthHeader (fill 6 dst) (fill 6 src) (Uint BigEndian (slice b 16 2))
               true (Uint BigEndian (slice b 14 2))) in *.
  assert (Hwr : EthHeader_Write eh = (dst ++ src ++ slice b 14 2 ++ slice b 16 2, 18)).
  { unfold EthHeader_Write, eh.
    cbn [DestMAC SrcMAC EtherType VLAN TCI].
    rewrite !vec_to_list_fill by done.
    pose proof (PutUint_Uint BigEndian (slice b 14 2)) as H14.
    pose proof (PutUint_Uint BigEndian (slice b 16 2)) as H16.
    rewrite length_slice in H14, H16 by lia. rewrite H14, H16.
    by rewrite <- !app_assoc. }
  assert (Hlw : length (dst ++ src ++ slice b 14 2 ++ slice b 16 2) = 16).
  { rewrite !length_app, !length_slice by lia. lia. }
  exists dst, a1, src, a2, eh. split; [done|]. split; [done|].
  cbv zeta. split; [done|]. split; [done|]. split; [done|].
  rewrite Hwr in Heq. cbn [fst snd] in Heq.
  rewrite copy_short in Heq by lia. rewrite Hlw in Heq.
  assert (Hl14 : length (slice b 14 2) = 2) by (apply length_slice; lia).
  assert (Hl16 : length (slice b 16 2) = 2) by (apply length_slice; lia).
  split; [done|]. split; [|split; [|split]].
  - cbn [st_b]. unfold slice at 1. rewrite <- !app_assoc.
    rewrite (app_assoc dst src).
    rewrite drop_app_length' by (rewrite length_app; lia).
    by rewrite take_app_length' by done.
  - cbn [st_b]. unfold slice at 1. rewrite <- !app_assoc.
    rewrite (app_assoc src), (app_assoc dst).
    rewrite drop_app_length' by (rewrite !length_app; lia).
    by rewrite take_app_length' by done.
  - cbn [st_b].
    pose proof (slice_app_after (dst ++ src ++ slice b 14 2 ++ slice b 16 2) b 16 2)
      as Hsl.
    rewrite Hlw in Hsl. apply Hsl; lia.
  - unfold EthHandler_Handle, run_handler. by erewrite bind_next by exact Heq.
Qed.

Lemma C10_vlan_header_write_back_witness :
  let anon := NewDefaultAnonymizer Encrypt Encrypt Encrypt Encrypt count_stream in
  ∃ dst a1 src a2 eh,
    MAC (slice frame_vlan 0 6) anon = Some (dst, a1) ∧
    MAC (slice frame_vlan 6 6) a1 = Some (src, a2) ∧
    let w := dst ++ src ++ [xaa; xbb] ++ [x88; xcc] in
    let s := mkH (w ++ [x88; xcc; x01; x02]) a2 18 in
    EthHeader_Write eh = (w, 18) ∧
    length w = 16 ∧
    EtherType eh = 0x88cc%N ∧
    eth_header (mkH frame_vlan anon 0) = Next eh s ∧
    slice (st_b s) 12 2 = [xaa; xbb] ∧
    slice (st_b s) 14 2 = [x88; xcc] ∧
    slice (st_b s) 16 2 = [x88; xcc] ∧
    EthHandler_Handle frame_vlan anon = finish (eth_switch (EtherType eh) s).
Proof.
  intros anon.
  apply (C10_vlan_header_write_back frame_vlan anon).
  - vm_compute. lia.
  - reflexivity.
Defined.

(** The same frame, run: the packet that comes back has the TCI at bytes
    12-14 and the EtherType twice, at bytes 14-16 and 16-18; the boundary
    is 18. *)
Example vlan_frame_handled (s : Stream) :
  ∃ a, EthHandler_Handle frame_vlan (NewDefaultAnonymizer Leave Leave Leave Leave s)
       = Returned ([x00; x11; x22; x33; x44; x55] ++ [x66; x77; x88; x99; xaa; xbb] ++
                   [xaa; xbb] ++ [x88; xcc] ++ [x88; xcc] ++ [x01; x02]) a 18 None.
Proof. eexists. vm_compute. reflexivity. Qed.

(** ** ARP *)

(** What [isAllZeroes] decides, on the bytes. *)
Lemma isAllZeroes_decide (b : list byte) :
  isAllZeroes b = bool_decide (b = replicate (length b) x00).
Proof.
  induction b as [|x b IH]; [done|]. cbn [isAllZeroes length replicate].
  destruct (decide (x = x00)) as [->|Hx].
  - rewrite IH. apply bool_decide_ext.
    split; [by intros <- | by intros [= <-]].
  - symmetry. apply bool_decide_eq_false_2. by intros [= ? _].
Qed.

Lemma arp_pair_next s :
  st_n s + 10 ≤ length (st_b s) →
  ∃ mac' a1 ip' a2,
    arp_mac_result (slice (st_b s) (st_n s) 6) (st_anon s) mac' a1 ∧
    IPv4 (slice (st_b s) (st_n s + 6) 4) a1 = Some (ip', a2) ∧
    length mac' = 6 ∧ length ip' = 4 ∧
    arp_pair s
    = Next () (mkH (splice (splice (st_b s) (st_n s) mac') (st_n s + 6) ip') a2
                 (st_n s + 6 + 4)).
Proof.
  intros Hlen. unfold arp_pair.
  rewrite (bind_next _ _ s () s) by (by rewrite slurp_next by lia).
  rewrite (bind_next _ _ s s s) by done.
  set (mac := slice (st_b s) (st_n s) 6).
  assert (Hmid : ∃ mac' a1,
            (if isAllZeroes mac then mac' = mac ∧ a1 = st_anon s
             else MAC mac (st_anon s) = Some (mac', a1)) ∧
            length mac' = 6 ∧
            (if isAllZeroes mac then mret () else anon_at MAC 0 6) s
            = Next () (mkH (splice (st_b s) (st_n s) mac') a1 (st_n s))).
  { destruct (isAllZeroes mac).
    - exists mac, (st_anon s). split; [done|]. split.
      + apply length_slice. lia.
      + unfold mac. rewrite splice_slice_id by lia. by destruct s.
    - destruct (MAC_spec mac (st_anon s))
        as (oui & s1 & m1 & nic & s2 & m2 & _ & _ & Ho & Hn & HM).
      { apply length_slice. lia. }
      eexists _, _. split; [exact HM|]. split; [rewrite length_app; lia|].
      apply anon_at_next0; [lia | exact HM]. }
  destruct Hmid as (mac' & a1 & Hres & Hlm & Hstep).
  assert (Hbytes : arp_mac_result mac (st_anon s) mac' a1).
  { assert (Hz : isAllZeroes mac = bool_decide (mac = replicate 6 x00)).
    { rewrite isAllZeroes_decide. unfold mac. by rewrite length_slice by lia. }
    rewrite Hz in Hres. unfold arp_mac_result. by case_bool_decide. }
  clear Hres.
  set (b1 := splice (st_b s) (st_n s) mac') in *.
  assert (Hlb1 : length b1 = length (st_b s)) by (apply length_splice; lia).
  assert (Hip : slice b1 (st_n s + 6) 4 = slice (st_b s) (st_n s + 6) 4).
  { apply slice_splice_after; lia. }
  destruct (IPv4_spec (slice b1 (st_n s + 6) 4) a1) as (ip' & s' & m' & _ & Hli & HI).
  { apply length_slice. lia. }
  exists mac', a1, ip'. eexists. split; [exact Hbytes|].
  split; [rewrite <- Hip; exact HI|]. split; [done|]. split; [done|].
  erewrite bind_next by exact Hstep.
  erewrite bind_next by reflexivity.
  erewrite bind_next by (apply slurp_next; cbn [st_n st_b]; lia).
  erewrite bind_next by (apply anon_at_next0; cbn [st_n st_b st_anon]; [lia | exact HI]).
  done.
Qed.

(** C9. An ARP packet long enough for its 28 bytes, [h] being the offset
    the header part leaves (14, or 18 with a VLAN tag): [Handle] returns
    [h + 28] without error.  The 8 bytes after the header are not changed.
    Each of the two MAC fields (offsets [h+8] and [h+18]) that is all zero
    comes back unchanged and the anonymizer is not called for it, whatever
    the methods; each one that is not all zero is what [anon.MAC] makes of
    it.  Each of the two IPv4 fields (offsets [h+14] and [h+24]) is what
    [anon.IPv4] makes of it.  The calls are made in packet order. *)
Theorem C9_arp_fields (b : list byte) (anon : DefaultAnonymizer)
    (eh : EthHeader) (s : hstate) :
  eth_header (mkH b anon 0) = Next eh s →
  EtherType eh = arpEtherType →
  st_n s + 28 ≤ length b →
  let h := st_n s in
  ∃ b' a1 a2 a3 a',
    EthHandler_Handle b anon = Returned b' a' (h + 28) None ∧
    length b' = length b ∧
    slice b' h 8 = slice b h 8 ∧
    arp_mac_result (slice b (h + 8) 6) (st_anon s) (slice b' (h + 8) 6) a1 ∧
    IPv4 (slice b (h + 14) 4) a1 = Some (slice b' (h + 14) 4, a2) ∧
    arp_mac_result (slice b (h + 18) 6) a2 (slice b' (h + 18) 6) a3 ∧
    IPv4 (slice b (h + 24) 4) a3 = Some (slice b' (h + 24) 4, a').
Proof.
  intros Hh Het Hlen h.
  destruct (eth_header_inv b anon eh s Hh) as (_ & _ & Hlb & Hsl).
  fold h in Hsl, Hlen.
  unfold EthHandler_Handle, run_handler.
  erewrite bind_next by exact Hh. rewrite Het.
  unfold eth_switch. rewrite decide_True by done.
  erewrite bind_next by (apply slurp_next; lia). fold h.
  cbn [repeat_h].
  destruct (arp_pair_next (mkH (st_b s) (st_anon s) (h + 8)))
    as (mac1 & a1 & ip1 & a2 & Hm1 & Hi1 & Hlm1 & Hli1 & Hs1);
    [cbn [st_b st_n]; lia|].
  cbn [st_b st_n st_anon] in Hm1, Hi1, Hs1.
  erewrite bind_next by exact Hs1.
  replace (h + 8 + 6) with (h + 14) in * by lia.
  replace (h + 14 + 4) with (h + 18) in * by lia.
  set (b1 := splice (st_b s) (h + 8) mac1) in *.
  set (b2 := splice b1 (h + 14) ip1) in *.
  assert (Hlb1 : length b1 = length b) by (unfold b1; rewrite length_splice; lia).
  assert (Hlb2 : length b2 = length b) by (unfold b2; rewrite length_splice; lia).
  destruct (arp_pair_next (mkH b2 a2 (h + 18)))
    as (mac2 & a3 & ip2 & a4 & Hm2 & Hi2 & Hlm2 & Hli2 & Hs2);
    [cbn [st_b st_n]; lia|].
  cbn [st_b st_n st_anon] in Hm2, Hi2, Hs2.
  erewrite bind_next by exact Hs2.
  replace (h + 18 + 6) with (h + 24) in * by lia.
  replace (h + 24 + 4) with (h + 28) in * by lia.
  set (b3 := splice b2 (h + 18) mac2) in *.
  set (b4 := splice b3 (h + 24) ip2) in *.
  assert (Hlb3 : length b3 = length b) by (unfold b3; rewrite length_splice; lia).
  assert (Hlb4 : length b4 = length b) by (unfold b4; rewrite length_splice; lia).
  exists b4, a1, a2, a3, a4. split; [done|]. split; [done|].
  (* the fields of the packet that comes back *)
  assert (E0 : slice b4 h 8 = slice b h 8).
  { unfold b4. rewrite slice_splice_before by lia.
    unfold b3. rewrite slice_splice_before by lia.
    unfold b2. rewrite slice_splice_before by lia.
    unfold b1. rewrite slice_splice_before by lia. apply Hsl. lia. }
  assert (E1 : slice b4 (h + 8) 6 = mac1).
  { unfold b4. rewrite slice_splice_before by lia.
    unfold b3. rewrite slice_splice_before by lia.
    unfold b2. rewrite slice_splice_before by lia.
    unfold b1. rewrite <- Hlm1. apply slice_splice_same. lia. }
  assert (E2 : slice b4 (h + 14) 4 = ip1).
  { unfold b4. rewrite slice_splice_before by lia.
    unfold b3. rewrite slice_splice_before by lia.
    unfold b2. rewrite <- Hli1. apply slice_splice_same. lia. }
  assert (E3 : slice b4 (h + 18) 6 = mac2).
  { unfold b4. rewrite slice_splice_before by lia.
    unfold b3. rewrite <- Hlm2. apply slice_splice_same. lia. }
  assert (E4 : slice b4 (h + 24) 4 = ip2).
  { unfold b4. rewrite <- Hli2. apply slice_splice_same. lia. }
  (* the fields the calls were made on *)
  assert (I2 : slice b2 (h + 18) 6 = slice b (h + 18) 6).
  { unfold b2. rewrite slice_splice_after by lia.
    unfold b1. rewrite slice_splice_after by lia. apply Hsl. lia. }
  assert (I3 : slice b2 (h + 24) 4 = slice b (h + 24) 4).
  { unfold b2. rewrite slice_splice_after by lia.
    unfold b1. rewrite slice_splice_after by lia. apply Hsl. lia. }
  rewrite E0, E1, E2, E3, E4.
  rewrite !Hsl in Hm1, Hi1 by lia. rewrite I2 in Hm2. rewrite I3 in Hi2.
  done.
Qed.

Lemma C9_arp_fields_witness :
  let anon := NewDefaultAnonymizer Encrypt Encrypt Encrypt Encrypt count_stream in
  let dst := xor_bytes (slice frame_arp 0 6) (segment count_stream 6) in
  let src := xor_bytes (slice frame_arp 6 6) (segment (mkStream (keystream count_stream) 6) 6) in
  let s := mkH (dst ++ src ++ drop 12 frame_arp)
             (mkAnon Encrypt Encrypt Encrypt Encrypt
                (mkStream (keystream count_stream) 12) ∅ ∅ ∅ ∅ 2 0 0) 14 in
  ∃ b' a1 a2 a3 a',
    EthHandler_Handle frame_arp anon = Returned b' a' (14 + 28) None ∧
    length b' = length frame_arp ∧
    slice b' 14 8 = slice frame_arp 14 8 ∧
    arp_mac_result (slice frame_arp (14 + 8) 6) (st_anon s) (slice b' (14 + 8) 6) a1 ∧
    IPv4 (slice frame_arp (14 + 14) 4) a1 = Some (slice b' (14 + 14) 4, a2) ∧
    arp_mac_result (slice frame_arp (14 + 18) 6) a2 (slice b' (14 + 18) 6) a3 ∧
    IPv4 (slice frame_arp (14 + 24) 4) a3 = Some (slice b' (14 + 24) 4, a').
Proof.
  intros anon dst src s.
  apply (C9_arp_fields frame_arp anon
           (mkEthHeader (fill 6 dst) (fill 6 src) arpEtherType false 0) s).
  - vm_compute. reflexivity.
  - reflexivity.
  - vm_compute. lia.
Defined.

(** The same packet, run: the all-zero target address (bytes 32-38) comes
    back as it was, while the sender address (bytes 22-28) is encrypted. *)
Example arp_frame_handled :
  ∃ b' a',
    EthHandler_Handle frame_arp
      (NewDefaultAnonymizer Encrypt Encrypt Encrypt Encrypt count_stream)
    = Returned b' a' 42 None ∧
    slice b' 32 6 = [x00; x00; x00; x00; x00; x00] ∧
    slice b' 22 6 = [x0e; x0d; x0e; x0f; x10; x10] ∧
    nmac a' = 3%N ∧ nipv4 a' = 2%N.
Proof. eexists _, _. split; [vm_compute; reflexivity|]. by vm_compute. Qed.

(** ** The IPv4 header length *)

(** What the handler does with an IPv4 packet long enough for the 20 bytes
    of the fixed header, [h] being the offset the header part leaves: the
    number of option bytes comes from the low nibble of byte 0 of the
    packet as rewritten by the header part; the byte at offset [h], where
    the IP header starts, plays no role. *)
Lemma eth_ipv4_boundary (b : list byte) (anon : DefaultAnonymizer)
    (eh : EthHeader) (s : hstate) (b0 : byte) :
  eth_header (mkH b anon 0) = Next eh s →
  EtherType eh = ipv4EtherType →
  st_b s !! 0 = Some b0 →
  st_n s + 20 ≤ length b →
  let h := st_n s in
  let ihl := N.to_nat (N.land (byte_val b0) 0xf) in
  handle_result (EthHandler_Handle b anon)
  = Some (if decide (5 < ihl)
          then if decide (h + 20 + (ihl - 5) * 4 ≤ length b)
               then (h + 20 + (ihl - 5) * 4, None)
               else (h + 20, Some (ShortPacketError ((ihl - 5) * 4) (h + 20)))
          else (h + 20, None)).
Proof.
  intros Hh Het Hb0 Hlen h ihl. subst h.
  destruct (eth_header_inv b anon eh s Hh) as (Hn & _ & Hlb & _).
  unfold EthHandler_Handle, run_handler.
  erewrite bind_next by exact Hh. rewrite Het.
  unfold eth_switch. rewrite decide_False by done. rewrite decide_True by done.
  rewrite (bind_next _ _ s () s) by (by rewrite slurp_next by lia).
  destruct (IPv4_spec (slice (st_b s) (st_n s + 12) 4) (st_anon s))
    as (x1 & s1 & m1 & _ & Hl1 & HI1); [apply length_slice; lia|].
  erewrite bind_next by (apply anon_at_next; [lia | exact HI1]).
  set (b1 := splice (st_b s) (st_n s + 12) x1).
  set (a1 := mkAnon _ _ _ _ _ _ _ _ _ _ _ _) in *.
  assert (Hlb1 : length b1 = length b) by (unfold b1; rewrite length_splice; lia).
  destruct (IPv4_spec (slice b1 (st_n s + 16) 4) a1)
    as (x2 & s2 & m2 & _ & Hl2 & HI2); [apply length_slice; lia|].
  erewrite bind_next by (apply anon_at_next; cbn [st_n st_b st_anon]; [lia | exact HI2]).
  cbn [st_n st_b st_anon]. set (b2 := splice b1 (st_n s + 16) x2).
  assert (Hlb2 : length b2 = length b) by (unfold b2; rewrite length_splice; lia).
  erewrite bind_next by reflexivity.
  assert (Hb2 : b2 !! 0 = Some b0).
  { unfold b2. rewrite lookup_splice_before by lia.
    unfold b1. by rewrite lookup_splice_before by lia. }
  erewrite bind_next by (unfold byte_at; cbn [st_b]; by rewrite Hb2).
  fold ihl. destruct (decide (5 < ihl)) as [Hopt|Hopt]; [|done].
  destruct (decide (st_n s + 20 + (ihl - 5) * 4 ≤ length b)) as [Hfit|Hfit].
  - by rewrite slurp_next by (cbn [st_n st_b]; lia).
  - by rewrite slurp_stop by (cbn [st_n st_b]; lia).
Qed.

(** C2. With every method [Leave] (so that byte 0 of the packet stays as
    it is), the header-length nibble is taken from byte 0 of the packet, the
    first byte of the destination address, and not from the first byte of the
    IP header: a frame whose IP header says 6 words gets boundary 34, and a
    34-byte frame whose IP header says 5 words fails for want of 40 more
    bytes. *)
Theorem C2_ihl_read_from_packet_byte_0 (s : Stream) :
  let anon := NewDefaultAnonymizer Leave Leave Leave Leave s in
  frame_ihl6 !! 14 = Some x46 ∧ length frame_ihl6 = 38 ∧
  handle_result (EthHandler_Handle frame_ihl6 anon) = Some (34, None) ∧
  frame_ihl5 !! 14 = Some x45 ∧ length frame_ihl5 = 34 ∧
  handle_result (EthHandler_Handle frame_ihl5 anon)
    = Some (34, Some (ShortPacketError 40 34)).
Proof. intros anon. repeat split; vm_compute; reflexivity. Qed.

(** ** The Radiotap + 802.11 handler *)

(** C5. A Data frame with toDS and fromDS set, a QoS subtype and the order
    flag clear, in a payload that holds the Radiotap header and 32 bytes
    after the declared header length: [Handle] returns the declared header
    length plus 32, without error, after anonymizing four address fields. *)
Theorem C5_qos_data_four_address_boundary (b : list byte) (anon : DefaultAnonymizer)
    (rh : RadiotapHeader) (fc flags : byte) :
  RadiotapHeader_Read b = inr rh →
  b !! N.to_nat (Len rh) = Some fc →
  b !! S (N.to_nat (Len rh)) = Some flags →
  (parseFC fc).1.2 = typeData →
  N.land (parseFC fc).2 qosMask ≠ 0%N →
  parseFlags flags = (true, true, false) →
  N.to_nat (Len rh) + 32 ≤ length b →
  ∃ b' a',
    Radiotap80211Handler_Handle b anon
    = Returned b' a' (N.to_nat (Len rh) + 32) None ∧
    length b' = length b ∧
    nmac a' = Nat.iter 4 incr64 (nmac anon).
Proof.
  intros Hrh Hfc Hflags Htyp Hqos Hfl Hlen.
  unfold Radiotap80211Handler_Handle, run_handler.
  rewrite (radiotap_handle_fields _ _ rh fc flags) by done.
  rewrite Htyp, Hfl. cbn [fst snd].
  destruct (radiotap_fields_sure typeData (parseFC fc).2 true true false 3 eq_refl
              (mkH b anon (N.to_nat (Len rh) + 1 + 1)))
    as (s' & -> & Hn & Hl & Hc).
  { unfold fields_len. rewrite (bool_decide_eq_true_2 _ Hqos). simpl. lia. }
  exists (st_b s'), (st_anon s'). split; [|done].
  simpl. f_equal. rewrite Hn. unfold fields_len.
  rewrite (bool_decide_eq_true_2 _ Hqos). simpl. lia.
Qed.

Lemma C5_qos_data_four_address_boundary_witness :
  ∃ b' a',
    Radiotap80211Handler_Handle (radiotap_payload x88 x03 30)
      (NewDefaultAnonymizer Pseudonym Pseudonym Pseudonym Pseudonym count_stream)
    = Returned b' a' (8 + 32) None ∧
    length b' = 40 ∧ nmac a' = 4%N.
Proof.
  apply (C5_qos_data_four_address_boundary (radiotap_payload x88 x03 30)
           (NewDefaultAnonymizer Pseudonym Pseudonym Pseudonym Pseudonym count_stream)
           (mkRadiotapHeader 0 0 8 0) x88 x03).
  - reflexivity.
  - reflexivity.
  - reflexivity.
  - reflexivity.
  - vm_compute. discriminate.
  - reflexivity.
  - vm_compute. lia.
Defined.

(** The table of control subtypes, entry by entry. *)
Lemma cfMACs_lookup (styp : N) (nm : nat) :
  cfMACs !! styp = Some nm ↔
  (styp, nm) ∈ [ (cfWrapper, 1); (cfBlockAckReq, 2); (cfBlockAck, 2);
                 (cfPSPoll, 1); (cfRTS, 2); (cfCTS, 1); (cfACK, 1); (cfEnd, 1);
                 (cfEndAck, 2) ].
Proof.
  unfold cfMACs. symmetry. apply elem_of_list_to_map.
  compute_done.
Qed.

(** The type switch comes after the reads of the frame control and of the
    flags and after the [slurp] of the duration: a frame that holds the
    frame control and the flags but not the two duration bytes returns the
    short-packet error at the offset of the duration, whatever its type and
    subtype. *)
Lemma radiotap_cut_before_type_switch (b : list byte) (anon : DefaultAnonymizer)
    (rh : RadiotapHeader) (fc flags : byte) :
  RadiotapHeader_Read b = inr rh →
  b !! N.to_nat (Len rh) = Some fc →
  b !! S (N.to_nat (Len rh)) = Some flags →
  length b < N.to_nat (Len rh) + 4 →
  Radiotap80211Handler_Handle b anon
  = Returned b anon (N.to_nat (Len rh) + 2)
      (Some (ShortPacketError 2 (N.to_nat (Len rh) + 2))).
Proof.
  intros Hrh Hfc Hflags Hlen.
  unfold Radiotap80211Handler_Handle, run_handler.
  rewrite (radiotap_handle_fields _ _ rh fc flags) by done.
  unfold radiotap_fields.
  erewrite bind_stop by (apply slurp_stop; simpl; lia).
  simpl. by replace (N.to_nat (Len rh) + 1 + 1) with (N.to_nat (Len rh) + 2) by lia.
Qed.





(** ** Pseudonyms *)

(** C1. In a run of anonymizer calls, for a class whose method is
    [Pseudonym]: two calls on the same original value of the class give the
    same output value; the class map at the end of the run contains the map
    at its start (nothing is removed or overwritten) and holds, for every
    call of the run, the pair of the original and the output value; and a
    call on a value that is not in the map yet outputs that value XORed with
    the keystream bytes at the cursor of its field (at or after the cursor
    the call starts with, so used by no earlier call, and before the cursor
    the call leaves, so used by no later one), and adds exactly the pair of
    the original and the output to the map. *)
Theorem C1_pseudonym_consistent (cls : class) (cs : list call)
    (a : DefaultAnonymizer) (outs : list (list byte)) (a' : DefaultAnonymizer) :
  method_of cls a = Pseudonym →
  run_calls cs a = Some (outs, a') →
  (∀ i j ci cj oi oj v,
     cs !! i = Some ci → cs !! j = Some cj →
     outs !! i = Some oi → outs !! j = Some oj →
     field_of cls ci = Some v → field_of cls cj = Some v →
     part cls oi = part cls oj) ∧
  map_of cls a ⊆ map_of cls a' ∧
  (∀ i ci oi v,
     cs !! i = Some ci → outs !! i = Some oi → field_of cls ci = Some v →
     map_of cls a' !! fill (width cls) v = Some (fill (width cls) (part cls oi))) ∧
  (∀ c out a1 v,
     do_call c a = Some (out, a1) → field_of cls c = Some v →
     map_of cls a !! fill (width cls) v = None →
     part cls out
     = xor_bytes v (keystream (scipher a) <$> seq (field_cursor cls c a) (width cls)) ∧
     map_of cls a1
     = <[fill (width cls) v := fill (width cls) (part cls out)]> (map_of cls a) ∧
     cursor (scipher a) ≤ field_cursor cls c a ∧
     field_cursor cls c a + width cls ≤ cursor (scipher a1)).
Proof.
  intros Hm Hr. split; [|split; [|split]].
  - intros i j ci cj oi oj v Hci Hcj Hoi Hoj Hfi Hfj.
    destruct (Nat.lt_trichotomy i j) as [Hlt | [-> | Hgt]].
    + symmetry. by eapply (run_calls_consistent_lt cls cs a outs a' i j).
    + congruence.
    + by eapply (run_calls_consistent_lt cls cs a outs a' j i).
  - by eapply run_calls_inv.
  - intros i ci oi v Hci Hoi Hfi. by eapply run_calls_records.
  - intros c out a1 v Hc Hf Hnone. by eapply call_miss.
Qed.

Lemma C1_pseudonym_consistent_witness :
  let a := NewDefaultAnonymizer Pseudonym Pseudonym Pseudonym Pseudonym count_stream in
  let cs := [CallIPv4 [x0a; x00; x00; x01]; CallIPv4 [x0a; x00; x00; x02];
             CallIPv4 [x0a; x00; x00; x01]] in
  let outs := [[x0a; x01; x02; x02]; [x0e; x05; x06; x05]; [x0a; x01; x02; x02]] in
  let a' := mkAnon Pseudonym Pseudonym Pseudonym Pseudonym
              (mkStream (keystream count_stream) 8) ∅ ∅
              (<[fill 4 [x0a; x00; x00; x02] := fill 4 [x0e; x05; x06; x05]]>
                 (<[fill 4 [x0a; x00; x00; x01] := fill 4 [x0a; x01; x02; x02]]> ∅))
              ∅ 0 3 0 in
  run_calls cs a = Some (outs, a') ∧
  ipv4Map a ⊆ ipv4Map a' ∧
  ipv4Map a' !! fill 4 [x0a; x00; x00; x01] = Some (fill 4 [x0a; x01; x02; x02]).
Proof.
  intros a cs outs a'.
  assert (Hr : run_calls cs a = Some (outs, a')) by (vm_compute; reflexivity).
  split; [exact Hr|].
  destruct (C1_pseudonym_consistent V4 cs a outs a') as (_ & Hsub & Hrec & _).
  - reflexivity.
  - exact Hr.
  - split; [exact Hsub|].
    apply (Hrec 0 (CallIPv4 [x0a; x00; x00; x01]) [x0a; x01; x02; x02]);
      reflexivity.
Defined.

(** ** Distinct originals *)

(** Two successive IPv4 calls of a run, on [0.0.0.0] and then on [4.4.4.4],
    under [Pseudonym] with the keystream 0, 1, 2, ...: both give
    [0.1.2.3]. *)
Example two_originals_one_output :
  ∃ a',
    run_calls [CallIPv4 [x00; x00; x00; x00]; CallIPv4 [x04; x04; x04; x04]]
      (NewDefaultAnonymizer Pseudonym Pseudonym Pseudonym Pseudonym count_stream)
    = Some ([[x00; x01; x02; x03]; [x00; x01; x02; x03]], a').
Proof. eexists. vm_compute. reflexivity. Qed.

(** The same happens with any keystream: under [Encrypt], [0.0.0.0] and then
    the XOR of the first two 4-byte keystream segments come out equal (and the
    two originals are distinct as soon as the two segments are). *)
Lemma successive_segments_collide (ks : nat → byte) :
  ∃ a',
    run_calls [CallIPv4 [x00; x00; x00; x00];
               CallIPv4 (xor_bytes (ks <$> seq 0 4) (ks <$> seq 4 4))]
      (NewDefaultAnonymizer Encrypt Encrypt Encrypt Encrypt (mkStream ks 0))
    = Some ([ks <$> seq 0 4; ks <$> seq 0 4], a').
Proof.
  eexists. unfold run_calls, do_call, IPv4, NewDefaultAnonymizer, anonymize.
  simpl. by rewrite !xor_byte_zero_l, !xor_byte_cancel.
Qed.

(** C7 as stated does not hold: the run above has two distinct originals
    of one class, under [Pseudonym], with the same output. *)
Lemma C7_distinct_outputs_counterexample : ¬ distinct_originals_distinct_outputs.
Proof.
  intros Hclaim. destruct two_originals_one_output as [a' Hr].
  assert (Hm : method_of V4 (NewDefaultAnonymizer Pseudonym Pseudonym Pseudonym
                               Pseudonym count_stream) = Pseudonym ∨
               method_of V4 (NewDefaultAnonymizer Pseudonym Pseudonym Pseudonym
                               Pseudonym count_stream) = Encrypt)
    by (left; reflexivity).
  destruct (Hclaim V4 _ _ _ _ 0 1 _ _ _ _ _ _ Hm Hr eq_refl eq_refl eq_refl eq_refl
              eq_refl eq_refl) as [Hne _]; [discriminate|].
  by apply Hne.
Qed.

(** C7, as the code has it.  In a run, every output has the length of
    the slice the call was made on, whatever the method.  And two distinct
    originals of a class get different outputs when both are transformed
    from the same anonymizer state with the same keystream bytes, under
    [Encrypt] or as first occurrences under [Pseudonym]. *)
Theorem C7_length_kept_same_segment_injective (cls : class) (cs : list call)
    (a : DefaultAnonymizer) (outs : list (list byte)) (a' : DefaultAnonymizer) :
  run_calls cs a = Some (outs, a') →
  (∀ i ci oi, cs !! i = Some ci → outs !! i = Some oi →
              length oi = length (call_input ci)) ∧
  (∀ c1 c2 o1 o2 a1 a2 v1 v2,
     method_of cls a = Encrypt ∨
     (method_of cls a = Pseudonym ∧
      map_of cls a !! fill (width cls) v1 = None ∧
      map_of cls a !! fill (width cls) v2 = None) →
     do_call c1 a = Some (o1, a1) → do_call c2 a = Some (o2, a2) →
     field_of cls c1 = Some v1 → field_of cls c2 = Some v2 →
     field_cursor cls c1 a = field_cursor cls c2 a →
     v1 ≠ v2 → part cls o1 ≠ part cls o2).
Proof.
  intros Hr. split.
  - revert a outs Hr. induction cs as [|c cs IH]; intros a outs Hr i ci oi Hci Hoi;
      [done|]. simpl in Hr.
    destruct (do_call c a) as [[out a1]|] eqn:Hc; [|done]. simpl in Hr.
    destruct (run_calls cs a1) as [[outs1 a2]|] eqn:Hr1; [|done]. simpl in Hr.
    injection Hr as <- <-. destruct i as [|i]; simpl in Hci, Hoi.
    + injection Hci as ->. injection Hoi as ->.
      by destruct (do_call_inv OUI _ _ _ _ Hc) as (Hl & _).
    + by eapply (IH a1 outs1).
  - intros c1 c2 o1 o2 a1 a2 v1 v2 Hm Hc1 Hc2 Hf1 Hf2 Hcur Hne Heq.
    destruct (do_call_class cls c1 a o1 a1 v1 Hc1 Hf1)
      as (Hl1 & s1 & s1' & Hk1 & Hcu1 & _ & _ & Ha1).
    destruct (do_call_class cls c2 a o2 a2 v2 Hc2 Hf2)
      as (Hl2 & s2 & s2' & Hk2 & Hcu2 & _ & _ & Ha2).
    assert (s2 = s1) as ->.
    { destruct s1, s2. simpl in *. congruence. }
    assert (part cls o1 = xor_bytes v1 (segment s1 (width cls)) ∧
            part cls o2 = xor_bytes v2 (segment s1 (width cls))) as [Hp1 Hp2].
    { destruct Hm as [Hm | (Hm & Hn1 & Hn2)]; rewrite Hm in *.
      - unfold anonymize in Ha1, Ha2. simpl in Ha1, Ha2.
        rewrite Hl1 in Ha1. rewrite Hl2 in Ha2.
        injection Ha1 as <- _ _. injection Ha2 as <- _ _. done.
      - rewrite anonymize_pseudonym_miss in Ha1, Ha2 by done.
        injection Ha1 as <- _ _. injection Ha2 as <- _ _. done. }
    apply Hne. eapply (xor_bytes_inj _ _ (segment s1 (width cls)));
      rewrite ?length_segment; [done..|]. congruence.
Qed.

Lemma C7_length_kept_same_segment_injective_witness :
  let a := NewDefaultAnonymizer Encrypt Encrypt Encrypt Encrypt count_stream in
  let a1 := mkAnon Encrypt Encrypt Encrypt Encrypt
              (mkStream (keystream count_stream) 4) ∅ ∅ ∅ ∅ 0 1 0 in
  (∀ i ci oi,
     [CallIPv4 [x0a; x00; x00; x01]] !! i = Some ci →
     [[x0a; x01; x02; x02]] !! i = Some oi →
     length oi = length (call_input ci)) ∧
  [x0a; x01; x02; x02] ≠ [x0a; x01; x02; x01].
Proof.
  intros a a1.
  destruct (C7_length_kept_same_segment_injective V4
              [CallIPv4 [x0a; x00; x00; x01]] a [[x0a; x01; x02; x02]] a1)
    as [Hlen Hinj].
  - vm_compute. reflexivity.
  - split; [exact Hlen|].
    apply (Hinj (CallIPv4 [x0a; x00; x00; x01]) (CallIPv4 [x0a; x00; x00; x02])
             [x0a; x01; x02; x02] [x0a; x01; x02; x01] a1 a1
             [x0a; x00; x00; x01] [x0a; x00; x00; x02]).
    + left. reflexivity.
    + vm_compute. reflexivity.
    + vm_compute. reflexivity.
    + reflexivity.
    + reflexivity.
    + reflexivity.
    + discriminate.
Defined.

(** * Further properties of the code *)

(** ** Integers on the wire *)

Lemma byte_val_of (v : N) : byte_val (byte_of v) = (v mod 256)%N.
Proof.
  unfold byte_val, byte_of.
  destruct (Byte.of_N (v mod 256)%N) as [x|] eqn:E; simpl.
  - by apply Byte.to_of_N.
  - apply Byte.of_N_None_iff in E.
    pose proof (N.mod_upper_bound v 256). lia.
Qed.

Lemma le_uint_lt bs : (le_uint bs < 256 ^ N.of_nat (length bs))%N.
Proof.
  induction bs as [|x bs IH]; simpl length; [simpl; lia|].
  rewrite Nat2N.inj_succ, N.pow_succ_r'. simpl le_uint.
  pose proof (byte_val_lt x). lia.
Qed.

Lemma le_uint_le_bytes k v : le_uint (le_bytes k v) = (v mod 256 ^ N.of_nat k)%N.
Proof.
  revert v. induction k as [|k IH]; intros v.
  - simpl. by rewrite N.mod_1_r.
  - simpl le_bytes. simpl le_uint. rewrite IH, byte_val_of.
    rewrite Nat2N.inj_succ, N.pow_succ_r'.
    by rewrite N.Div0.mod_mul_r.
Qed.

Lemma Uint_lt order bs : (Uint order bs < 256 ^ N.of_nat (length bs))%N.
Proof.
  destruct order; simpl; [apply le_uint_lt|].
  rewrite <- (length_reverse bs). apply le_uint_lt.
Qed.

Lemma Uint_PutUint_mod order k v :
  Uint order (PutUint order k v) = (v mod 256 ^ N.of_nat k)%N.
Proof.
  destruct order; simpl; rewrite ?reverse_involutive; apply le_uint_le_bytes.
Qed.

Lemma of_to_int32 v : (v < 2 ^ 32)%N → of_int32 (to_int32 v) = v.
Proof.
  intros Hv. unfold of_int32, to_int32. case_decide.
  - rewrite Z.mod_small by lia. lia.
  - replace (Z.of_N v - 2 ^ 32)%Z with (Z.of_N v + (-1) * 2 ^ 32)%Z by lia.
    rewrite Z.mod_add by lia. rewrite Z.mod_small by lia. lia.
Qed.

Lemma to_of_int32 z : (- 2 ^ 31 ≤ z < 2 ^ 31)%Z → to_int32 (of_int32 z) = z.
Proof.
  intros Hz. unfold of_int32, to_int32.
  destruct (decide (0 ≤ z)%Z) as [Hpos|Hneg].
  - rewrite Z.mod_small by lia. rewrite decide_True by lia. lia.
  - replace (z mod 2 ^ 32)%Z with (z + 2 ^ 32)%Z.
    + rewrite decide_False by lia. lia.
    + apply (Z.mod_unique _ _ (-1)); lia.
Qed.

Lemma slice_slice_app (l : list byte) lo n m :
  slice l lo n ++ slice l (lo + n) m = slice l lo (n + m).
Proof.
  unfold slice. rewrite <- drop_drop. apply take_take_drop.
Qed.

Lemma slice_all (l : list byte) : slice l 0 (length l) = l.
Proof. unfold slice. simpl. by rewrite take_ge. Qed.

Lemma slice_app_l (l r : list byte) lo n :
  lo + n ≤ length l → slice (l ++ r) lo n = slice l lo n.
Proof.
  intros. unfold slice. rewrite !take_drop_commute.
  by rewrite take_app_le by lia.
Qed.

Lemma PutUint_Uint_slice order (bs : list byte) lo k :
  lo + k ≤ length bs →
  PutUint order k (Uint order (slice bs lo k)) = slice bs lo k.
Proof.
  intros Hlen. pose proof (PutUint_Uint order (slice bs lo k)) as H.
  by rewrite length_slice in H by done.
Qed.

Lemma slice_app_head (a r : list byte) n :
  n = length a → slice (a ++ r) 0 n = a.
Proof.
  intros ->. unfold slice. change (drop 0 (a ++ r)) with (a ++ r).
  apply take_app_length.
Qed.

Lemma slice_app_tail (a r : list byte) lo n :
  slice (a ++ r) (length a + lo) n = slice r lo n.
Proof.
  unfold slice. rewrite <- drop_drop. by rewrite drop_app_length.
Qed.

Lemma slices_20 (l : list byte) :
  length l = 20 →
  slice l 0 2 ++ slice l 2 2 ++ slice l 4 4 ++ slice l 8 4 ++ slice l 12 4 ++
  slice l 16 4 = l.
Proof.
  intros Hl. do 20 (destruct l as [|? l]; [done|]). by destruct l.
Qed.

Lemma slices_16 (l : list byte) :
  length l = 16 →
  slice l 0 4 ++ slice l 4 4 ++ slice l 8 4 ++ slice l 12 4 = l.
Proof.
  intros Hl. do 16 (destruct l as [|? l]; [done|]). by destruct l.
Qed.

(** ** The headers of the container *)

Lemma GlobalHeader_Read_inr r order gh r' :
  GlobalHeader_Read r order = inr (gh, r') →
  20 ≤ length r ∧ r' = drop 20 r ∧ GlobalHeader_Write gh order = take 20 r ∧
  GlobalHeader_wf gh.
Proof.
  unfold GlobalHeader_Read.
  destruct (ReadFull 20 r) as [|[bs r0]] eqn:E; [done|].
  apply ReadFull_inr in E as (Hlen & -> & ->). intros [= <- <-].
  set (bs := take 20 r).
  assert (Hbs : length bs = 20) by (unfold bs; rewrite length_take; lia).
  split; [done|]. split; [done|]. split.
  - unfold GlobalHeader_Write. cbn [VersionMajor VersionMinor ThisZone Sigfigs Snaplen LinkLayer].
    rewrite of_to_int32
      by (pose proof (Uint_lt order (slice bs 4 4)) as H;
          rewrite length_slice in H by lia; exact H).
    rewrite !PutUint_Uint_slice by lia.
    by apply slices_20.
  - unfold GlobalHeader_wf. cbn [VersionMajor VersionMinor ThisZone Sigfigs Snaplen LinkLayer].
    pose proof (Uint_lt order (slice bs 0 2)) as H0.
    pose proof (Uint_lt order (slice bs 2 2)) as H2.
    pose proof (Uint_lt order (slice bs 4 4)) as H4.
    pose proof (Uint_lt order (slice bs 8 4)) as H8.
    pose proof (Uint_lt order (slice bs 12 4)) as H12.
    pose proof (Uint_lt order (slice bs 16 4)) as H16.
    rewrite length_slice in H0, H2, H4, H8, H12, H16 by lia.
    change (256 ^ N.of_nat 2)%N with (2 ^ 16)%N in *.
    change (256 ^ N.of_nat 4)%N with (2 ^ 32)%N in *.
    repeat split; try done; unfold to_int32; case_decide; lia.
Qed.

Lemma PutUint_inj order k v v' :
  (v < 256 ^ N.of_nat k)%N → (v' < 256 ^ N.of_nat k)%N →
  PutUint order k v = PutUint order k v' → v = v'.
Proof.
  intros Hv Hv' Heq. apply (f_equal (Uint order)) in Heq.
  rewrite !Uint_PutUint_mod in Heq. by rewrite !N.mod_small in Heq.
Qed.

Lemma PutUint_app_inj order k v v' (r r' : list byte) :
  (v < 256 ^ N.of_nat k)%N → (v' < 256 ^ N.of_nat k)%N →
  PutUint order k v ++ r = PutUint order k v' ++ r' → v = v' ∧ r = r'.
Proof.
  intros Hv Hv' Heq. apply app_inj_1 in Heq as [Heq ->].
  - split; [by eapply PutUint_inj | done].
  - by rewrite !length_PutUint.
Qed.

Lemma GlobalHeader_Write_inj gh gh' order :
  GlobalHeader_wf gh → GlobalHeader_wf gh' →
  GlobalHeader_Write gh order = GlobalHeader_Write gh' order → gh = gh'.
Proof.
  intros (H1 & H2 & H3 & H4 & H5 & H6) (H1' & H2' & H3' & H4' & H5' & H6').
  destruct gh as [a b c d e f], gh' as [a' b' c' d' e' f'].
  unfold GlobalHeader_Write. simpl in *. intros Heq.
  apply PutUint_app_inj in Heq as [-> Heq]; [|done..].
  apply PutUint_app_inj in Heq as [-> Heq]; [|done..].
  apply PutUint_app_inj in Heq as [Hc Heq];
    [|unfold of_int32; change (256 ^ N.of_nat 4)%N with (2 ^ 32)%N;
      pose proof (Z.mod_pos_bound c (2 ^ 32)); pose proof (Z.mod_pos_bound c' (2 ^ 32));
      lia..].
  apply PutUint_app_inj in Heq as [-> Heq]; [|done..].
  apply PutUint_app_inj in Heq as [-> Heq]; [|done..].
  apply PutUint_inj in Heq as ->; [|done..].
  apply (f_equal to_int32) in Hc. rewrite !to_of_int32 in Hc by done. by subst.
Qed.

Lemma GlobalHeader_Read_of_Write gh order r :
  GlobalHeader_wf gh →
  GlobalHeader_Read (GlobalHeader_Write gh order ++ r) order = inr (gh, r).
Proof.
  intros Hwf.
  assert (Hlen : length (GlobalHeader_Write gh order) = 20).
  { unfold GlobalHeader_Write. by rewrite !length_app, !length_PutUint. }
  destruct (GlobalHeader_Read (GlobalHeader_Write gh order ++ r) order)
    as [e|[gh' r']] eqn:E.
  - unfold GlobalHeader_Read in E. rewrite ReadFull_ok in E; [done|].
    rewrite length_app. lia.
  - apply GlobalHeader_Read_inr in E as (_ & -> & Hw & Hwf').
    rewrite take_app_length' in Hw by done.
    rewrite drop_app_length' by done.
    by rewrite (GlobalHeader_Write_inj gh' gh order Hwf' Hwf Hw).
Qed.

Lemma PacketHeader_Read_wf r order ph r' :
  PacketHeader_Read r order = inr (ph, r') →
  PacketHeader_Write ph order = take 16 r ∧ PacketHeader_wf ph.
Proof.
  unfold PacketHeader_Read.
  destruct (ReadFull 16 r) as [|[bs r0]] eqn:E; [done|].
  apply ReadFull_inr in E as (Hlen & -> & ->). intros [= <- <-].
  set (bs := take 16 r).
  assert (Hbs : length bs = 16) by (unfold bs; rewrite length_take; lia).
  split.
  - unfold PacketHeader_Write. cbn [TimestampSec TimestampUsec PLen OrigLen].
    rewrite !PutUint_Uint_slice by lia. by apply slices_16.
  - unfold PacketHeader_wf. cbn [TimestampSec TimestampUsec PLen OrigLen].
    pose proof (Uint_lt order (slice bs 0 4)) as H0.
    pose proof (Uint_lt order (slice bs 4 4)) as H4.
    pose proof (Uint_lt order (slice bs 8 4)) as H8.
    pose proof (Uint_lt order (slice bs 12 4)) as H12.
    rewrite length_slice in H0, H4, H8, H12 by lia.
    by change (256 ^ N.of_nat 4)%N with (2 ^ 32)%N in *.
Qed.

Lemma PacketHeader_Write_inj ph ph' order :
  PacketHeader_wf ph → PacketHeader_wf ph' →
  PacketHeader_Write ph order = PacketHeader_Write ph' order → ph = ph'.
Proof.
  intros (H1 & H2 & H3 & H4) (H1' & H2' & H3' & H4').
  destruct ph as [a b c d], ph' as [a' b' c' d'].
  unfold PacketHeader_Write. simpl in *. intros Heq.
  apply PutUint_app_inj in Heq as [-> Heq]; [|done..].
  apply PutUint_app_inj in Heq as [-> Heq]; [|done..].
  apply PutUint_app_inj in Heq as [-> Heq]; [|done..].
  by apply PutUint_inj in Heq as ->.
Qed.

Lemma PacketHeader_Read_of_Write ph order r :
  PacketHeader_wf ph →
  PacketHeader_Read (PacketHeader_Write ph order ++ r) order = inr (ph, r).
Proof.
  intros Hwf.
  assert (Hlen : length (PacketHeader_Write ph order) = 16).
  { unfold PacketHeader_Write. by rewrite !length_app, !length_PutUint. }
  destruct (PacketHeader_Read (PacketHeader_Write ph order ++ r) order)
    as [e|[ph' r']] eqn:E.
  - unfold PacketHeader_Read in E. rewrite ReadFull_ok in E; [done|].
    rewrite length_app. lia.
  - pose proof (PacketHeader_Read_inr _ _ _ _ E) as [_ ->].
    apply PacketHeader_Read_wf in E as [Hw Hwf'].
    rewrite take_app_length' in Hw by done.
    rewrite drop_app_length' by done.
    by rewrite (PacketHeader_Write_inj ph' ph order Hwf' Hwf Hw).
Qed.

(** X1. The global header goes through [GlobalHeader.Read] and
    [GlobalHeader.Write] unchanged, in either byte order: what was read is
    written back as the same 20 bytes, and what was written reads back as
    the same header. *)
Theorem GlobalHeader_round_trip (order : ByteOrder) (r : list byte) (gh : GlobalHeader)
    (r' : list byte) :
  GlobalHeader_Read r order = inr (gh, r') →
  GlobalHeader_Write gh order ++ r' = r ∧
  ∀ rest, GlobalHeader_Read (GlobalHeader_Write gh order ++ rest) order
          = inr (gh, rest).
Proof.
  intros Hrd. pose proof (GlobalHeader_Read_inr _ _ _ _ Hrd) as (_ & -> & Hw & Hwf).
  split.
  - rewrite Hw. apply take_drop.
  - intros rest. by apply GlobalHeader_Read_of_Write.
Qed.

Lemma GlobalHeader_round_trip_witness :
  let gh := mkGlobalHeader 2 4 0 0 0xffff 1 in
  let r := drop 4 capture_le in
  GlobalHeader_Write gh LittleEndian ++ drop 20 r = r ∧
  ∀ rest, GlobalHeader_Read (GlobalHeader_Write gh LittleEndian ++ rest) LittleEndian
          = inr (gh, rest).
Proof.
  intros gh r. apply (GlobalHeader_round_trip LittleEndian r gh (drop 20 r)).
  vm_compute. reflexivity.
Defined.

(** X2. The header of a record goes through the [binary.Read] and the
    [binary.Write] of [run] unchanged, in either byte order: what was read
    is written back as the same 16 bytes, and what was written reads back as
    the same header. *)
Theorem PacketHeader_round_trip (order : ByteOrder) (r : list byte) (ph : PacketHeader)
    (r' : list byte) :
  PacketHeader_Read r order = inr (ph, r') →
  PacketHeader_Write ph order ++ r' = r ∧
  ∀ rest, PacketHeader_Read (PacketHeader_Write ph order ++ rest) order
          = inr (ph, rest).
Proof.
  intros Hrd. pose proof (PacketHeader_Read_inr _ _ _ _ Hrd) as [_ ->].
  apply PacketHeader_Read_wf in Hrd as [Hw Hwf]. split.
  - rewrite Hw. apply take_drop.
  - intros rest. by apply PacketHeader_Read_of_Write.
Qed.

Lemma PacketHeader_round_trip_witness :
  let ph := mkPacketHeader 1 2 14 14 in
  PacketHeader_Write ph BigEndian ++ replicate 14 x07 = record_small ∧
  ∀ rest, PacketHeader_Read (PacketHeader_Write ph BigEndian ++ rest) BigEndian
          = inr (ph, rest).
Proof.
  intros ph.
  apply (PacketHeader_round_trip BigEndian record_small ph (replicate 14 x07)).
  vm_compute. reflexivity.
Defined.

(** ** What a handler step may do *)

Lemma anon_ext_refl a : anon_ext a a.
Proof. split; [done|]. intros cls. by destruct cls. Qed.

Lemma anon_ext_trans a0 a1 a2 : anon_ext a0 a1 → anon_ext a1 a2 → anon_ext a0 a2.
Proof.
  intros [Hk1 H1] [Hk2 H2]. split; [congruence|]. intros cls.
  destruct (H1 cls) as [Hm1 He1], (H2 cls) as [Hm2 He2].
  split; [by etrans | congruence].
Qed.

Lemma do_call_ext c a out a' : do_call c a = Some (out, a') → anon_ext a a'.
Proof.
  intros Hc. split.
  - by apply (do_call_inv OUI) in Hc as (_ & _ & _ & ?).
  - intros cls. by destruct (do_call_inv cls _ _ _ _ Hc) as (_ & ? & ? & _).
Qed.

Lemma takes_MAC : takes MAC 6.
Proof.
  intros b a Hlen.
  destruct (MAC_spec b a Hlen) as (oui & s1 & m1 & nic & s2 & m2 & _ & _ & Ho & Hn & HM).
  eexists _, _. split; [exact HM|]. split; [rewrite length_app; lia|].
  by apply (do_call_ext (CallMAC b) _ _ _ HM).
Qed.

Lemma takes_IPv4 : takes IPv4 4.
Proof.
  intros b a Hlen. destruct (IPv4_spec b a Hlen) as (x & s' & m' & _ & Hl & HI).
  eexists _, _. split; [exact HI|]. split; [done|].
  by apply (do_call_ext (CallIPv4 b) _ _ _ HI).
Qed.

Lemma takes_IPv6 : takes IPv6 16.
Proof.
  intros b a Hlen. destruct (IPv6_spec b a Hlen) as (x & s' & m' & _ & Hl & HI).
  eexists _, _. split; [exact HI|]. split; [done|].
  by apply (do_call_ext (CallIPv6 b) _ _ _ HI).
Qed.

Lemma triple_ret {A} (P : hstate → Prop) (x : A) Q E C :
  (∀ s, P s → Q x s) → triple P (mret x) Q E C.
Proof. intros H s Hs. by apply H. Qed.

Lemma triple_bind {A B} (P : hstate → Prop) (m : handler A) (k : A → handler B)
    (R : A → hstate → Prop) Q E C :
  triple P m R E C → (∀ x, triple (R x) (k x) Q E C) → triple P (m ≫= k) Q E C.
Proof.
  intros Hm Hk s Hs. specialize (Hm s Hs). unfold mbind, handler_bind.
  destruct (m s) as [x s'|e s'|p]; [|done..]. by apply Hk.
Qed.

Lemma triple_weaken {A} (P P' : hstate → Prop) (m : handler A)
    (Q Q' : A → hstate → Prop) (E E' : error → hstate → Prop) (C C' : panic → Prop) :
  triple P' m Q' E' C' →
  (∀ s, P s → P' s) → (∀ x s, Q' x s → Q x s) → (∀ e s, E' e s → E e s) →
  (∀ p, C' p → C p) →
  triple P m Q E C.
Proof.
  intros Hm HP HQ HE HC s Hs. specialize (Hm s (HP s Hs)).
  destruct (m s); auto.
Qed.

Lemma triple_hget (P : hstate → Prop) E C :
  triple P hget (λ x s, x = s ∧ P s) E C.
Proof. by intros s Hs. Qed.

Lemma triple_repeat (P : hstate → Prop) body k E C :
  triple P body (λ _, P) E C → triple P (repeat_h k body) (λ _, P) E C.
Proof.
  intros Hb. induction k as [|k IH]; simpl.
  - by apply triple_ret.
  - eapply triple_bind; [exact Hb|]. intros x. exact IH.
Qed.

Lemma triple_slurp L a0 x inc C :
  triple (within L a0 0) (slurp x inc)
    (λ _, within L a0 (if inc then 0 else x)) (short_at L a0) C.
Proof.
  intros s (Hl & Hn & Ha). unfold slurp. case_decide as Hx.
  - split; [by split|]. exists x. split; [done|]. lia.
  - destruct inc; (split; [|split]); simpl; try done; lia.
Qed.

Lemma triple_anon_at L a0 k F off len E C :
  takes F len → off + len ≤ k →
  triple (within L a0 k) (anon_at F off len) (λ _, within L a0 k) E C.
Proof.
  intros HF Hk s (Hl & Hn & Ha). unfold anon_at. cbv zeta.
  rewrite decide_True by lia.
  destruct (HF (slice (st_b s) (st_n s + off) len) (st_anon s))
    as (x & a' & -> & Hx & Hext); [apply length_slice; lia|].
  split; [|split]; simpl.
  - rewrite length_splice; lia.
  - done.
  - by eapply anon_ext_trans.
Qed.

Lemma triple_advance L a0 k j E C :
  j ≤ k →
  triple (within L a0 k) (advance j) (λ _ s, within L a0 (k - j) s ∧ j ≤ st_n s) E C.
Proof.
  intros Hj s (Hl & Hn & Ha). split; [split; [|split]|]; simpl; try done; lia.
Qed.

Lemma triple_advance_to L a0 k E C :
  triple (within L a0 k) (advance k) (λ _, within L a0 0) E C.
Proof. intros s (Hl & Hn & Ha). split; [|split]; simpl; try done; lia. Qed.

Lemma triple_byte_at L a0 i E C :
  triple (λ s, within L a0 0 s ∧ i < st_n s) (byte_at i) (λ _, within L a0 0) E C.
Proof.
  intros s [(Hl & Hn & Ha) Hi]. unfold byte_at.
  destruct (lookup_lt_is_Some_2 (st_b s) i) as [x ->]; [lia|]. by split.
Qed.

Ltac triple_step rule :=
  eapply triple_bind; [rule | intros ?; cbv beta].

(** ** The Ethernet handler never panics *)

Lemma arp_pair_safe L a0 :
  triple (within L a0 0) arp_pair (λ _, within L a0 0) (short_at L a0) (λ _, False).
Proof.
  unfold arp_pair.
  triple_step ltac:(apply triple_slurp).
  eapply triple_bind; [apply triple_hget|]. intros s0. cbv beta.
  eapply triple_bind with (R := λ _, within L a0 6).
  { destruct (isAllZeroes _).
    - apply triple_ret. by intros s [_ Hs].
    - eapply triple_weaken;
        [apply (triple_anon_at L a0 6 MAC 0 6 (short_at L a0) (λ _, False));
           [apply takes_MAC | lia]|..];
        try done.
      by intros s [_ Hs]. }
  intros ?. cbv beta.
  triple_step ltac:(apply triple_advance_to).
  triple_step ltac:(apply triple_slurp).
  triple_step ltac:(apply triple_anon_at; [apply takes_IPv4 | simpl; lia]).
  apply triple_advance_to.
Qed.

Lemma eth_switch_safe L a0 etherType :
  triple (within L a0 0) (eth_switch etherType) (λ _, within L a0 0)
    (short_at L a0) (λ _, False).
Proof.
  unfold eth_switch. repeat case_decide.
  - triple_step ltac:(apply triple_slurp).
    apply triple_repeat, arp_pair_safe.
  - triple_step ltac:(apply triple_slurp).
    triple_step ltac:(apply triple_anon_at; [apply takes_IPv4 | simpl; lia]).
    triple_step ltac:(apply triple_anon_at; [apply takes_IPv4 | simpl; lia]).
    triple_step ltac:(apply triple_advance; reflexivity).
    eapply triple_bind with (R := λ _, within L a0 0).
    { eapply triple_weaken;
        [apply (triple_byte_at L a0 0 (short_at L a0) (λ _, False))|..]; try done.
      intros s [Hs Hn]. split; [exact Hs | lia]. }
    intros b0. cbv beta zeta. case_decide.
    + apply (triple_slurp L a0 _ true).
    + by apply triple_ret.
  - triple_step ltac:(apply triple_slurp).
    triple_step ltac:(apply triple_anon_at; [apply takes_IPv6 | simpl; lia]).
    triple_step ltac:(apply triple_anon_at; [apply takes_IPv6 | simpl; lia]).
    apply triple_advance_to.
  - by apply triple_ret.
Qed.

Lemma EthHeader_Read_inl b e :
  EthHeader_Read b = inl e → length b < 18 ∧ (e = EOF ∨ e = ErrUnexpectedEOF).
Proof.
  unfold EthHeader_Read. intros Hrd.
  repeat match type of Hrd with
  | context [ReadFull ?k ?r] =>
      let E := fresh "E" in
      destruct (ReadFull k r) as [?|[? ?]] eqn:E;
        [apply ReadFull_inl in E as [? ?]; injection Hrd as <-;
         rewrite ?length_drop in *; split; [lia|done]
        |apply ReadFull_inr in E as (? & -> & ->)]
  | context [decide ?P] => destruct (decide P)
  end; done.
Qed.

Lemma eth_header_safe b anon :
  match eth_header (mkH b anon 0) with
  | Next eh s => within (length b) anon 0 s
  | Stop e s =>
      s = mkH b anon 0 ∧ length b < 18 ∧ (e = EOF ∨ e = ErrUnexpectedEOF)
  | Crash _ => False
  end.
Proof.
  destruct (EthHeader_Read b) as [e|eh] eqn:Hrd.
  - unfold eth_header. erewrite bind_next by reflexivity. cbn [st_b]. rewrite Hrd.
    split; [done|]. by apply EthHeader_Read_inl.
  - destruct (eth_header_next b anon eh Hrd)
      as (dst & a1 & src & a2 & Hd & Hs & _ & _ & Heq).
    cbv zeta in Heq. pose proof Heq as Hinv%eth_header_inv. rewrite Heq.
    destruct Hinv as (_ & Hn & Hl & _). split; [done|]. split; [lia|].
    cbn [st_anon]. eapply anon_ext_trans.
    + exact (do_call_ext (CallMAC _) _ _ _ Hd).
    + exact (do_call_ext (CallMAC _) _ _ _ Hs).
Qed.

(** X3. The Ethernet handler never panics, whatever the packet and the
    anonymizer.  The packet keeps its length; the offset returned is within
    the packet; the anonymizer keeps its methods and keystream, and its maps
    only grow.  An error is either the end-of-file error of the header read
    (packet shorter than a header: offset 0, packet and anonymizer
    untouched) or the short-packet error of [slurp] for bytes that are not
    there. *)
Theorem EthHandler_Handle_never_panics (b : list byte) (anon : DefaultAnonymizer) :
  ∃ b' a' n err,
    EthHandler_Handle b anon = Returned b' a' n err ∧
    length b' = length b ∧ n ≤ length b ∧ anon_ext anon a' ∧
    match err with
    | None => True
    | Some e =>
        (length b < 18 ∧ (e = EOF ∨ e = ErrUnexpectedEOF) ∧
         n = 0 ∧ b' = b ∧ a' = anon) ∨
        (∃ x, e = ShortPacketError x n ∧ length b < n + x)
    end.
Proof.
  unfold EthHandler_Handle, run_handler, mbind, handler_bind.
  pose proof (eth_header_safe b anon) as Hh.
  destruct (eth_header (mkH b anon 0)) as [eh s|e s|p]; [| |done].
  - pose proof (eth_switch_safe (length b) anon (EtherType eh) s Hh) as Hsw.
    destruct (eth_switch (EtherType eh) s) as [[] s'|e s'|p]; [| |done].
    + destruct Hsw as (Hl & Hn & Ha). eexists _, _, _, _. split; [done|].
      split; [done|]. split; [lia|]. by split.
    + destruct Hsw as [(Hl & Hn & Ha) (x & -> & Hx)].
      eexists _, _, _, _. split; [done|].
      split; [done|]. split; [lia|]. split; [done|]. right. eauto.
  - destruct Hh as (-> & Hlen & He). eexists _, _, _, _. split; [done|].
    split; [done|]. split; [simpl; lia|]. split; [apply anon_ext_refl|].
    left. done.
Qed.

(** ** The Radiotap + 802.11 handler: returns and panics *)

Lemma mac_field_safe L a0 C :
  triple (within L a0 0) mac_field (λ _, within L a0 0) (short_at L a0) C.
Proof.
  unfold mac_field.
  triple_step ltac:(apply triple_slurp).
  triple_step ltac:(apply triple_anon_at; [apply takes_MAC | simpl; lia]).
  apply triple_advance_to.
Qed.

Lemma count_macs_safe (P : hstate → Prop) typ styp E :
  triple P (count_macs typ styp) (λ _, P) E
    (λ p, match p with
          | BoundsPanic => False
          | InvalidControlSubtype st =>
              typ = typeControl ∧ st = styp ∧ cfMACs !! styp = None
          | ReservedTypePanic =>
              typ ≠ typeMgmt ∧ typ ≠ typeControl ∧ typ ≠ typeData
          end).
Proof.
  unfold count_macs. repeat case_decide; try by apply triple_ret.
  - destruct (cfMACs !! styp) eqn:Ec; [by apply triple_ret|]. by intros s _.
  - by intros s _.
Qed.

Lemma radiotap_fields_safe L a0 typ styp tods fromds order :
  triple (within L a0 0) (radiotap_fields typ styp tods fromds order)
    (λ _, within L a0 0) (short_at L a0)
    (λ p, match p with
          | BoundsPanic => False
          | InvalidControlSubtype st =>
              typ = typeControl ∧ st = styp ∧ cfMACs !! styp = None
          | ReservedTypePanic =>
              typ ≠ typeMgmt ∧ typ ≠ typeControl ∧ typ ≠ typeData
          end).
Proof.
  unfold radiotap_fields.
  triple_step ltac:(apply (triple_slurp L a0 _ true)).
  triple_step ltac:(apply count_macs_safe).
  triple_step ltac:(apply triple_repeat, mac_field_safe).
  eapply triple_bind with (R := λ _, within L a0 0).
  { case_decide; [apply (triple_slurp L a0 _ true) | by apply triple_ret]. }
  intros ?. cbv beta.
  eapply triple_bind with (R := λ _, within L a0 0).
  { destruct (_ && _); [apply mac_field_safe | by apply triple_ret]. }
  intros ?. cbv beta zeta.
  eapply triple_bind with (R := λ _, within L a0 0).
  { destruct (_ && _); [apply (triple_slurp L a0 _ true) | by apply triple_ret]. }
  intros ?. cbv beta.
  eapply triple_bind with (R := λ _, within L a0 0).
  { destruct (_ && _); [apply (triple_slurp L a0 _ true) | by apply triple_ret]. }
  intros ?. cbv beta.
  destruct (_ || _); [apply (triple_slurp L a0 _ true) | by apply triple_ret].
Qed.

Lemma RadiotapHeader_Read_inl b e :
  RadiotapHeader_Read b = inl e → length b < 8 ∧ (e = EOF ∨ e = ErrUnexpectedEOF).
Proof.
  unfold RadiotapHeader_Read.
  destruct (ReadFull 8 b) as [e'|[bs r]] eqn:E; [|done].
  intros [= <-]. by apply ReadFull_inl in E.
Qed.

Lemma read_uint8_end (b : list byte) (i : nat) :
  b !! i = None → read_uint8 (drop i b) = hfail EOF.
Proof.
  intros Hx%lookup_ge_None. unfold read_uint8. by rewrite drop_ge by done.
Qed.

(** The handler, case by case on the start of the frame. *)
Lemma radiotap_handle_cases b anon rh :
  RadiotapHeader_Read b = inr rh →
  let n0 := N.to_nat (Len rh) in
  radiotap_handle (mkH b anon 0) =
    if decide (length b < n0) then Crash BoundsPanic
    else match b !! n0 with
         | None => Stop EOF (mkH b anon n0)
         | Some fc =>
             match b !! S n0 with
             | None => Stop EOF (mkH b anon (n0 + 1))
             | Some flags =>
                 radiotap_fields (parseFC fc).1.2 (parseFC fc).2
                   (parseFlags flags).1.1 (parseFlags flags).1.2 (parseFlags flags).2
                   (mkH b anon (n0 + 1 + 1))
             end
         end.
Proof.
  intros Hrh n0. case_decide as Hlen.
  { rewrite (radiotap_handle_read _ rh) by done. unfold radiotap_frame.
    erewrite bind_next by reflexivity.
    erewrite bind_crash; [done|].
    unfold buffer_from_n. simpl. by rewrite decide_False by lia. }
  destruct (b !! n0) as [fc|] eqn:Hfc; cycle 1.
  { rewrite (radiotap_handle_read _ rh) by done. unfold radiotap_frame.
    erewrite bind_next by reflexivity.
    erewrite bind_next; cycle 1.
    { unfold buffer_from_n. cbn [st_n st_b set_n]. by rewrite decide_True by lia. }
    cbn [st_n st_b set_n]. fold n0. rewrite (read_uint8_end _ _ Hfc).
    by erewrite bind_stop. }
  destruct (b !! S n0) as [flags|] eqn:Hflags.
  { by apply radiotap_handle_fields. }
  rewrite (radiotap_handle_read _ rh) by done. unfold radiotap_frame.
  erewrite bind_next by reflexivity.
  erewrite bind_next; cycle 1.
  { unfold buffer_from_n. cbn [st_n st_b set_n]. by rewrite decide_True by lia. }
  cbn [st_n st_b set_n]. fold n0. rewrite (read_uint8_lookup _ _ _ Hfc).
  erewrite bind_next by reflexivity. cbv beta iota.
  erewrite bind_next by reflexivity.
  destruct (parseFC fc) as [[ver typ] styp].
  rewrite (read_uint8_end _ _ Hflags).
  by erewrite bind_stop.
Qed.

Lemma parseFC_typ (fc : byte) :
  let typ := (parseFC fc).1.2 in
  typ = typeMgmt ∨ typ = typeControl ∨ typ = typeData ∨ typ = typeReserved.
Proof. destruct fc; vm_compute; auto. Qed.

(** X4. Every outcome of the Radiotap handler.  When it returns, the packet has
    kept its length, the offset is within the packet, the anonymizer has
    kept its methods and keystream and its maps have only grown, and an
    error is an end-of-file error (packet and anonymizer untouched) or the
    short-packet error of [slurp] for bytes that are not there.  It panics
    in three cases only: the header declares a length past the end of the
    packet; the frame is a Control frame whose subtype is not in [cfMACs];
    the frame is of the Reserved type. *)
Theorem Radiotap80211Handler_Handle_outcomes (b : list byte) (anon : DefaultAnonymizer) :
  match Radiotap80211Handler_Handle b anon with
  | Returned b' a' n err =>
      length b' = length b ∧ n ≤ length b ∧ anon_ext anon a' ∧
      match err with
      | None => True
      | Some e =>
          ((e = EOF ∨ e = ErrUnexpectedEOF) ∧ b' = b ∧ a' = anon) ∨
          (∃ x, e = ShortPacketError x n ∧ length b < n + x)
      end
  | Panicked p =>
      ∃ rh, RadiotapHeader_Read b = inr rh ∧
        match p with
        | BoundsPanic => length b < N.to_nat (Len rh)
        | InvalidControlSubtype styp =>
            ∃ fc, b !! N.to_nat (Len rh) = Some fc ∧
                  (parseFC fc).1.2 = typeControl ∧ (parseFC fc).2 = styp ∧
                  cfMACs !! styp = None
        | ReservedTypePanic =>
            ∃ fc, b !! N.to_nat (Len rh) = Some fc ∧
                  (parseFC fc).1.2 = typeReserved
        end
  end.
Proof.
  unfold Radiotap80211Handler_Handle, run_handler.
  destruct (RadiotapHeader_Read b) as [e|rh] eqn:Hrh.
  { unfold radiotap_handle. erewrite bind_next by reflexivity. cbn [st_b].
    rewrite Hrh. apply RadiotapHeader_Read_inl in Hrh as [Hlen He]. simpl.
    split; [done|]. split; [lia|]. split; [apply anon_ext_refl|]. by left. }
  rewrite (radiotap_handle_cases b anon rh Hrh). cbv zeta.
  set (n0 := N.to_nat (Len rh)).
  case_decide as Hlen; [by exists rh|].
  destruct (b !! n0) as [fc|] eqn:Hfc; cycle 1.
  { simpl. split; [done|]. split; [lia|]. split; [apply anon_ext_refl|].
    left. auto. }
  pose proof (lookup_lt_Some _ _ _ Hfc) as Hn0.
  destruct (b !! S n0) as [flags|] eqn:Hflags; cycle 1.
  { simpl. split; [done|]. split; [lia|]. split; [apply anon_ext_refl|].
    left. auto. }
  pose proof (lookup_lt_Some _ _ _ Hflags) as Hn1.
  pose proof (radiotap_fields_safe (length b) anon (parseFC fc).1.2 (parseFC fc).2
                (parseFlags flags).1.1 (parseFlags flags).1.2 (parseFlags flags).2
                (mkH b anon (n0 + 1 + 1))) as Hf.
  destruct (radiotap_fields _ _ _ _ _ _) as [[] s'|e s'|p].
  - destruct Hf as (Hl & Hn & Ha).
    { split; [done|]. split; [simpl; lia | apply anon_ext_refl]. }
    simpl. split; [done|]. split; [lia|]. by split.
  - destruct Hf as [(Hl & Hn & Ha) (x & -> & Hx)].
    { split; [done|]. split; [simpl; lia | apply anon_ext_refl]. }
    simpl. split; [done|]. split; [lia|]. split; [done|]. right. eauto.
  - simpl. exists rh. split; [done|]. fold n0.
    destruct p as [|styp|].
    + destruct Hf. split; [done|]. split; [simpl; lia | apply anon_ext_refl].
    + destruct Hf as (Ht & -> & Hnone).
      { split; [done|]. split; [simpl; lia | apply anon_ext_refl]. }
      by exists fc.
    + destruct Hf as (H0 & H1 & H2).
      { split; [done|]. split; [simpl; lia | apply anon_ext_refl]. }
      exists fc. split; [done|].
      destruct (parseFC_typ fc) as [?|[?|[?|?]]]; done.
Qed.

(** ** Handlers inside the packet loop *)

(** What the loop relies on, for either handler. *)
Lemma Handle_inv h b anon :
  match Handle h b anon with
  | Returned b' a' n err =>
      length b' = length b ∧ n ≤ length b ∧ anon_ext anon a'
  | Panicked p => h = Radiotap80211Handler
  end.
Proof.
  assert (Hw0 : ∀ n, n ≤ length b → within (length b) anon 0 (mkH b anon n)).
  { intros n Hn. split; [done|]. split; [simpl; lia | apply anon_ext_refl]. }
  destruct h; simpl.
  - unfold EthHandler_Handle, run_handler, mbind, handler_bind.
    pose proof (eth_header_safe b anon) as Hh.
    destruct (eth_header (mkH b anon 0)) as [eh s|e s|p]; [| |done].
    + pose proof (eth_switch_safe (length b) anon (EtherType eh) s Hh) as Hsw.
      destruct (eth_switch (EtherType eh) s) as [[] s'|e s'|p]; [| |done].
      * destruct Hsw as (Hl & Hn & Ha). simpl. split; [done|]. split; [lia|done].
      * destruct Hsw as [(Hl & Hn & Ha) _]. simpl. split; [done|]. split; [lia|done].
    + destruct Hh as (-> & _ & _). simpl. split; [done|].
      split; [lia | apply anon_ext_refl].
  - unfold Radiotap80211Handler_Handle, run_handler.
    destruct (RadiotapHeader_Read b) as [e|rh] eqn:Hrh.
    { unfold radiotap_handle. erewrite bind_next by reflexivity. cbn [st_b].
      rewrite Hrh. simpl. split; [done|]. split; [lia | apply anon_ext_refl]. }
    rewrite (radiotap_handle_cases b anon rh Hrh). cbv zeta.
    set (n0 := N.to_nat (Len rh)).
    case_decide as Hlen; [done|].
    destruct (b !! n0) as [fc|] eqn:Hfc; cycle 1.
    { simpl. split; [done|]. split; [lia | apply anon_ext_refl]. }
    pose proof (lookup_lt_Some _ _ _ Hfc) as Hn0.
    destruct (b !! S n0) as [flags|] eqn:Hflags; cycle 1.
    { simpl. split; [done|]. split; [lia | apply anon_ext_refl]. }
    pose proof (lookup_lt_Some _ _ _ Hflags) as Hn1.
    pose proof (radiotap_fields_safe (length b) anon (parseFC fc).1.2 (parseFC fc).2
                  (parseFlags flags).1.1 (parseFlags flags).1.2 (parseFlags flags).2
                  (mkH b anon (n0 + 1 + 1))) as Hf.
    specialize (Hf (Hw0 (n0 + 1 + 1) ltac:(lia))).
    destruct (radiotap_fields _ _ _ _ _ _) as [[] s'|e s'|p]; [| |done].
    + destruct Hf as (Hl & Hn & Ha). simpl. split; [done|]. split; [lia|done].
    + destruct Hf as [(Hl & Hn & Ha) _]. simpl. split; [done|]. split; [lia|done].
Qed.



Lemma Magic_Read_inr input m r :
  Magic_Read input = inr (m, r) →
  4 ≤ length input ∧ r = drop 4 input ∧
  ∃ order, Magic_ByteOrder m = Some order ∧ Magic_Write m = Some (take 4 input).
Proof.
  unfold Magic_Read. destruct (ReadFull 4 input) as [|[bs r0]] eqn:E; [done|].
  apply ReadFull_inr in E as (Hlen & -> & ->).
  destruct (Magic_bytes (take 4 input)) as [HLE HBE]; [rewrite length_take; lia|].
  set (m0 := Uint BigEndian (take 4 input)) in *.
  destruct (bool_decide (m0 ≠ MagicLE)) eqn:E1;
    [destruct (bool_decide (m0 ≠ MagicBE)) eqn:E2; [done|]|]; simpl;
    intros [= <- <-]; (split; [done|]); (split; [done|]).
  - apply bool_decide_eq_false in E2. apply dec_stable in E2.
    exists BigEndian. unfold Magic_Write. rewrite E2. split; [done|]. simpl.
    by rewrite HBE.
  - apply bool_decide_eq_false in E1. apply dec_stable in E1.
    exists LittleEndian. unfold Magic_Write. rewrite E1. split; [done|]. simpl.
    by rewrite HLE.
Qed.

Lemma Handlers_lookup (l : N) (h : Handler) :
  Handlers !! l = Some h ↔
  (l = 1%N ∧ h = EthHandler) ∨ (l = 127%N ∧ h = Radiotap80211Handler).
Proof.
  unfold Handlers.
  rewrite <- elem_of_list_to_map by compute_done.
  rewrite !elem_of_cons, elem_of_nil. split.
  - intros [[= -> ->]|[[= -> ->]|[]]]; auto.
  - intros [[-> ->]|[-> ->]]; auto.
Qed.



(** A round that goes on, in full. *)
Lemma run_packet_inl_inv h order truncate s s' :
  run_packet h order truncate s = inl s' →
  ∃ ph b' a' n,
    PacketHeader_Read (rin s) order = inr (ph, drop 16 (rin s)) ∧
    PacketHeader_wf ph ∧
    (PLen ph ≤ MaxPacketLen)%N ∧
    16 + N.to_nat (PLen ph) ≤ length (rin s) ∧
    Handle h (slice (rin s) 16 (N.to_nat (PLen ph))) (ranon s)
    = Returned b' a' n None ∧
    length b' = N.to_nat (PLen ph) ∧ n ≤ length b' ∧
    s' = mkR (drop (16 + N.to_nat (PLen ph)) (rin s))
           (rout s ++
            (if truncate
             then PacketHeader_Write
                    (mkPacketHeader (TimestampSec ph) (TimestampUsec ph) (N.of_nat n)
                       (OrigLen ph)) order ++ take n b'
             else take 16 (rin s) ++ b'))
           a' ((packets s + 1) mod 2 ^ 64)%N.
Proof.
  unfold run_packet. intros Hr.
  destruct (PacketHeader_Read _ _) as [|[ph r]] eqn:Eh; [done|].
  pose proof (PacketHeader_Read_inr _ _ _ _ Eh) as [Hlen ->].
  pose proof (PacketHeader_Read_wf _ _ _ _ Eh) as [Hw Hwf].
  case_decide as Hmax; [done|].
  destruct (ReadFull _ _) as [|[b r]] eqn:Eb; [done|].
  apply ReadFull_inr in Eb as (Hb & -> & ->). cbn [ranon rout packets] in Hr.
  rewrite length_drop in Hb.
  fold (slice (rin s) 16 (N.to_nat (PLen ph))) in Hr.
  set (b := slice _ _ _) in *.
  assert (Hlb : length b = N.to_nat (PLen ph)) by (apply length_slice; lia).
  pose proof (Handle_inv h b (ranon s)) as Hinv.
  destruct (Handle h b (ranon s)) as [b' anon n [e|]|p'] eqn:EH; [done| |done].
  destruct Hinv as (Hl & Hn & _).
  exists ph, b', anon, n. split; [done|]. split; [done|]. split; [lia|].
  split; [lia|]. split; [done|]. split; [lia|]. split; [lia|].
  rewrite drop_drop in Hr. destruct truncate.
  - unfold slice_to in Hr. rewrite decide_True in Hr by lia. simpl in Hr.
    injection Hr as <-. rewrite N.mod_small; [done|].
    unfold MaxPacketLen in Hmax. lia.
  - injection Hr as <-. by rewrite Hw.
Qed.

(** X6. A record that [run] writes is well formed, with or without truncation:
    the length field of its header is the number of payload bytes written
    after it, so that the header reads back and leaves exactly those bytes;
    the time stamp and the original length are those of the record read;
    the payload is not longer than the one read and, without truncation,
    the header is the one read. *)
Theorem run_packet_writes_record (h : Handler) (order : ByteOrder) (truncate : bool)
    (s s' : rstate) :
  run_packet h order truncate s = inl s' →
  ∃ ph ph' b',
    PacketHeader_Read (rin s) order = inr (ph, drop 16 (rin s)) ∧
    rout s' = rout s ++ PacketHeader_Write ph' order ++ b' ∧
    PLen ph' = N.of_nat (length b') ∧
    length b' ≤ N.to_nat (PLen ph) ∧
    (truncate = false → ph' = ph) ∧
    TimestampSec ph' = TimestampSec ph ∧ TimestampUsec ph' = TimestampUsec ph ∧
    OrigLen ph' = OrigLen ph ∧
    ∀ rest, PacketHeader_Read (PacketHeader_Write ph' order ++ b' ++ rest) order
            = inr (ph', b' ++ rest).
Proof.
  intros Hr.
  destruct (run_packet_inl_inv _ _ _ _ _ Hr)
    as (ph & b' & a' & n & Hph & Hwf & Hmax & Hlen & _ & Hl & Hn & ->).
  pose proof (PacketHeader_Read_wf _ _ _ _ Hph) as [Hw _].
  destruct Hwf as (H1 & H2 & H3 & H4).
  exists ph. destruct truncate.
  - exists (mkPacketHeader (TimestampSec ph) (TimestampUsec ph) (N.of_nat n)
              (OrigLen ph)), (take n b').
    split; [done|]. split; [done|]. cbn [PLen TimestampSec TimestampUsec OrigLen].
    rewrite length_take, Nat.min_l by lia.
    split; [done|]. split; [lia|]. split; [done|]. split; [done|].
    split; [done|]. split; [done|].
    intros rest. apply PacketHeader_Read_of_Write.
    unfold PacketHeader_wf. cbn [PLen TimestampSec TimestampUsec OrigLen].
    unfold MaxPacketLen in Hmax. repeat split; try done. lia.
  - exists ph, b'. split; [done|]. split; [simpl; by rewrite Hw|].
    split; [lia|]. split; [lia|]. split; [done|]. split; [done|].
    split; [done|]. split; [done|].
    intros rest. by apply PacketHeader_Read_of_Write.
Qed.

Lemma run_packet_writes_record_witness :
  let a := NewDefaultAnonymizer Leave Leave Leave Leave count_stream in
  let a1 := mkAnon Leave Leave Leave Leave count_stream ∅ ∅ ∅ ∅ 2 0 0 in
  let s := mkR (record_small ++ record_big) [] a 0 in
  let s' := mkR record_big record_small a1 1 in
  ∃ ph ph' b',
    PacketHeader_Read (rin s) BigEndian = inr (ph, drop 16 (rin s)) ∧
    rout s' = rout s ++ PacketHeader_Write ph' BigEndian ++ b' ∧
    PLen ph' = N.of_nat (length b') ∧
    length b' ≤ N.to_nat (PLen ph) ∧
    (true = false → ph' = ph) ∧
    TimestampSec ph' = TimestampSec ph ∧ TimestampUsec ph' = TimestampUsec ph ∧
    OrigLen ph' = OrigLen ph ∧
    ∀ rest, PacketHeader_Read (PacketHeader_Write ph' BigEndian ++ b' ++ rest) BigEndian
            = inr (ph', b' ++ rest).
Proof.
  intros a a1 s s'.
  apply (run_packet_writes_record EthHandler BigEndian true s s').
  vm_compute. reflexivity.
Defined.

(** X7. Once the magic and the global header have been read: for link type 1
    or 127 the first 24 bytes of the output are the first 24 bytes of the
    input (the magic and the global header are copied as they are), however
    the run ends; for any other link type [run] returns the unsupported
    link layer error after the 24 bytes were read and only the 4 bytes of
    the magic were written. *)
Theorem run_global_header (input : list byte) (anon : DefaultAnonymizer)
    (truncate : bool) (magic : N) (r : list byte) (order : ByteOrder)
    (gh : GlobalHeader) (r' : list byte) :
  Magic_Read input = inr (magic, r) →
  Magic_ByteOrder magic = Some order →
  GlobalHeader_Read r order = inr (gh, r') →
  if decide (LinkLayer gh = 1 ∨ LinkLayer gh = 127)%N
  then ∃ o, run input anon truncate = Some o ∧
            take 24 (rout (run_state o)) = take 24 input
  else run input anon truncate
       = Some (RunReturned (mkR (drop 24 input) (take 4 input) anon 0)
                 (UnsupportedLinkLayerError (LinkLayer gh))).
Proof.
  intros Hm Ho Hg. unfold run. rewrite Hm.
  destruct (Magic_Read_inr _ _ _ Hm) as (Hlen & -> & order' & Ho' & Hw).
  rewrite Hw, Ho, Hg.
  destruct (GlobalHeader_Read_inr _ _ _ _ Hg) as (Hlen' & -> & Hgw & _).
  rewrite length_drop in Hlen'. rewrite drop_drop. rewrite Hgw.
  case_decide as Hl.
  - destruct (Handlers !! LinkLayer gh) as [h|] eqn:Eh; cycle 1.
    { exfalso. destruct Hl as [Hl|Hl]; rewrite Hl in Eh; done. }
    edestruct (run_loop_total (S (length (drop (4 + 20) input))) h order truncate)
      as (o & Hrun & w & Hout); [|exists o; split; [exact Hrun|]].
    { simpl. lia. }
    rewrite Hout. cbn [rout]. rewrite take_take_drop.
    rewrite take_app_le by (rewrite length_take; lia).
    rewrite take_take. f_equal.
  - destruct (Handlers !! LinkLayer gh) as [h|] eqn:Eh; [|done].
    apply Handlers_lookup in Eh. exfalso. apply Hl. tauto.
Qed.

Lemma run_global_header_witness :
  let anon := NewDefaultAnonymizer Encrypt Encrypt Encrypt Encrypt count_stream in
  ∃ o, run capture_le anon true = Some o ∧
       take 24 (rout (run_state o)) = take 24 capture_le.
Proof.
  intros anon.
  apply (run_global_header capture_le anon true MagicLE (drop 4 capture_le)
           LittleEndian (mkGlobalHeader 2 4 0 0 0xffff 1) (drop 24 capture_le));
    vm_compute; reflexivity.
Defined.

(** ** Every method [Leave] *)

Lemma leaves_MAC : leaves MAC.
Proof.
  intros x a (H1 & H2 & H3 & H4). eexists. unfold MAC. rewrite H1, H2.
  cbn [mbind option_bind]. split; [reflexivity|]. split; [done|].
  split; [done|]. intros cls. by destruct cls.
Qed.

Lemma leaves_IPv4 : leaves IPv4.
Proof.
  intros x a (H1 & H2 & H3 & H4). eexists. unfold IPv4, anonymize. rewrite H3.
  cbn [mbind option_bind]. split; [reflexivity|]. split; [done|].
  split; [done|]. intros cls. by destruct cls.
Qed.

Lemma leaves_IPv6 : leaves IPv6.
Proof.
  intros x a (H1 & H2 & H3 & H4). eexists. unfold IPv6, anonymize. rewrite H4.
  cbn [mbind option_bind]. split; [reflexivity|]. split; [done|].
  split; [done|]. intros cls. by destruct cls.
Qed.

Lemma all_leave_ext a a' : anon_ext a a' → all_leave a → all_leave a'.
Proof.
  intros [_ He] (H1 & H2 & H3 & H4).
  destruct (He OUI) as [_ E1], (He NIC) as [_ E2], (He V4) as [_ E3],
    (He V6) as [_ E4]. simpl in *. unfold all_leave. by rewrite E1, E2, E3, E4.
Qed.

Lemma left_slurp b x inc C :
  triple (left_alone b) (slurp x inc) (λ _, left_alone b) (λ _, left_alone b) C.
Proof. intros s Hs. unfold slurp. case_decide; [done|]. by destruct inc. Qed.

Lemma left_anon_at b F off len E :
  leaves F →
  triple (left_alone b) (anon_at F off len) (λ _, left_alone b) E (λ _, True).
Proof.
  intros HF s [Hb Ha]. unfold anon_at. cbv zeta. case_decide; [|done].
  destruct (HF (slice (st_b s) (st_n s + off) len) _ Ha) as (a' & -> & Ha' & _).
  split; simpl; [|done]. by rewrite splice_slice_id.
Qed.

Lemma left_advance b k E C :
  triple (left_alone b) (advance k) (λ _, left_alone b) E C.
Proof. by intros s Hs. Qed.

Lemma left_byte_at b i E :
  triple (left_alone b) (byte_at i) (λ _, left_alone b) E (λ _, True).
Proof. intros s Hs. unfold byte_at. by destruct (st_b s !! i). Qed.

Lemma arp_pair_left b :
  triple (left_alone b) arp_pair (λ _, left_alone b) (λ _, left_alone b) (λ _, True).
Proof.
  unfold arp_pair.
  triple_step ltac:(apply left_slurp).
  eapply triple_bind; [apply triple_hget|]. intros s0. cbv beta.
  eapply triple_bind with (R := λ _, left_alone b).
  { destruct (isAllZeroes _).
    - apply triple_ret. by intros s [_ Hs].
    - eapply triple_weaken;
        [apply (left_anon_at b MAC 0 6 (λ _, left_alone b)), leaves_MAC|..];
        try done.
      by intros s [_ Hs]. }
  intros ?. cbv beta.
  triple_step ltac:(apply left_advance).
  triple_step ltac:(apply left_slurp).
  triple_step ltac:(apply left_anon_at, leaves_IPv4).
  apply left_advance.
Qed.

Lemma eth_switch_left b etherType :
  triple (left_alone b) (eth_switch etherType) (λ _, left_alone b)
    (λ _, left_alone b) (λ _, True).
Proof.
  unfold eth_switch. repeat case_decide.
  - triple_step ltac:(apply left_slurp).
    apply triple_repeat, arp_pair_left.
  - triple_step ltac:(apply left_slurp).
    triple_step ltac:(apply left_anon_at, leaves_IPv4).
    triple_step ltac:(apply left_anon_at, leaves_IPv4).
    triple_step ltac:(apply left_advance).
    triple_step ltac:(apply left_byte_at).
    cbv zeta. case_decide; [apply left_slurp | by apply triple_ret].
  - triple_step ltac:(apply left_slurp).
    triple_step ltac:(apply left_anon_at, leaves_IPv6).
    triple_step ltac:(apply left_anon_at, leaves_IPv6).
    apply left_advance.
  - by apply triple_ret.
Qed.

Lemma mac_field_left b :
  triple (left_alone b) mac_field (λ _, left_alone b) (λ _, left_alone b) (λ _, True).
Proof.
  unfold mac_field.
  triple_step ltac:(apply left_slurp).
  triple_step ltac:(apply left_anon_at, leaves_MAC).
  apply left_advance.
Qed.

Lemma radiotap_fields_left b typ styp tods fromds order :
  triple (left_alone b) (radiotap_fields typ styp tods fromds order)
    (λ _, left_alone b) (λ _, left_alone b) (λ _, True).
Proof.
  unfold radiotap_fields.
  triple_step ltac:(apply left_slurp).
  eapply triple_bind with (R := λ _, left_alone b).
  { eapply triple_weaken;
      [apply (count_macs_safe (left_alone b) typ styp (λ _, left_alone b))|..];
      done. }
  intros nmacs. cbv beta.
  triple_step ltac:(apply triple_repeat, mac_field_left).
  eapply triple_bind with (R := λ _, left_alone b).
  { case_decide; [apply left_slurp | by apply triple_ret]. }
  intros ?. cbv beta.
  eapply triple_bind with (R := λ _, left_alone b).
  { destruct (_ && _); [apply mac_field_left | by apply triple_ret]. }
  intros ?. cbv beta zeta.
  eapply triple_bind with (R := λ _, left_alone b).
  { destruct (_ && _); [apply left_slurp | by apply triple_ret]. }
  intros ?. cbv beta.
  eapply triple_bind with (R := λ _, left_alone b).
  { destruct (_ && _); [apply left_slurp | by apply triple_ret]. }
  intros ?. cbv beta.
  destruct (_ || _); [apply left_slurp | by apply triple_ret].
Qed.

Lemma eth_header_left b anon :
  all_leave anon →
  Uint BigEndian (slice b 12 2) ≠ vlanEtherType →
  match eth_header (mkH b anon 0) with
  | Next _ s | Stop _ s => left_alone b s
  | Crash _ => True
  end.
Proof.
  intros Hleave Htag.
  destruct (EthHeader_Read b) as [e|eh] eqn:Hrd.
  { unfold eth_header. erewrite bind_next by reflexivity. cbn [st_b].
    by rewrite Hrd. }
  assert (Hlen : 14 ≤ length b).
  { apply EthHeader_Read_inr in Hrd. destruct (VLAN eh); lia. }
  rewrite (EthHeader_Read_untagged b Hlen Htag) in Hrd. injection Hrd as <-.
  destruct (eth_header_next b anon _ (EthHeader_Read_untagged b Hlen Htag))
    as (dst & a1 & src & a2 & Hd & Hs & _ & _ & Heq).
  cbv zeta in Heq. rewrite Heq. clear Heq.
  cbn [DestMAC SrcMAC EtherType VLAN TCI] in *.
  rewrite vec_to_list_fill in Hd, Hs by (apply length_slice; lia).
  destruct (leaves_MAC (slice b 0 6) anon Hleave) as (a1' & Hd' & Hl1 & _).
  rewrite Hd' in Hd. injection Hd as <- <-.
  destruct (leaves_MAC (slice b 6 6) a1' Hl1) as (a2' & Hs' & Hl2 & _).
  rewrite Hs' in Hs. injection Hs as <- <-.
  split; [|done]. cbn [st_b]. unfold EthHeader_Write.
  cbn [DestMAC SrcMAC EtherType VLAN TCI fst].
  rewrite !vec_to_list_fill by (apply length_slice; lia).
  rewrite PutUint_Uint_slice by lia. rewrite <- app_assoc.
  rewrite (slice_slice_app b 6 6 2 : slice b 6 6 ++ slice b 12 2 = slice b 6 8).
  rewrite (slice_slice_app b 0 6 8 : slice b 0 6 ++ slice b 6 8 = slice b 0 14).
  rewrite copy_short by (rewrite length_slice; lia).
  rewrite length_slice by lia. unfold slice. simpl. apply take_drop.
Qed.

Lemma Handle_left h b anon :
  all_leave anon →
  (h = EthHandler → Uint BigEndian (slice b 12 2) ≠ vlanEtherType) →
  match Handle h b anon with
  | Returned b' a' n err => b' = b ∧ all_leave a'
  | Panicked p => True
  end.
Proof.
  intros Hleave Htag. destruct h; simpl.
  - unfold EthHandler_Handle, run_handler, mbind, handler_bind.
    pose proof (eth_header_left b anon Hleave (Htag eq_refl)) as Hh.
    destruct (eth_header (mkH b anon 0)) as [eh s|e s|p]; [|done..].
    pose proof (eth_switch_left b (EtherType eh) s Hh) as Hsw.
    by destruct (eth_switch (EtherType eh) s) as [[] s'|e s'|p].
  - unfold Radiotap80211Handler_Handle, run_handler.
    destruct (RadiotapHeader_Read b) as [e|rh] eqn:Hrh.
    { unfold radiotap_handle. erewrite bind_next by reflexivity. cbn [st_b].
      by rewrite Hrh. }
    rewrite (radiotap_handle_cases b anon rh Hrh). cbv zeta.
    case_decide; [done|].
    destruct (b !! N.to_nat (Len rh)) as [fc|]; [|done].
    destruct (b !! S (N.to_nat (Len rh))) as [flags|]; [|done].
    pose proof (radiotap_fields_left b (parseFC fc).1.2 (parseFC fc).2
                  (parseFlags flags).1.1 (parseFlags flags).1.2 (parseFlags flags).2
                  (mkH b anon (N.to_nat (Len rh) + 1 + 1))) as Hf.
    specialize (Hf (conj eq_refl Hleave)).
    by destruct (radiotap_fields _ _ _ _ _ _) as [[] s'|e s'|p].
Qed.

(** X8. With every method [Leave], a handler gives the packet back byte for
    byte (and the methods stay [Leave]): the Radiotap handler always does,
    and so does the Ethernet handler on a frame that carries no VLAN tag.
    A panic can only come from the Radiotap handler. *)
Theorem Handle_leave_keeps_packet (h : Handler) (b : list byte)
    (anon : DefaultAnonymizer) :
  all_leave anon →
  (h = EthHandler → Uint BigEndian (slice b 12 2) ≠ vlanEtherType) →
  match Handle h b anon with
  | Returned b' a' n err => b' = b ∧ all_leave a'
  | Panicked p => h = Radiotap80211Handler
  end.
Proof.
  intros Hleave Htag.
  pose proof (Handle_left h b anon Hleave Htag) as Hkeep.
  pose proof (Handle_inv h b anon) as Hinv.
  by destruct (Handle h b anon).
Qed.

Lemma Handle_leave_keeps_packet_witness :
  let anon := NewDefaultAnonymizer Leave Leave Leave Leave count_stream in
  match Handle EthHandler frame_ihl5 anon with
  | Returned b' a' n err => b' = frame_ihl5 ∧ all_leave a'
  | Panicked p => EthHandler = Radiotap80211Handler
  end.
Proof.
  intros anon. apply (Handle_leave_keeps_packet EthHandler frame_ihl5 anon).
  - vm_compute. done.
  - intros _. vm_compute. done.
Defined.

(** The packet loop with every method [Leave], on Radiotap records and
    without truncation: what has been written followed by what is left to
    read stays the same. *)
Lemma run_packet_left order s s' :
  all_leave (ranon s) →
  run_packet Radiotap80211Handler order false s = inl s' →
  rout s' ++ rin s' = rout s ++ rin s ∧ all_leave (ranon s').
Proof.
  intros Hleave Hr.
  destruct (run_packet_inl_inv _ _ _ _ _ Hr)
    as (ph & b' & a' & n & _ & _ & _ & Hlen & HH & _ & _ & ->).
  pose proof (Handle_left Radiotap80211Handler
                (slice (rin s) 16 (N.to_nat (PLen ph))) (ranon s) Hleave) as Hk.
  rewrite HH in Hk. specialize (Hk ltac:(done)). destruct Hk as [-> Ha']. cbn [rout rin ranon].
  split; [|done]. rewrite <- !app_assoc. f_equal.
  unfold slice. rewrite app_assoc, take_take_drop. apply take_drop.
Qed.

Lemma run_loop_left fuel order s o :
  all_leave (ranon s) →
  run_loop fuel Radiotap80211Handler order false s = Some o →
  rout (run_state o) `prefix_of` rout s ++ rin s.
Proof.
  revert s. induction fuel as [|fuel IH]; intros s Hleave Hr; [done|].
  simpl in Hr.
  destruct (run_packet Radiotap80211Handler order false s) as [s'|o'] eqn:E.
  - apply run_packet_left in E as [<- Hl]; [|done]. by apply IH.
  - injection Hr as ->. apply run_packet_inr in E. rewrite E.
    by apply prefix_app_r.
Qed.

(** X9. With every method [Leave] and without truncation, the output of [run]
    on a capture of link type 127 is a prefix of its input: every byte
    written is the byte read at the same position, however the run ends. *)
Theorem run_leave_output_is_prefix (input : list byte) (anon : DefaultAnonymizer)
    (magic : N) (r : list byte) (order : ByteOrder) (gh : GlobalHeader)
    (r' : list byte) :
  all_leave anon →
  Magic_Read input = inr (magic, r) →
  Magic_ByteOrder magic = Some order →
  GlobalHeader_Read r order = inr (gh, r') →
  LinkLayer gh = 127%N →
  ∃ o, run input anon false = Some o ∧ rout (run_state o) `prefix_of` input.
Proof.
  intros Hleave Hm Ho Hg Hl.
  destruct (run_total input anon false) as [o Hrun]. exists o. split; [done|].
  unfold run in Hrun. rewrite Hm in Hrun.
  destruct (Magic_Read_inr _ _ _ Hm) as (Hlen & -> & order' & Ho' & Hw).
  rewrite Hw, Ho, Hg, Hl in Hrun.
  destruct (GlobalHeader_Read_inr _ _ _ _ Hg) as (Hlen' & -> & Hgw & _).
  change (Handlers !! 127%N) with (Some Radiotap80211Handler) in Hrun.
  cbv iota beta in Hrun. apply run_loop_left in Hrun; [|done].
  cbn [rout rin] in Hrun. rewrite Hgw in Hrun.
  by rewrite <- app_assoc, take_drop, take_drop in Hrun.
Qed.

Lemma run_leave_output_is_prefix_witness :
  let input := capture_radiotap x88 x03 30 in
  let anon := NewDefaultAnonymizer Leave Leave Leave Leave count_stream in
  ∃ o, run input anon false = Some o ∧ rout (run_state o) `prefix_of` input.
Proof.
  intros input anon.
  apply (run_leave_output_is_prefix input anon MagicLE (drop 4 input) LittleEndian
           (mkGlobalHeader 2 4 0 0 0xffff 127) (drop 24 input)).
  - vm_compute. done.
  - vm_compute. reflexivity.
  - vm_compute. reflexivity.
  - vm_compute. reflexivity.
  - reflexivity.
Defined.

(** ** The bytes after the offset *)

Lemma drop_eq_more (l l' : list byte) n x :
  drop n l = drop n l' → drop (n + x) l = drop (n + x) l'.
Proof. intros H. rewrite <- !drop_drop. by rewrite H. Qed.

Lemma drop_splice_after b lo x n :
  lo + length x ≤ n → lo + length x ≤ length b → drop n (splice b lo x) = drop n b.
Proof.
  intros Hn Hl. unfold splice. rewrite app_assoc.
  rewrite drop_app_ge by (rewrite length_app, length_take; lia).
  rewrite length_app, length_take, drop_drop. f_equal. lia.
Qed.

Lemma tail_slurp b x inc C :
  triple (tail_kept b 0) (slurp x inc)
    (λ _, tail_kept b (if inc then 0 else x)) (λ _, tail_kept b 0) C.
Proof.
  intros s [Hl Hd]. unfold slurp. case_decide; [done|].
  rewrite Nat.add_0_r in Hd. destruct inc; (split; [done|]); simpl.
  - rewrite Nat.add_0_r. by apply drop_eq_more.
  - by apply drop_eq_more.
Qed.

Lemma tail_anon_at b k F off len E :
  takes F len → off + len ≤ k →
  triple (tail_kept b k) (anon_at F off len) (λ _, tail_kept b k) E (λ _, True).
Proof.
  intros HF Hk s [Hl Hd]. unfold anon_at. cbv zeta. case_decide as Hb; [|done].
  destruct (HF (slice (st_b s) (st_n s + off) len) (st_anon s))
    as (x & a' & -> & Hx & _); [apply length_slice; lia|].
  split; simpl.
  - rewrite length_splice; lia.
  - rewrite drop_splice_after by lia. done.
Qed.

Lemma tail_advance b k E C :
  triple (tail_kept b k) (advance k) (λ _, tail_kept b 0) E C.
Proof. intros s [Hl Hd]. split; simpl; [done|]. by rewrite Nat.add_0_r. Qed.

Lemma tail_byte_at b i E :
  triple (tail_kept b 0) (byte_at i) (λ _, tail_kept b 0) E (λ _, True).
Proof. intros s Hs. unfold byte_at. by destruct (st_b s !! i). Qed.

Lemma arp_pair_tail b :
  triple (tail_kept b 0) arp_pair (λ _, tail_kept b 0) (λ _, tail_kept b 0)
    (λ _, True).
Proof.
  unfold arp_pair.
  triple_step ltac:(apply tail_slurp).
  eapply triple_bind; [apply triple_hget|]. intros s0. cbv beta.
  eapply triple_bind with (R := λ _, tail_kept b 6).
  { destruct (isAllZeroes _).
    - apply triple_ret. by intros s [_ Hs].
    - eapply triple_weaken;
        [apply (tail_anon_at b 6 MAC 0 6 (λ _, tail_kept b 0));
           [apply takes_MAC | lia]|..];
        try done.
      by intros s [_ Hs]. }
  intros ?. cbv beta.
  triple_step ltac:(apply tail_advance).
  triple_step ltac:(apply tail_slurp).
  triple_step ltac:(apply tail_anon_at; [apply takes_IPv4 | simpl; lia]).
  apply tail_advance.
Qed.

Lemma eth_switch_tail b etherType :
  triple (tail_kept b 0) (eth_switch etherType) (λ _, tail_kept b 0)
    (λ _, tail_kept b 0) (λ _, True).
Proof.
  unfold eth_switch. repeat case_decide.
  - triple_step ltac:(apply tail_slurp).
    apply triple_repeat, arp_pair_tail.
  - triple_step ltac:(apply tail_slurp).
    triple_step ltac:(apply tail_anon_at; [apply takes_IPv4 | simpl; lia]).
    triple_step ltac:(apply tail_anon_at; [apply takes_IPv4 | simpl; lia]).
    triple_step ltac:(apply tail_advance).
    triple_step ltac:(apply tail_byte_at).
    cbv zeta. case_decide; [apply (tail_slurp b _ true) | by apply triple_ret].
  - triple_step ltac:(apply tail_slurp).
    triple_step ltac:(apply tail_anon_at; [apply takes_IPv6 | simpl; lia]).
    triple_step ltac:(apply tail_anon_at; [apply takes_IPv6 | simpl; lia]).
    apply tail_advance.
  - by apply triple_ret.
Qed.

Lemma mac_field_tail b :
  triple (tail_kept b 0) mac_field (λ _, tail_kept b 0) (λ _, tail_kept b 0)
    (λ _, True).
Proof.
  unfold mac_field.
  triple_step ltac:(apply tail_slurp).
  triple_step ltac:(apply tail_anon_at; [apply takes_MAC | simpl; lia]).
  apply tail_advance.
Qed.

Lemma radiotap_fields_tail b typ styp tods fromds order :
  triple (tail_kept b 0) (radiotap_fields typ styp tods fromds order)
    (λ _, tail_kept b 0) (λ _, tail_kept b 0) (λ _, True).
Proof.
  unfold radiotap_fields.
  triple_step ltac:(apply (tail_slurp b _ true)).
  eapply triple_bind with (R := λ _, tail_kept b 0).
  { eapply triple_weaken;
      [apply (count_macs_safe (tail_kept b 0) typ styp (λ _, tail_kept b 0))|..];
      done. }
  intros nmacs. cbv beta.
  triple_step ltac:(apply triple_repeat, mac_field_tail).
  eapply triple_bind with (R := λ _, tail_kept b 0).
  { case_decide; [apply (tail_slurp b _ true) | by apply triple_ret]. }
  intros ?. cbv beta.
  eapply triple_bind with (R := λ _, tail_kept b 0).
  { destruct (_ && _); [apply mac_field_tail | by apply triple_ret]. }
  intros ?. cbv beta zeta.
  eapply triple_bind with (R := λ _, tail_kept b 0).
  { destruct (_ && _); [apply (tail_slurp b _ true) | by apply triple_ret]. }
  intros ?. cbv beta.
  eapply triple_bind with (R := λ _, tail_kept b 0).
  { destruct (_ && _); [apply (tail_slurp b _ true) | by apply triple_ret]. }
  intros ?. cbv beta.
  destruct (_ || _); [apply (tail_slurp b _ true) | by apply triple_ret].
Qed.

Lemma eth_header_tail b anon :
  match eth_header (mkH b anon 0) with
  | Next _ s | Stop _ s => tail_kept b 0 s
  | Crash _ => True
  end.
Proof.
  destruct (EthHeader_Read b) as [e|eh] eqn:Hrd.
  { unfold eth_header. erewrite bind_next by reflexivity. cbn [st_b].
    by rewrite Hrd. }
  destruct (eth_header_next b anon eh Hrd)
    as (dst & a1 & src & a2 & _ & _ & _ & _ & Heq).
  cbv zeta in Heq. pose proof Heq as Hinv%eth_header_inv. rewrite Heq.
  destruct Hinv as (_ & Hn & Hl & Hsl). split; [done|].
  rewrite Nat.add_0_r. specialize (Hsl _ (length b) (Nat.le_refl _)).
  unfold slice in Hsl.
  by rewrite !take_ge in Hsl by (rewrite length_drop; lia).
Qed.

(** X10. Whenever a handler returns, with or without an error, the bytes of the
    packet from the returned offset [n] on are the bytes it was given:
    everything a handler changes lies before [n]. *)
Theorem Handle_keeps_tail (h : Handler) (b : list byte) (anon : DefaultAnonymizer)
    (b' : list byte) (a' : DefaultAnonymizer) (n : nat) (err : option error) :
  Handle h b anon = Returned b' a' n err →
  drop n b' = drop n b.
Proof.
  assert (Hfin : ∀ r : hres unit,
            match r with Next _ s | Stop _ s => tail_kept b 0 s | Crash _ => True end →
            finish r = Returned b' a' n err → drop n b' = drop n b).
  { intros [[] s|e s|p] Hs; simpl; intros [= <- <- <- <-]; destruct Hs as [_ Hd];
      by rewrite Nat.add_0_r in Hd. }
  assert (H0 : ∀ k, tail_kept b 0 (mkH b anon k)) by done.
  destruct h; simpl.
  - unfold EthHandler_Handle, run_handler. apply Hfin.
    unfold mbind, handler_bind.
    pose proof (eth_header_tail b anon) as Hh.
    destruct (eth_header (mkH b anon 0)) as [eh s|e s|p]; [|done..].
    exact (eth_switch_tail b (EtherType eh) s Hh).
  - unfold Radiotap80211Handler_Handle, run_handler. apply Hfin.
    destruct (RadiotapHeader_Read b) as [e|rh] eqn:Hrh.
    { unfold radiotap_handle. erewrite bind_next by reflexivity. cbn [st_b].
      by rewrite Hrh. }
    rewrite (radiotap_handle_cases b anon rh Hrh). cbv zeta.
    case_decide; [done|].
    destruct (b !! N.to_nat (Len rh)) as [fc|]; [|done].
    destruct (b !! S (N.to_nat (Len rh))) as [flags|]; [|done].
    apply radiotap_fields_tail, H0.
Qed.

Lemma Handle_keeps_tail_witness :
  let anon := NewDefaultAnonymizer Encrypt Encrypt Encrypt Encrypt count_stream in
  ∃ b' a' n err,
    Handle EthHandler frame_ihl6 anon = Returned b' a' n err ∧
    drop n b' = drop n frame_ihl6.
Proof.
  intros anon. eexists _, _, _, _. split; [vm_compute; reflexivity|].
  eapply (Handle_keeps_tail EthHandler frame_ihl6 anon).
  vm_compute. reflexivity.
Defined.

(** ** Every method [Encrypt] *)

Lemma xor_bytes_cancel b k : length k = length b → xor_bytes (xor_bytes b k) k = b.
Proof.
  revert k. induction b as [|x b IH]; intros [|y k]; simpl; try done.
  intros [= Hk]. by rewrite xor_byte_cancel, IH.
Qed.

Lemma xor_bytes_app b1 b2 k1 k2 :
  length b1 = length k1 →
  xor_bytes (b1 ++ b2) (k1 ++ k2) = xor_bytes b1 k1 ++ xor_bytes b2 k2.
Proof. intros. by apply zip_with_app. Qed.

Lemma segment_app s n m :
  segment s (n + m)
  = segment s n ++ segment (mkStream (keystream s) (cursor s + n)) m.
Proof. unfold segment. simpl. by rewrite seq_app, fmap_app. Qed.

(** [MAC] with both halves encrypted is one XOR over the whole slice. *)
Lemma MAC_encrypt b a :
  all_encrypt a → 3 ≤ length b →
  MAC b a
  = Some (xor_bytes b (segment (scipher a) (length b)),
          mkAnon (macOUI a) (macNIC a) (ipv4 a) (ipv6 a)
            (mkStream (keystream (scipher a)) (cursor (scipher a) + length b))
            (ouiMap a) (nicMap a) (ipv4Map a) (ipv6Map a)
            (incr64 (nmac a)) (nipv4 a) (nipv6 a)).
Proof.
  intros (H1 & H2 & _ & _) Hlen. unfold MAC. rewrite H1, H2.
  unfold slice_to, slice_from, anonymize, XORKeyStream.
  rewrite decide_True by done. cbn [mbind option_bind].
  set (oui := xor_bytes (take 3 b) _).
  assert (Ho : length oui = 3).
  { unfold oui. rewrite length_xor_bytes; rewrite length_take; [lia|].
    rewrite length_segment. lia. }
  rewrite decide_True by (rewrite length_app, length_drop; lia).
  cbn [mbind option_bind].
  rewrite take_app_length', drop_app_length' by done.
  rewrite length_take, length_drop, Nat.min_l by lia.
  f_equal. f_equal.
  - assert (Hseg : segment (scipher a) (length b)
                   = segment (scipher a) 3
                     ++ segment (mkStream (keystream (scipher a))
                                   (cursor (scipher a) + 3)) (length b - 3)).
    { rewrite <- segment_app. f_equal. lia. }
    rewrite Hseg. unfold oui. rewrite length_take, Nat.min_l by lia.
    rewrite <- xor_bytes_app by (rewrite length_take, length_segment; lia).
    by rewrite take_drop.
  - simpl. f_equal. f_equal. lia.
Qed.

Lemma MAC_short b a :
  macOUI a ≠ Leave → length b < 3 → MAC b a = None.
Proof.
  intros Hm Hlen. unfold MAC, slice_to. rewrite decide_False by lia.
  by destruct (macOUI a).
Qed.

(** With every method [Encrypt] a call XORs the slice with the keystream at
    the cursor; the state it leaves depends on the length of the slice
    only. *)
Lemma do_call_encrypt c a out a' :
  all_encrypt a → do_call c a = Some (out, a') →
  out = xor_bytes (call_input c) (segment (scipher a) (length (call_input c))) ∧
  all_encrypt a' ∧
  ∀ x, length x = length (call_input c) →
    do_call (with_input c x) a
    = Some (xor_bytes x (segment (scipher a) (length x)), a').
Proof.
  intros Henc Hc. pose proof Henc as (H1 & H2 & H3 & H4).
  destruct c as [b|b|b]; simpl in *.
  - destruct (decide (3 ≤ length b)) as [Hlen|Hlen]; cycle 1.
    { rewrite MAC_short in Hc; [done| |lia]. by rewrite H1. }
    rewrite MAC_encrypt in Hc by done. injection Hc as <- <-.
    split; [done|]. split; [done|]. intros x Hx.
    rewrite MAC_encrypt by (done || lia). by rewrite Hx.
  - unfold IPv4, anonymize, XORKeyStream in *. rewrite H3 in *.
    cbn [mbind option_bind] in *. injection Hc as <- <-.
    split; [done|]. split; [done|]. intros x Hx. by rewrite Hx.
  - unfold IPv6, anonymize, XORKeyStream in *. rewrite H4 in *.
    cbn [mbind option_bind] in *. injection Hc as <- <-.
    split; [done|]. split; [done|]. intros x Hx. by rewrite Hx.
Qed.

Lemma do_call_length c a out a' :
  do_call c a = Some (out, a') → length out = length (call_input c).
Proof. intros Hc. by apply (do_call_inv OUI) in Hc as [? _]. Qed.

(** X11. Encrypting twice from the same state of the stream gives the original
    back: the calls of a run, made again on the outputs of the run from the
    state the run started in, return the original slices and end in the
    same state. *)
Theorem encrypt_twice_is_identity (cs : list call) (a : DefaultAnonymizer)
    (outs : list (list byte)) (a' : DefaultAnonymizer) :
  all_encrypt a →
  run_calls cs a = Some (outs, a') →
  run_calls (zip_with with_input cs outs) a = Some (call_input <$> cs, a').
Proof.
  revert a outs. induction cs as [|c cs IH]; intros a outs Henc Hr; simpl in Hr.
  { by injection Hr as <- <-. }
  destruct (do_call c a) as [[out a1]|] eqn:Ec; [|done].
  cbn [mbind option_bind] in Hr.
  destruct (run_calls cs a1) as [[outs1 a2]|] eqn:Er; [|done].
  cbn [mbind option_bind] in Hr. injection Hr as <- <-.
  destruct (do_call_encrypt c a out a1 Henc Ec) as (Hout & Henc1 & Hagain).
  pose proof (do_call_length _ _ _ _ Ec) as Hlen.
  simpl. rewrite (Hagain out Hlen). cbn [mbind option_bind].
  rewrite (IH a1 outs1 Henc1 Er). cbn [mbind option_bind].
  do 3 f_equal. rewrite Hout at 1. rewrite Hlen.
  apply xor_bytes_cancel, length_segment.
Qed.

Lemma encrypt_twice_is_identity_witness :
  let a := NewDefaultAnonymizer Encrypt Encrypt Encrypt Encrypt count_stream in
  let cs := [CallMAC [x02; x00; x00; x00; x00; x01]; CallIPv4 [x0a; x00; x00; x01];
             CallIPv6 (replicate 16 xfe)] in
  ∃ outs a',
    run_calls cs a = Some (outs, a') ∧
    run_calls (zip_with with_input cs outs) a = Some (call_input <$> cs, a').
Proof.
  intros a cs. eexists _, _. split; [vm_compute; reflexivity|].
  apply (encrypt_twice_is_identity cs a).
  - vm_compute. done.
  - vm_compute. reflexivity.
Defined.

(** ** The small helpers *)

(** X12. [parseFC] splits the frame control byte into its three bit fields:
    version (2 bits), type (2 bits) and subtype (4 bits), from the low end,
    which together make up the byte.  [parseFlags] returns bits 0, 1 and 7
    of the flags byte. *)
Theorem parseFC_parseFlags_fields (x : byte) :
  (let '(ver, typ, styp) := parseFC x in
   byte_val x = (ver + 4 * typ + 16 * styp)%N ∧
   (ver < 4)%N ∧ (typ < 4)%N ∧ (styp < 16)%N) ∧
  parseFlags x
  = (N.testbit (byte_val x) 0, N.testbit (byte_val x) 1, N.testbit (byte_val x) 7).
Proof. destruct x; vm_compute; repeat split. Qed.

Lemma vec_to_list_fill_short w (b : list byte) :
  length b ≤ w → vec_to_list (fill w b) = b ++ replicate (w - length b) x00.
Proof.
  revert b. induction w as [|w IH]; intros [|x b] Hlen; simpl in *; try done.
  - lia.
  - f_equal. rewrite (IH []) by (simpl; lia). simpl. by rewrite Nat.sub_0_r.
  - f_equal. apply IH. lia.
Qed.

(** X13. [toArray3], [toArray4] and [toArray16] panic on a slice longer than the
    array; a shorter slice is padded with zeroes.  [toSlice3], [toSlice4]
    and [toSlice16] panic on a slice shorter than the array, and otherwise
    overwrite the start of the slice.  On a slice of the size of the array
    the one undoes the other, both ways. *)
Theorem toArray_toSlice (w : nat) (b : list byte) (a : vec byte w) :
  (toArray w b = None ↔ w < length b) ∧
  (∀ v, toArray w b = Some v →
        vec_to_list v = b ++ replicate (w - length b) x00) ∧
  (toSlice w b a = None ↔ length b < w) ∧
  (∀ b', toSlice w b a = Some b' →
         length b' = length b ∧ take w b' = vec_to_list a ∧ drop w b' = drop w b) ∧
  (length b = w →
   (∃ v, toArray w b = Some v ∧ toSlice w b v = Some b) ∧
   (∃ b', toSlice w b a = Some b' ∧ toArray w b' = Some a)).
Proof.
  unfold toArray, toSlice. split; [|split; [|split; [|split]]].
  - case_decide; split; try done; lia.
  - intros v. case_decide; [|done]. intros [= <-]. by apply vec_to_list_fill_short.
  - case_decide; split; try done; lia.
  - intros b'. case_decide; [|done]. intros [= <-].
    rewrite length_app, length_vec_to_list, length_drop.
    split; [lia|].
    by rewrite take_app_length', drop_app_length' by (by rewrite length_vec_to_list).
  - intros Hlen. split.
    + eexists. rewrite !decide_True by lia. split; [done|].
      rewrite vec_to_list_fill by done.
      by rewrite drop_ge, app_nil_r by lia.
    + eexists. rewrite decide_True by lia. split; [done|].
      rewrite drop_ge, app_nil_r by lia.
      rewrite decide_True by (rewrite length_vec_to_list; lia).
      by rewrite fill_vec_to_list.
Qed.

(** X14. [isAllZeroes] is true exactly of the slices that hold nothing but zero
    bytes, the empty slice among them. *)
Theorem isAllZeroes_spec (b : list byte) :
  isAllZeroes b = true ↔ b = replicate (length b) x00.
Proof.
  induction b as [|x b IH]; simpl; [done|].
  case_decide as Hx.
  - subst x. rewrite IH. split; [by intros <- | by intros [= <-]].
  - split; [done | by intros [= ? _]].
Qed.

(** ** The address fields of IP packets *)

(** X15. An IPv6 packet long enough for the 40 bytes of the fixed header, [h]
    being the offset the header part leaves (14, or 18 with a VLAN tag):
    [Handle] returns [h + 40] without error; the source address (offsets
    [h+8] to [h+24]) and then the destination address (offsets [h+24] to
    [h+40]) are what [anon.IPv6] makes of them, in that order; the first 8
    bytes of the IP header and everything from [h + 40] on are as the
    header part left them. *)
Theorem eth_ipv6_addresses (b : list byte) (anon : DefaultAnonymizer)
    (eh : EthHeader) (s : hstate) :
  eth_header (mkH b anon 0) = Next eh s →
  EtherType eh = ipv6EtherType →
  st_n s + 40 ≤ length b →
  let h := st_n s in
  ∃ b' a1 a',
    EthHandler_Handle b anon = Returned b' a' (h + 40) None ∧
    length b' = length b ∧
    slice b' h 8 = slice b h 8 ∧
    IPv6 (slice b (h + 8) 16) (st_anon s) = Some (slice b' (h + 8) 16, a1) ∧
    IPv6 (slice b (h + 24) 16) a1 = Some (slice b' (h + 24) 16, a') ∧
    drop (h + 40) b' = drop (h + 40) b.
Proof.
  intros Hh Het Hlen h. subst h.
  destruct (eth_header_inv b anon eh s Hh) as (Hn & _ & Hlb & Hsl).
  unfold EthHandler_Handle, run_handler.
  erewrite bind_next by exact Hh. rewrite Het.
  unfold eth_switch. rewrite !decide_False by done. rewrite decide_True by done.
  rewrite (bind_next _ _ s () s) by (by rewrite slurp_next by lia).
  destruct (IPv6_spec (slice (st_b s) (st_n s + 8) 16) (st_anon s))
    as (x1 & s1 & m1 & _ & Hl1 & HI1); [apply length_slice; lia|].
  erewrite bind_next by (apply anon_at_next; [lia | exact HI1]).
  set (b1 := splice (st_b s) (st_n s + 8) x1).
  set (a1 := mkAnon _ _ _ _ _ _ _ _ _ _ _ _) in *.
  assert (Hlb1 : length b1 = length b) by (unfold b1; rewrite length_splice; lia).
  destruct (IPv6_spec (slice b1 (st_n s + 24) 16) a1)
    as (x2 & s2 & m2 & _ & Hl2 & HI2); [apply length_slice; lia|].
  erewrite bind_next by (apply anon_at_next; cbn [st_n st_b st_anon]; [lia | exact HI2]).
  cbn [st_n st_b st_anon]. set (b2 := splice b1 (st_n s + 24) x2).
  assert (Hlb2 : length b2 = length b) by (unfold b2; rewrite length_splice; lia).
  exists b2, a1. eexists. split; [done|]. split; [done|].
  assert (E0 : slice b2 (st_n s) 8 = slice b (st_n s) 8).
  { unfold b2. rewrite slice_splice_before by lia.
    unfold b1. rewrite slice_splice_before by lia. apply Hsl. lia. }
  assert (E1 : slice b2 (st_n s + 8) 16 = x1).
  { unfold b2. rewrite slice_splice_before by lia.
    unfold b1. rewrite <- Hl1. apply slice_splice_same. lia. }
  assert (E2 : slice b2 (st_n s + 24) 16 = x2).
  { unfold b2. rewrite <- Hl2. apply slice_splice_same. lia. }
  assert (I2 : slice b1 (st_n s + 24) 16 = slice b (st_n s + 24) 16).
  { unfold b1. rewrite slice_splice_after by lia. apply Hsl. lia. }
  rewrite E0, E1, E2. rewrite Hsl in HI1 by lia. rewrite I2 in HI2.
  split; [done|]. split; [done|]. split; [done|].
  unfold b2. rewrite drop_splice_after by lia.
  unfold b1. rewrite drop_splice_after by lia.
  specialize (Hsl (st_n s + 40) (length b) ltac:(lia)). unfold slice in Hsl.
  by rewrite !take_ge in Hsl by (rewrite length_drop; lia).
Qed.

Lemma eth_ipv6_addresses_witness :
  let anon := NewDefaultAnonymizer Leave Leave Leave Encrypt count_stream in
  let s := mkH frame_ipv6
             (mkAnon Leave Leave Leave Encrypt count_stream ∅ ∅ ∅ ∅ 2 0 0) 14 in
  ∃ b' a1 a',
    EthHandler_Handle frame_ipv6 anon = Returned b' a' (14 + 40) None ∧
    length b' = length frame_ipv6 ∧
    slice b' 14 8 = slice frame_ipv6 14 8 ∧
    IPv6 (slice frame_ipv6 (14 + 8) 16) (st_anon s) = Some (slice b' (14 + 8) 16, a1) ∧
    IPv6 (slice frame_ipv6 (14 + 24) 16) a1 = Some (slice b' (14 + 24) 16, a') ∧
    drop (14 + 40) b' = drop (14 + 40) frame_ipv6.
Proof.
  intros anon s.
  apply (eth_ipv6_addresses frame_ipv6 anon
           (mkEthHeader (fill 6 (slice frame_ipv6 0 6)) (fill 6 (slice frame_ipv6 6 6))
              ipv6EtherType false 0) s).
  - vm_compute. reflexivity.
  - reflexivity.
  - vm_compute. lia.
Defined.

(** X16. An IPv4 packet long enough for the 20 bytes of the fixed header, [h]
    being the offset the header part leaves: the source address (offsets
    [h+12] to [h+16]) and then the destination address (offsets [h+16] to
    [h+20]) are what [anon.IPv4] makes of them, in that order, whether or
    not the options then make [Handle] fail; the first 12 bytes of the IP
    header and everything from [h + 20] on (options and payload) are as the
    header part left them, and the offset returned is at least [h + 20]. *)
Theorem eth_ipv4_addresses (b : list byte) (anon : DefaultAnonymizer)
    (eh : EthHeader) (s : hstate) :
  eth_header (mkH b anon 0) = Next eh s →
  EtherType eh = ipv4EtherType →
  st_n s + 20 ≤ length b →
  let h := st_n s in
  ∃ b' a1 a' n err,
    EthHandler_Handle b anon = Returned b' a' n err ∧
    h + 20 ≤ n ∧
    length b' = length b ∧
    slice b' h 12 = slice b h 12 ∧
    IPv4 (slice b (h + 12) 4) (st_anon s) = Some (slice b' (h + 12) 4, a1) ∧
    IPv4 (slice b (h + 16) 4) a1 = Some (slice b' (h + 16) 4, a') ∧
    drop (h + 20) b' = drop (h + 20) b.
Proof.
  intros Hh Het Hlen h. subst h.
  destruct (eth_header_inv b anon eh s Hh) as (Hn & _ & Hlb & Hsl).
  unfold EthHandler_Handle, run_handler.
  erewrite bind_next by exact Hh. rewrite Het.
  unfold eth_switch. rewrite decide_False by done. rewrite decide_True by done.
  rewrite (bind_next _ _ s () s) by (by rewrite slurp_next by lia).
  destruct (IPv4_spec (slice (st_b s) (st_n s + 12) 4) (st_anon s))
    as (x1 & s1 & m1 & _ & Hl1 & HI1); [apply length_slice; lia|].
  erewrite bind_next by (apply anon_at_next; [lia | exact HI1]).
  set (b1 := splice (st_b s) (st_n s + 12) x1).
  set (a1 := mkAnon _ _ _ _ _ _ _ _ _ _ _ _) in *.
  assert (Hlb1 : length b1 = length b) by (unfold b1; rewrite length_splice; lia).
  destruct (IPv4_spec (slice b1 (st_n s + 16) 4) a1)
    as (x2 & s2 & m2 & _ & Hl2 & HI2); [apply length_slice; lia|].
  erewrite bind_next by (apply anon_at_next; cbn [st_n st_b st_anon]; [lia | exact HI2]).
  cbn [st_n st_b st_anon]. set (b2 := splice b1 (st_n s + 16) x2).
  assert (Hlb2 : length b2 = length b) by (unfold b2; rewrite length_splice; lia).
  erewrite bind_next by reflexivity.
  destruct (lookup_lt_is_Some_2 b2 0) as [b0 Hb0]; [lia|].
  erewrite bind_next by (unfold byte_at; cbn [st_b]; by rewrite Hb0).
  assert (E0 : slice b2 (st_n s) 12 = slice b (st_n s) 12).
  { unfold b2. rewrite slice_splice_before by lia.
    unfold b1. rewrite slice_splice_before by lia. apply Hsl. lia. }
  assert (E1 : slice b2 (st_n s + 12) 4 = x1).
  { unfold b2. rewrite slice_splice_before by lia.
    unfold b1. rewrite <- Hl1. apply slice_splice_same. lia. }
  assert (E2 : slice b2 (st_n s + 16) 4 = x2).
  { unfold b2. rewrite <- Hl2. apply slice_splice_same. lia. }
  assert (I2 : slice b1 (st_n s + 16) 4 = slice b (st_n s + 16) 4).
  { unfold b1. rewrite slice_splice_after by lia. apply Hsl. lia. }
  assert (ED : drop (st_n s + 20) b2 = drop (st_n s + 20) b).
  { unfold b2. rewrite drop_splice_after by lia.
    unfold b1. rewrite drop_splice_after by lia.
    specialize (Hsl (st_n s + 20) (length b) ltac:(lia)). unfold slice in Hsl.
    by rewrite !take_ge in Hsl by (rewrite length_drop; lia). }
  rewrite Hsl in HI1 by lia. rewrite I2 in HI2.
  assert (Hres : ∃ n err,
            finish ((if decide (5 < N.to_nat (N.land (byte_val b0) 15))
                     then slurp ((N.to_nat (N.land (byte_val b0) 15) - 5) * 4) true
                     else mret ())
                      (mkH b2 (mkAnon (macOUI a1) (macNIC a1) (ipv4 a1) (ipv6 a1) s2
                                 (ouiMap a1) (nicMap a1) m2 (ipv6Map a1) (nmac a1)
                                 (incr64 (nipv4 a1)) (nipv6 a1))
                         (st_n s + 20)))
            = Returned b2 (mkAnon (macOUI a1) (macNIC a1) (ipv4 a1) (ipv6 a1) s2
                             (ouiMap a1) (nicMap a1) m2 (ipv6Map a1) (nmac a1)
                             (incr64 (nipv4 a1)) (nipv6 a1)) n err ∧
            st_n s + 20 ≤ n).
  { case_decide; [|by eexists _, _].
    unfold slurp. cbn [st_n st_b st_anon]. case_decide; eexists _, _; simpl;
      (split; [reflexivity|lia]). }
  destruct Hres as (n & err & Hres & Hge).
  exists b2, a1. eexists. exists n, err. split; [exact Hres|].
  rewrite E0, E1, E2. done.
Qed.

Lemma eth_ipv4_addresses_witness :
  let anon := NewDefaultAnonymizer Leave Leave Encrypt Leave count_stream in
  let s := mkH frame_ihl6
             (mkAnon Leave Leave Encrypt Leave count_stream ∅ ∅ ∅ ∅ 2 0 0) 14 in
  ∃ b' a1 a' n err,
    EthHandler_Handle frame_ihl6 anon = Returned b' a' n err ∧
    14 + 20 ≤ n ∧
    length b' = length frame_ihl6 ∧
    slice b' 14 12 = slice frame_ihl6 14 12 ∧
    IPv4 (slice frame_ihl6 (14 + 12) 4) (st_anon s) = Some (slice b' (14 + 12) 4, a1) ∧
    IPv4 (slice frame_ihl6 (14 + 16) 4) a1 = Some (slice b' (14 + 16) 4, a') ∧
    drop (14 + 20) b' = drop (14 + 20) frame_ihl6.
Proof.
  intros anon s.
  apply (eth_ipv4_addresses frame_ihl6 anon
           (mkEthHeader (fill 6 (slice frame_ihl6 0 6)) (fill 6 (slice frame_ihl6 6 6))
              ipv4EtherType false 0) s).
  - vm_compute. reflexivity.
  - reflexivity.
  - vm_compute. lia.
Defined.

(** X17. An untagged frame whose EtherType is none of ARP, IPv4 and IPv6: the
    handler anonymizes the destination address and then the source address
    of the Ethernet header and nothing else, and returns 14 without
    error. *)
Theorem eth_other_ethertype (b : list byte) (anon : DefaultAnonymizer) :
  14 ≤ length b →
  let et := Uint BigEndian (slice b 12 2) in
  et ≠ vlanEtherType → et ≠ arpEtherType → et ≠ ipv4EtherType →
  et ≠ ipv6EtherType →
  ∃ dst a1 src a2,
    MAC (slice b 0 6) anon = Some (dst, a1) ∧
    MAC (slice b 6 6) a1 = Some (src, a2) ∧
    EthHandler_Handle b anon = Returned (dst ++ src ++ drop 12 b) a2 14 None.
Proof.
  intros Hlen et Hvlan Harp Hv4 Hv6.
  pose proof (EthHeader_Read_untagged b Hlen Hvlan) as Hrd. fold et in Hrd.
  destruct (eth_header_next b anon _ Hrd)
    as (dst & a1 & src & a2 & Hd & Hs & Hld & Hls & Heq).
  cbn [DestMAC SrcMAC EtherType VLAN TCI] in Hd, Hs, Heq.
  rewrite vec_to_list_fill in Hd, Hs by (apply length_slice; lia).
  exists dst, a1, src, a2. split; [done|]. split; [done|].
  unfold EthHandler_Handle, run_handler. cbv zeta in Heq.
  erewrite bind_next by exact Heq. cbn [EtherType].
  unfold eth_switch. rewrite !decide_False by done.
  unfold EthHeader_Write. cbn [DestMAC SrcMAC EtherType VLAN TCI fst snd].
  rewrite !vec_to_list_fill by done.
  unfold et. rewrite PutUint_Uint_slice by lia.
  rewrite copy_short by (rewrite !length_app, length_slice; lia).
  simpl. f_equal. rewrite <- !app_assoc. do 2 f_equal.
  rewrite !length_app, length_slice by lia. rewrite Hld, Hls.
  unfold slice. rewrite <- (take_drop 2 (drop 12 b)) at 2.
  by rewrite drop_drop.
Qed.

Lemma eth_other_ethertype_witness :
  let anon := NewDefaultAnonymizer Encrypt Encrypt Encrypt Encrypt count_stream in
  ∃ dst a1 src a2,
    MAC (slice frame_lldp 0 6) anon = Some (dst, a1) ∧
    MAC (slice frame_lldp 6 6) a1 = Some (src, a2) ∧
    EthHandler_Handle frame_lldp anon
    = Returned (dst ++ src ++ drop 12 frame_lldp) a2 14 None.
Proof.
  intros anon. apply (eth_other_ethertype frame_lldp anon).
  - vm_compute. lia.
  - vm_compute. discriminate.
  - vm_compute. discriminate.
  - vm_compute. discriminate.
  - vm_compute. discriminate.
Defined.

(** ** Management and Data frames *)

Lemma take_splice_before b lo x n :
  n ≤ lo → lo ≤ length b → take n (splice b lo x) = take n b.
Proof.
  intros Hn Hl. unfold splice.
  rewrite take_app_le by (rewrite length_take; lia).
  rewrite take_take. f_equal. lia.
Qed.

(** X18. A Management frame in a payload long enough for its fields, [l] being
    the length the Radiotap header declares: [Handle] returns [l + 24], or
    [l + 28] when the order flag is set (HT control), without error.  The
    three addresses, at offsets [l+4], [l+10] and [l+16], are what
    [anon.MAC] makes of them, in that order; the bytes before the first
    address and from the end of the third on are unchanged. *)
Theorem radiotap_management_frame (b : list byte) (anon : DefaultAnonymizer)
    (rh : RadiotapHeader) (fc flags : byte) :
  RadiotapHeader_Read b = inr rh →
  b !! N.to_nat (Len rh) = Some fc →
  b !! S (N.to_nat (Len rh)) = Some flags →
  (parseFC fc).1.2 = typeMgmt →
  let l := N.to_nat (Len rh) in
  let n := l + 24 + (if (parseFlags flags).2 then 4 else 0) in
  n ≤ length b →
  ∃ b' a1 a2 a',
    Radiotap80211Handler_Handle b anon = Returned b' a' n None ∧
    MAC (slice b (l + 4) 6) anon = Some (slice b' (l + 4) 6, a1) ∧
    MAC (slice b (l + 10) 6) a1 = Some (slice b' (l + 10) 6, a2) ∧
    MAC (slice b (l + 16) 6) a2 = Some (slice b' (l + 16) 6, a') ∧
    take (l + 4) b' = take (l + 4) b ∧
    drop (l + 22) b' = drop (l + 22) b.
Proof.
  intros Hrh Hfc Hflags Htyp l n Hn.
  assert (Hl24 : l + 24 ≤ length b) by (unfold n in Hn; lia).
  unfold Radiotap80211Handler_Handle, run_handler.
  rewrite (radiotap_handle_fields _ _ rh fc flags) by done.
  rewrite Htyp. fold l. unfold radiotap_fields.
  erewrite bind_next by (apply slurp_next; simpl; lia).
  cbn [st_b st_n st_anon]. replace (l + 1 + 1 + 2) with (l + 4) by lia.
  change (count_macs typeMgmt (parseFC fc).2) with (mret (M := handler) 3).
  erewrite bind_next by reflexivity. cbn [repeat_h].
  destruct (mac_field_next (mkH b anon (l + 4)))
    as (x1 & a1 & HM1 & Hx1 & _ & Hs1); [simpl; lia|].
  cbn [st_b st_n st_anon] in HM1, Hs1.
  set (b1 := splice b (l + 4) x1) in *.
  assert (Hlb1 : length b1 = length b) by (unfold b1; rewrite length_splice; lia).
  destruct (mac_field_next (mkH b1 a1 (l + 4 + 6)))
    as (x2 & a2 & HM2 & Hx2 & _ & Hs2); [simpl; lia|].
  cbn [st_b st_n st_anon] in HM2, Hs2.
  set (b2 := splice b1 (l + 4 + 6) x2) in *.
  assert (Hlb2 : length b2 = length b) by (unfold b2; rewrite length_splice; lia).
  destruct (mac_field_next (mkH b2 a2 (l + 4 + 6 + 6)))
    as (x3 & a3 & HM3 & Hx3 & _ & Hs3); [simpl; lia|].
  cbn [st_b st_n st_anon] in HM3, Hs3.
  set (b3 := splice b2 (l + 4 + 6 + 6) x3) in *.
  assert (Hlb3 : length b3 = length b) by (unfold b3; rewrite length_splice; lia).
  assert (Hrep : (mac_field ;; mac_field ;; mac_field ;; mret ())
                   (mkH b anon (l + 4))
                 = Next () (mkH b3 a3 (l + 4 + 6 + 6 + 6))).
  { erewrite bind_next by exact Hs1. erewrite bind_next by exact Hs2.
    by erewrite bind_next by exact Hs3. }
  clear Hs1 Hs2 Hs3.
  erewrite bind_next by exact Hrep.
  rewrite decide_True by done.
  erewrite bind_next by (apply slurp_next; cbn [st_b st_n]; lia).
  cbn [st_b st_n st_anon].
  change (bool_decide (typeMgmt = typeData)) with false.
  change (bool_decide (typeMgmt = typeControl)) with false.
  change (bool_decide (typeMgmt = typeMgmt)) with true.
  cbn [andb orb].
  do 3 (erewrite bind_next by reflexivity).
  exists b3, a1, a2, a3.
  assert (E1 : slice b3 (l + 4) 6 = x1).
  { unfold b3. rewrite slice_splice_before by lia.
    unfold b2. rewrite slice_splice_before by lia.
    unfold b1. rewrite <- Hx1. apply slice_splice_same. lia. }
  assert (E2 : slice b3 (l + 10) 6 = x2).
  { unfold b3. rewrite slice_splice_before by lia.
    unfold b2. replace (l + 10) with (l + 4 + 6) by lia.
    rewrite <- Hx2. apply slice_splice_same. lia. }
  assert (E3 : slice b3 (l + 16) 6 = x3).
  { unfold b3. replace (l + 16) with (l + 4 + 6 + 6) by lia.
    rewrite <- Hx3. apply slice_splice_same. lia. }
  assert (I2 : slice b1 (l + 4 + 6) 6 = slice b (l + 10) 6).
  { unfold b1. rewrite slice_splice_after by lia. f_equal. lia. }
  assert (I3 : slice b2 (l + 4 + 6 + 6) 6 = slice b (l + 16) 6).
  { unfold b2. rewrite slice_splice_after by lia.
    unfold b1. rewrite slice_splice_after by lia. f_equal. lia. }
  rewrite E1, E2, E3. rewrite I2 in HM2. rewrite I3 in HM3.
  split; [|split; [done|split; [done|split; [done|split]]]].
  - unfold n. destruct (parseFlags flags).2.
    + rewrite slurp_next by (cbn [st_b st_n]; unfold n in Hn; lia).
      simpl. f_equal. lia.
    + simpl. f_equal. lia.
  - unfold b3. rewrite take_splice_before by lia.
    unfold b2. rewrite take_splice_before by lia.
    unfold b1. by rewrite take_splice_before by lia.
  - unfold b3. rewrite drop_splice_after by lia.
    unfold b2. rewrite drop_splice_after by lia.
    unfold b1. by rewrite drop_splice_after by lia.
Qed.


Lemma radiotap_management_frame_witness :
  let b := radiotap_payload x80 x00 22 in
  let anon := NewDefaultAnonymizer Pseudonym Pseudonym Pseudonym Pseudonym count_stream in
  ∃ b' a1 a2 a',
    Radiotap80211Handler_Handle b anon = Returned b' a' (8 + 24 + 0) None ∧
    MAC (slice b (8 + 4) 6) anon = Some (slice b' (8 + 4) 6, a1) ∧
    MAC (slice b (8 + 10) 6) a1 = Some (slice b' (8 + 10) 6, a2) ∧
    MAC (slice b (8 + 16) 6) a2 = Some (slice b' (8 + 16) 6, a') ∧
    take (8 + 4) b' = take (8 + 4) b ∧
    drop (8 + 22) b' = drop (8 + 22) b.
Proof.
  intros b anon.
  apply (radiotap_management_frame b anon (mkRadiotapHeader 0 0 8 0) x80 x00).
  - reflexivity.
  - reflexivity.
  - reflexivity.
  - reflexivity.
  - vm_compute. lia.
Defined.

(** X19. A Data frame in a payload long enough for its fields, [l] being the
    length the Radiotap header declares: [Handle] returns without error the
    offset [l + 24], plus 6 for the fourth address when both toDS and
    fromDS are set, plus 2 for the QoS control of a QoS subtype, plus 4 for
    the HT control of a QoS subtype with the order flag; it anonymizes
    three addresses, or four with the fourth address, and the packet keeps
    its length. *)
Theorem radiotap_data_frame (b : list byte) (anon : DefaultAnonymizer)
    (rh : RadiotapHeader) (fc flags : byte) :
  RadiotapHeader_Read b = inr rh →
  b !! N.to_nat (Len rh) = Some fc →
  b !! S (N.to_nat (Len rh)) = Some flags →
  (parseFC fc).1.2 = typeData →
  let l := N.to_nat (Len rh) in
  let four := (parseFlags flags).1.1 && (parseFlags flags).1.2 in
  let qos := bool_decide (N.land (parseFC fc).2 qosMask ≠ 0%N) in
  let order := (parseFlags flags).2 in
  let n := l + 24 + (if four then 6 else 0) + (if qos then 2 else 0)
           + (if qos && order then 4 else 0) in
  n ≤ length b →
  ∃ b' a',
    Radiotap80211Handler_Handle b anon = Returned b' a' n None ∧
    length b' = length b ∧
    nmac a' = Nat.iter (if four then 4 else 3) incr64 (nmac anon).
Proof.
  intros Hrh Hfc Hflags Htyp l four qos order n Hn.
  unfold Radiotap80211Handler_Handle, run_handler.
  rewrite (radiotap_handle_fields _ _ rh fc flags) by done.
  rewrite Htyp. fold l.
  assert (Hfl : fields_len typeData (parseFC fc).2 (parseFlags flags).1.1
                  (parseFlags flags).1.2 (parseFlags flags).2 3 + (l + 1 + 1) = n).
  { unfold fields_len, n, four, qos, order.
    change (bool_decide (typeData = typeData)) with true.
    change (bool_decide (typeData = typeControl)) with false.
    change (bool_decide (typeData = typeMgmt)) with false.
    rewrite decide_True by done. cbn [andb orb].
    destruct (parseFlags flags).1.1, (parseFlags flags).1.2, (parseFlags flags).2,
      (bool_decide _); simpl; lia. }
  destruct (radiotap_fields_sure typeData (parseFC fc).2 (parseFlags flags).1.1
              (parseFlags flags).1.2 (parseFlags flags).2 3 eq_refl
              (mkH b anon (l + 1 + 1)))
    as (s' & -> & Hn' & Hl & Hc).
  { cbn [st_n st_b]. lia. }
  exists (st_b s'), (st_anon s'). cbn [st_n st_b st_anon] in *.
  split; [|split; [done|]].
  - simpl. f_equal. lia.
  - rewrite Hc. unfold fields_macs, four.
    change (bool_decide (typeData = typeData)) with true. cbn [andb].
    by destruct (_ && _).
Qed.

Lemma radiotap_data_frame_witness :
  let b := radiotap_payload x88 x83 34 in
  let anon := NewDefaultAnonymizer Pseudonym Pseudonym Pseudonym Pseudonym count_stream in
  ∃ b' a',
    Radiotap80211Handler_Handle b anon = Returned b' a' (8 + 24 + 6 + 2 + 4) None ∧
    length b' = length b ∧
    nmac a' = Nat.iter 4 incr64 (nmac anon).
Proof.
  intros b anon.
  apply (radiotap_data_frame b anon (mkRadiotapHeader 0 0 8 0) x88 x83).
  - reflexivity.
  - reflexivity.
  - reflexivity.
  - reflexivity.
  - vm_compute. lia.
Defined.

(** ** The end of the input *)

Lemma run_rounds_packets k h order truncate s0 s :
  run_rounds k h order truncate s0 = Some s →
  packets s = ((packets s0 + N.of_nat k) mod 2 ^ 64)%N ∨ (k = 0 ∧ s = s0).
Proof.
  revert s0. induction k as [|k IH]; intros s0 Hk; simpl in Hk.
  { right. by injection Hk as <-. }
  destruct (run_packet h order truncate s0) as [s1|] eqn:E; [|done].
  left. apply run_packet_inl_inv in E as (ph & b' & a' & n & _ & _ & _ & _ & _ & _ & _ & Hs1).
  destruct (IH s1 Hk) as [->|[-> ->]]; rewrite Hs1; cbn [packets].
  - rewrite N.Div0.add_mod_idemp_l. f_equal. lia.
  - f_equal.
Qed.

(** X20. After [k] records that went through, when fewer than the 16 bytes of a
    record header are left to read, [run] ends: with [io.EOF] when nothing
    is left, with [io.ErrUnexpectedEOF] otherwise.  Nothing more is
    written, and the packet count returned is the count at the start plus
    [k] (modulo [2^64]). *)
Theorem run_loop_end_of_input (k fuel : nat) (h : Handler) (order : ByteOrder)
    (truncate : bool) (s0 s : rstate) :
  run_rounds k h order truncate s0 = Some s →
  length (rin s) < 16 →
  length (rin s0) < fuel →
  (packets s0 < 2 ^ 64)%N →
  run_loop fuel h order truncate s0
  = Some (RunReturned (mkR [] (rout s) (ranon s) (packets s))
            (if decide (rin s = []) then EOF else ErrUnexpectedEOF)) ∧
  packets s = ((packets s0 + N.of_nat k) mod 2 ^ 64)%N.
Proof.
  intros Hk Hend Hfuel Hp. split.
  - destruct (run_loop_rounds k fuel h order truncate s0 s Hk Hfuel) as [Hlt ->].
    destruct (fuel - k) as [|f]; [lia|]. simpl.
    unfold run_packet, PacketHeader_Read, ReadFull.
    rewrite decide_False by lia. by case_decide.
  - destruct (run_rounds_packets _ _ _ _ _ _ Hk) as [->|[-> ->]]; [done|].
    rewrite N.add_0_r. by rewrite N.mod_small.
Qed.

Lemma run_loop_end_of_input_witness :
  let a := NewDefaultAnonymizer Leave Leave Leave Leave count_stream in
  let a1 := mkAnon Leave Leave Leave Leave count_stream ∅ ∅ ∅ ∅ 2 0 0 in
  run_loop 31 EthHandler BigEndian true (mkR record_small [] a 0)
  = Some (RunReturned (mkR [] record_small a1 1) EOF) ∧
  (1 = (0 + N.of_nat 1) mod 2 ^ 64)%N.
Proof.
  intros a a1.
  apply (run_loop_end_of_input 1 31 EthHandler BigEndian true
           (mkR record_small [] a 0) (mkR [] record_small a1 1)).
  - vm_compute. reflexivity.
  - vm_compute. lia.
  - vm_compute. lia.
  - vm_compute. reflexivity.
Defined.

(** ** Encrypting twice, in the Radiotap handler *)

Lemma xor_byte_comm x y : xor_byte x y = xor_byte y x.
Proof.
  unfold xor_byte. f_equal.
  destruct (Byte.to_bits x) as (a0 & a1 & a2 & a3 & a4 & a5 & a6 & a7).
  destruct (Byte.to_bits y) as (k0 & k1 & k2 & k3 & k4 & k5 & k6 & k7).
  simpl.
  by rewrite (xorb_comm a0), (xorb_comm a1), (xorb_comm a2), (xorb_comm a3),
    (xorb_comm a4), (xorb_comm a5), (xorb_comm a6), (xorb_comm a7).
Qed.

Lemma xorb_key (a b k : bool) : xorb (xorb a k) (xorb b k) = xorb a b.
Proof. by destruct a, b, k. Qed.

Lemma xor_byte_key x y k : xor_byte (xor_byte x k) (xor_byte y k) = xor_byte x y.
Proof.
  unfold xor_byte. rewrite !Byte.to_bits_of_bits. f_equal.
  destruct (Byte.to_bits x) as (a0 & a1 & a2 & a3 & a4 & a5 & a6 & a7).
  destruct (Byte.to_bits y) as (b0 & b1 & b2 & b3 & b4 & b5 & b6 & b7).
  destruct (Byte.to_bits k) as (k0 & k1 & k2 & k3 & k4 & k5 & k6 & k7).
  simpl. by rewrite !xorb_key.
Qed.

Lemma xor_bytes_comm b1 b2 : xor_bytes b1 b2 = xor_bytes b2 b1.
Proof.
  revert b2. induction b1 as [|x b1 IH]; intros [|y b2]; simpl; try done.
  by rewrite xor_byte_comm, IH.
Qed.

Lemma xor_bytes_key b1 b2 k :
  length b1 = length k → length b2 = length k →
  xor_bytes (xor_bytes b1 k) (xor_bytes b2 k) = xor_bytes b1 b2.
Proof.
  revert b2 k. induction b1 as [|x b1 IH]; intros [|y b2] [|z k]; simpl;
    try done.
  intros [= H1] [= H2]. by rewrite xor_byte_key, IH.
Qed.

Lemma xor_bytes_slice b1 b2 lo len :
  slice (xor_bytes b1 b2) lo len = xor_bytes (slice b1 lo len) (slice b2 lo len).
Proof. unfold slice, xor_bytes. by rewrite zip_with_drop, zip_with_take. Qed.

Lemma xor_bytes_splice b1 b2 lo x1 x2 :
  length b1 = length b2 → length x1 = length x2 → lo ≤ length b1 →
  xor_bytes (splice b1 lo x1) (splice b2 lo x2)
  = splice (xor_bytes b1 b2) lo (xor_bytes x1 x2).
Proof.
  intros Hb Hx Hlo. unfold splice.
  rewrite !xor_bytes_app by (rewrite ?length_take; lia).
  rewrite length_xor_bytes by done. rewrite Hx.
  unfold xor_bytes. by rewrite zip_with_take, zip_with_drop.
Qed.

Lemma xor_bytes_cancel_l k b1 b2 :
  length b1 = length k → length b2 = length k →
  xor_bytes k b1 = xor_bytes k b2 → b1 = b2.
Proof.
  intros H1 H2 Heq. rewrite !(xor_bytes_comm k) in Heq.
  by eapply xor_bytes_inj.
Qed.

Lemma ciphers_MAC : ciphers MAC 6.
Proof.
  intros a Henc. eexists. split; cycle 1.
  - intros x Hx. rewrite MAC_encrypt by (done || lia). rewrite Hx. reflexivity.
  - destruct Henc as (? & ? & ? & ?). by repeat split.
Qed.

Lemma lock_ret R {A} (x : A) : lock R (mret x).
Proof. by intros s1 s2 HR. Qed.

Lemma lock_bind R {A B} (m : handler A) (k : A → handler B) :
  lock R m → (∀ x, lock R (k x)) → lock R (m ≫= k).
Proof.
  intros Hm Hk s1 s2 HR. specialize (Hm s1 s2 HR). unfold mbind, handler_bind.
  destruct (m s1) as [x1 s1'|e1 s1'|p1], (m s2) as [x2 s2'|e2 s2'|p2]; try done.
  destruct Hm as [<- HR']. by apply Hk.
Qed.

Lemma lock_repeat R k body : lock R body → lock R (repeat_h k body).
Proof.
  intros Hb. induction k as [|k IH]; simpl; [apply lock_ret|].
  apply lock_bind; [done|]. by intros _.
Qed.

Lemma twins_intro D b1 b2 a n :
  all_encrypt a → length b1 = length D → length b2 = length D →
  xor_bytes b1 b2 = D → twins D (mkH b1 a n) (mkH b2 a n).
Proof. intros. by split; [|split; [|split; [|split; [|split]]]]. Qed.

Lemma lock_slurp D x inc : lock (twins D) (slurp x inc).
Proof.
  intros s1 s2 HR. pose proof HR as (Hn & Ha & He & H1 & H2 & HD). unfold slurp.
  rewrite H1, H2, <- Hn. case_decide; [done|].
  split; [done|]. destruct inc; [|done]. rewrite <- Ha. by apply twins_intro.
Qed.

Lemma lock_advance D k : lock (twins D) (advance k).
Proof.
  intros s1 s2 (Hn & Ha & He & H1 & H2 & HD).
  split; [done|]. unfold advance. rewrite <- Ha, <- Hn. by apply twins_intro.
Qed.

Lemma lock_anon_at D F off len :
  ciphers F len → lock (twins D) (anon_at F off len).
Proof.
  intros HF s1 s2 (Hn & Ha & He & H1 & H2 & HD). unfold anon_at. cbv zeta.
  rewrite H1, H2, <- Hn. case_decide as Hb; [|done].
  destruct (HF _ He) as (a' & He' & HFx).
  rewrite <- Ha. rewrite !HFx by (apply length_slice; lia).
  split; [done|].
  assert (Hx : ∀ b, length b = length D →
            length (xor_bytes (slice b (st_n s1 + off) len)
                      (segment (scipher (st_anon s1)) len)) = len).
  { intros b Hlb. rewrite length_xor_bytes; rewrite length_slice by lia;
      [done | apply length_segment]. }
  apply twins_intro; [done| | |].
  { rewrite length_splice; rewrite ?Hx; (done || lia). }
  { rewrite length_splice; rewrite ?Hx; (done || lia). }
  rewrite xor_bytes_splice by (rewrite ?Hx; (done || lia)).
  rewrite xor_bytes_key
    by (rewrite length_slice, ?length_segment by lia; done).
  rewrite <- xor_bytes_slice, HD. apply splice_slice_id. lia.
Qed.

Lemma lock_count_macs R typ styp : lock R (count_macs typ styp).
Proof.
  unfold count_macs. repeat case_decide; try apply lock_ret.
  - destruct (cfMACs !! styp); [apply lock_ret | by intros s1 s2 _].
  - by intros s1 s2 _.
Qed.

Lemma lock_mac_field D : lock (twins D) mac_field.
Proof.
  unfold mac_field.
  apply lock_bind; [apply lock_slurp|]. intros _.
  apply lock_bind; [apply lock_anon_at, ciphers_MAC|]. intros _.
  apply lock_advance.
Qed.

Lemma lock_radiotap_fields D typ styp tods fromds order :
  lock (twins D) (radiotap_fields typ styp tods fromds order).
Proof.
  unfold radiotap_fields.
  apply lock_bind; [apply lock_slurp|]. intros _.
  apply lock_bind; [apply lock_count_macs|]. intros nmacs.
  apply lock_bind; [apply lock_repeat, lock_mac_field|]. intros _.
  apply lock_bind; [case_decide; [apply lock_slurp | apply lock_ret]|]. intros _.
  apply lock_bind; [destruct (_ && _); [apply lock_mac_field | apply lock_ret]|].
  intros _. cbv zeta.
  apply lock_bind; [destruct (_ && _); [apply lock_slurp | apply lock_ret]|].
  intros _.
  apply lock_bind; [destruct (_ && _); [apply lock_slurp | apply lock_ret]|].
  intros _.
  destruct (_ || _); [apply lock_slurp | apply lock_ret].
Qed.

Lemma head_slurp b m x inc C :
  triple (head_past b m) (slurp x inc) (λ _, head_past b m) (λ _, head_kept b m) C.
Proof.
  intros s [Hk Hn]. unfold slurp. case_decide; [done|].
  destruct inc; [|done]. split; [done|]. simpl. lia.
Qed.

Lemma head_anon_at b m F len E :
  takes F len →
  triple (head_past b m) (anon_at F 0 len) (λ _, head_past b m) E (λ _, True).
Proof.
  intros HF s [[Hl Ht] Hn]. unfold anon_at. cbv zeta. case_decide as Hb; [|done].
  destruct (HF (slice (st_b s) (st_n s + 0) len) (st_anon s))
    as (x & a' & -> & Hx & _); [apply length_slice; lia|].
  split; [|done]. split; simpl.
  - rewrite length_splice; lia.
  - rewrite take_splice_before by lia. done.
Qed.

Lemma head_advance b m k E C :
  triple (head_past b m) (advance k) (λ _, head_past b m) E C.
Proof. intros s [Hk Hn]. split; [done|]. simpl. lia. Qed.

Lemma mac_field_head b m :
  triple (head_past b m) mac_field (λ _, head_past b m) (λ _, head_kept b m)
    (λ _, True).
Proof.
  unfold mac_field.
  triple_step ltac:(apply head_slurp).
  triple_step ltac:(apply head_anon_at, takes_MAC).
  apply head_advance.
Qed.

Lemma radiotap_fields_head b anon l typ styp tods fromds order :
  match radiotap_fields typ styp tods fromds order (mkH b anon (l + 1 + 1)) with
  | Next _ s | Stop _ s => head_kept b (l + 4) s
  | Crash _ => True
  end.
Proof.
  assert (Hrest : triple (λ s, st_b s = b ∧ st_n s = l + 1 + 1)
            (radiotap_fields typ styp tods fromds order)
            (λ _, head_past b (l + 4)) (λ _, head_kept b (l + 4)) (λ _, True));
    cycle 1.
  { specialize (Hrest (mkH b anon (l + 1 + 1)) (conj eq_refl eq_refl)).
    destruct (radiotap_fields _ _ _ _ _ _) as [[] s|e s|p]; [|done..].
    by destruct Hrest. }
  unfold radiotap_fields.
  eapply triple_bind with (R := λ _, head_past b (l + 4)).
  { intros s [Hb Hn]. unfold slurp. case_decide.
    - unfold head_kept. by rewrite Hb.
    - split; [|simpl; lia]. unfold head_kept. simpl. by rewrite Hb. }
  intros ?. cbv beta.
  eapply triple_bind with (R := λ _, head_past b (l + 4)).
  { eapply triple_weaken;
      [apply (count_macs_safe (head_past b (l + 4)) typ styp
                (λ _, head_kept b (l + 4)))|..];
      done. }
  intros nmacs. cbv beta.
  triple_step ltac:(apply triple_repeat, mac_field_head).
  eapply triple_bind with (R := λ _, head_past b (l + 4)).
  { case_decide; [apply head_slurp | by apply triple_ret]. }
  intros ?. cbv beta.
  eapply triple_bind with (R := λ _, head_past b (l + 4)).
  { destruct (_ && _); [apply mac_field_head | by apply triple_ret]. }
  intros ?. cbv beta zeta.
  eapply triple_bind with (R := λ _, head_past b (l + 4)).
  { destruct (_ && _); [apply head_slurp | by apply triple_ret]. }
  intros ?. cbv beta.
  eapply triple_bind with (R := λ _, head_past b (l + 4)).
  { destruct (_ && _); [apply head_slurp | by apply triple_ret]. }
  intros ?. cbv beta.
  destruct (_ || _); [apply head_slurp | by apply triple_ret].
Qed.

Lemma slice_take (l : list byte) m lo len :
  lo + len ≤ m → slice (take m l) lo len = slice l lo len.
Proof.
  intros Hm. unfold slice. rewrite !take_drop_commute, take_take.
  do 2 f_equal. lia.
Qed.

Lemma RadiotapHeader_Read_head b b' rh :
  length b' = length b → take 4 b' = take 4 b →
  RadiotapHeader_Read b = inr rh →
  ∃ rh', RadiotapHeader_Read b' = inr rh' ∧ Len rh' = Len rh.
Proof.
  intros Hl Ht. unfold RadiotapHeader_Read.
  destruct (ReadFull 8 b) as [|[bs r]] eqn:E; [done|].
  apply ReadFull_inr in E as (Hlen & -> & ->). intros [= <-].
  rewrite ReadFull_ok by lia. eexists. split; [done|]. cbn [Len].
  rewrite !slice_take by lia.
  rewrite <- (slice_take b' 4), <- (slice_take b 4) by lia. by rewrite Ht.
Qed.

Lemma head_kept_lookup b m s i :
  head_kept b m s → i < m → st_b s !! i = b !! i.
Proof.
  intros [_ Ht] Hi.
  rewrite <- (lookup_take_lt (st_b s) m i), <- (lookup_take_lt b m i) by done.
  by rewrite Ht.
Qed.

(** The handler run again on the packet it returned. *)
Lemma radiotap_handle_twice b anon b' a' n err :
  all_encrypt anon →
  Radiotap80211Handler_Handle b anon = Returned b' a' n err →
  Radiotap80211Handler_Handle b' anon = Returned b a' n err.
Proof.
  intros Henc. unfold Radiotap80211Handler_Handle, run_handler. intros H1.
  destruct (RadiotapHeader_Read b) as [e|rh] eqn:Hrh.
  { assert (Hs : radiotap_handle (mkH b anon 0) = Stop e (mkH b anon 0)).
    { unfold radiotap_handle. erewrite bind_next by reflexivity. cbn [st_b].
      by rewrite Hrh. }
    rewrite Hs in H1. simpl in H1. injection H1 as <- <- <- <-. by rewrite Hs. }
  pose proof (radiotap_handle_cases b anon rh Hrh) as Hc. cbv zeta in Hc.
  set (l := N.to_nat (Len rh)) in *.
  destruct (decide (length b < l)) as [|Hlen]; [by rewrite Hc in H1|].
  destruct (b !! l) as [fc|] eqn:Hfc; cycle 1.
  { rewrite Hc in H1. simpl in H1. injection H1 as <- <- <- <-. by rewrite Hc. }
  destruct (b !! S l) as [flags|] eqn:Hflags; cycle 1.
  { rewrite Hc in H1. simpl in H1. injection H1 as <- <- <- <-. by rewrite Hc. }
  rewrite Hc in H1. clear Hc.
  set (typ := (parseFC fc).1.2) in *. set (styp := (parseFC fc).2) in *.
  set (tods := (parseFlags flags).1.1) in *.
  set (fromds := (parseFlags flags).1.2) in *.
  set (order := (parseFlags flags).2) in *.
  (* the first run leaves the start of the packet alone *)
  pose proof (radiotap_fields_head b anon l typ styp tods fromds order) as Hhead.
  assert (Hk : head_kept b (l + 4) (mkH b' a' n)).
  { destruct (radiotap_fields _ _ _ _ _ _) as [[] s|e s|p]; [| |done];
      simpl in H1; injection H1 as <- <- <- <-; by destruct s. }
  destruct Hk as [Hlb' Htake]. cbn [st_b] in Hlb', Htake.
  assert (Ht4 : take 4 b' = take 4 b).
  { pose proof (f_equal (take 4) Htake) as H4.
    by rewrite !take_take, !Nat.min_l in H4 by lia. }
  destruct (RadiotapHeader_Read_head b b' rh Hlb' Ht4 Hrh) as (rh' & Hrh' & HLen).
  assert (Hfc' : b' !! l = Some fc).
  { rewrite <- Hfc. apply (head_kept_lookup b (l + 4) (mkH b' a' n)); [done|lia]. }
  assert (Hflags' : b' !! S l = Some flags).
  { rewrite <- Hflags. apply (head_kept_lookup b (l + 4) (mkH b' a' n)); [done|lia]. }
  rewrite (radiotap_handle_cases b' anon rh' Hrh'). cbv zeta. rewrite HLen. fold l.
  rewrite decide_False by lia. rewrite Hfc', Hflags'.
  fold typ styp tods fromds order.
  (* the two runs, in lockstep *)
  pose proof (lock_radiotap_fields (xor_bytes b b') typ styp tods fromds order
                (mkH b anon (l + 1 + 1)) (mkH b' anon (l + 1 + 1))) as Hlock.
  destruct (radiotap_fields typ styp tods fromds order (mkH b anon (l + 1 + 1)))
    as [[] s1|e1 s1|p1];
    destruct (radiotap_fields typ styp tods fromds order (mkH b' anon (l + 1 + 1)))
    as [[] s2|e2 s2|p2];
    try (exfalso; apply Hlock; apply twins_intro;
         [done | by rewrite length_xor_bytes | by rewrite length_xor_bytes; lia
         | done]);
    try done.
  - destruct Hlock as [_ (Hn & Ha & _ & Hl1 & Hl2 & HD)].
    { apply twins_intro; [done| | |done]; rewrite length_xor_bytes; lia. }
    simpl in H1. injection H1 as <- <- <- <-. simpl. f_equal; [|congruence..].
    rewrite length_xor_bytes in Hl1, Hl2 by lia.
    apply (xor_bytes_cancel_l (st_b s1)); [lia..|].
    by rewrite HD, xor_bytes_comm.
  - destruct Hlock as [<- (Hn & Ha & _ & Hl1 & Hl2 & HD)].
    { apply twins_intro; [done| | |done]; rewrite length_xor_bytes; lia. }
    simpl in H1. injection H1 as <- <- <- <-. simpl. f_equal; [|congruence..].
    rewrite length_xor_bytes in Hl1, Hl2 by lia.
    apply (xor_bytes_cancel_l (st_b s1)); [lia..|].
    by rewrite HD, xor_bytes_comm.
Qed.

Lemma all_encrypt_ext a a' : anon_ext a a' → all_encrypt a → all_encrypt a'.
Proof.
  intros [_ He] (H1 & H2 & H3 & H4).
  destruct (He OUI) as [_ E1], (He NIC) as [_ E2], (He V4) as [_ E3],
    (He V6) as [_ E4]. simpl in *. unfold all_encrypt. by rewrite E1, E2, E3, E4.
Qed.

(** X21. With every method [Encrypt], the Radiotap handler undoes itself: run
    again on the packet it returned, from the same state of the anonymizer
    (the same key and position in the keystream), it returns the packet it
    was given, with the same offset, the same error if any, and the same
    state of the anonymizer. *)
Theorem radiotap_encrypt_twice (b : list byte) (anon : DefaultAnonymizer)
    (b' : list byte) (a' : DefaultAnonymizer) (n : nat) (err : option error) :
  all_encrypt anon →
  Radiotap80211Handler_Handle b anon = Returned b' a' n err →
  Radiotap80211Handler_Handle b' anon = Returned b a' n err ∧
  length b' = length b ∧ all_encrypt a'.
Proof.
  intros Henc H1. split.
  - by apply radiotap_handle_twice.
  - pose proof (Handle_inv Radiotap80211Handler b anon) as Hinv. simpl in Hinv.
    rewrite H1 in Hinv. destruct Hinv as (Hl & _ & Hext). split; [done|].
    by eapply all_encrypt_ext.
Qed.

Lemma radiotap_encrypt_twice_witness :
  let b := radiotap_payload x88 x03 30 in
  let anon := NewDefaultAnonymizer Encrypt Encrypt Encrypt Encrypt count_stream in
  ∃ b' a' n err,
    Radiotap80211Handler_Handle b anon = Returned b' a' n err ∧
    Radiotap80211Handler_Handle b' anon = Returned b a' n err ∧
    length b' = length b ∧ all_encrypt a'.
Proof.
  intros b anon. eexists _, _, _, _. split; [vm_compute; reflexivity|].
  apply (radiotap_encrypt_twice b anon).
  - vm_compute. done.
  - vm_compute. reflexivity.
Defined.

Lemma run_loop_out fuel h order truncate s o :
  run_loop fuel h order truncate s = Some o →
  ∃ w, rout (run_state o) = rout s ++ w.
Proof.
  revert s. induction fuel as [|fuel IH]; intros s Hr; [done|]. simpl in Hr.
  destruct (run_packet h order truncate s) as [s'|o'] eqn:E.
  - apply run_packet_inl in E as [_ [w Hw]].
    destruct (IH s' Hr) as [w' Hw']. exists (w ++ w').
    by rewrite Hw', Hw, app_assoc.
  - injection Hr as ->. exists []. rewrite app_nil_r. by eapply run_packet_inr.
Qed.

Lemma PacketHeader_Read_take r1 r2 order ph :
  take 16 r1 = take 16 r2 → 16 ≤ length r2 →
  PacketHeader_Read r1 order = inr (ph, drop 16 r1) →
  PacketHeader_Read r2 order = inr (ph, drop 16 r2).
Proof.
  intros Ht Hl. unfold PacketHeader_Read.
  destruct (ReadFull 16 r1) as [|[bs r]] eqn:E; [done|].
  apply ReadFull_inr in E as (Hlen & -> & ->). intros [= <-].
  rewrite ReadFull_ok by done. by rewrite Ht.
Qed.

(** The packet loop on Radiotap records, every method [Encrypt], without
    truncation: what a first run has written, read by a second run from
    the same state, comes out as what the first run had read. *)
Lemma run_loop_twice fuel1 order r out1 a p o1 W :
  all_encrypt a →
  run_loop fuel1 Radiotap80211Handler order false (mkR r out1 a p) = Some o1 →
  rout (run_state o1) = out1 ++ W →
  ∀ out2 fuel2, length W < fuel2 →
    ∃ o2, run_loop fuel2 Radiotap80211Handler order false (mkR W out2 a p) = Some o2 ∧
          rout (run_state o2) = out2 ++ take (length W) r.
Proof.
  revert r out1 a p W. induction fuel1 as [|fuel1 IH];
    intros r out1 a p W Henc Hr HW out2 fuel2 Hfuel; [done|].
  simpl in Hr. destruct fuel2 as [|fuel2]; [lia|].
  destruct (run_packet Radiotap80211Handler order false (mkR r out1 a p))
    as [s1|o] eqn:E.
  - destruct (run_packet_inl_inv _ _ _ _ _ E)
      as (ph & b' & a' & n & Hph & Hwf & Hmax & Hlen & HH & Hlb' & _ & ->).
    cbn [rin rout ranon packets] in *.
    destruct (run_loop_out _ _ _ _ _ _ Hr) as [W' HW']. cbn [rout] in HW'.
    assert (W = take 16 r ++ b' ++ W') as ->.
    { rewrite HW' in HW. rewrite <- !app_assoc in HW. by apply app_inv_head in HW. }
    pose proof (PacketHeader_Read_wf _ _ _ _ Hph) as [Hw16 _].
    assert (Ht16 : length (take 16 r) = 16) by (rewrite length_take; lia).
    pose proof (Handle_inv Radiotap80211Handler
                  (slice r 16 (N.to_nat (PLen ph))) a) as Hinv.
    rewrite HH in Hinv. destruct Hinv as (_ & _ & Hext).
    simpl in HH. apply radiotap_handle_twice in HH; [|done].
    destruct (IH _ _ _ _ W' (all_encrypt_ext _ _ Hext Henc) Hr HW'
                (out2 ++ take 16 r ++ slice r 16 (N.to_nat (PLen ph))) fuel2)
      as (o2 & Ho2 & Hout2).
    { rewrite !length_app in Hfuel. lia. }
    exists o2. split.
    + simpl. unfold run_packet. cbn [rin rout ranon packets].
      rewrite (PacketHeader_Read_take r _ order ph); first last.
      * done.
      * rewrite !length_app. lia.
      * by rewrite take_app_length' by done.
      * rewrite decide_False by lia.
        rewrite drop_app_length' by done.
        rewrite ReadFull_ok by (rewrite length_app; lia).
        rewrite take_app_length', drop_app_length' by done.
        simpl. rewrite HH. rewrite Hw16. exact Ho2.
    + rewrite Hout2. rewrite <- !app_assoc. f_equal.
      rewrite !length_app, Ht16, Hlb'. unfold slice.
      by rewrite app_assoc, !take_take_drop, Nat.add_assoc.
  - injection Hr as ->. apply run_packet_inr in E. cbn [rout] in E.
    rewrite E in HW. assert (W = []) as ->.
    { apply (app_inv_head out1). by rewrite app_nil_r. }
    eexists. split; [reflexivity|]. simpl. by rewrite app_nil_r.
Qed.

Lemma Magic_Read_take i1 i2 m r1 :
  take 4 i1 = take 4 i2 → 4 ≤ length i2 →
  Magic_Read i1 = inr (m, r1) → Magic_Read i2 = inr (m, drop 4 i2).
Proof.
  intros Ht Hl. unfold Magic_Read.
  destruct (ReadFull 4 i1) as [|[bs r]] eqn:E; [done|].
  apply ReadFull_inr in E as (Hlen & -> & ->).
  rewrite ReadFull_ok by done. rewrite Ht.
  destruct (_ && _); [done|]. by intros [= <- _].
Qed.

Lemma GlobalHeader_Read_take i1 i2 order gh r1 :
  take 20 i1 = take 20 i2 → 20 ≤ length i2 →
  GlobalHeader_Read i1 order = inr (gh, r1) →
  GlobalHeader_Read i2 order = inr (gh, drop 20 i2).
Proof.
  intros Ht Hl. unfold GlobalHeader_Read.
  destruct (ReadFull 20 i1) as [|[bs r]] eqn:E; [done|].
  apply ReadFull_inr in E as (Hlen & -> & ->).
  rewrite ReadFull_ok by done. rewrite Ht. by intros [= <- _].
Qed.

(** X22. With every method [Encrypt] and without truncation, on a capture of
    link type 127: [run] on the output of a first run, with the same key,
    gives back the bytes of the input of the first run, as far as the first
    run had written. *)
Theorem run_encrypt_twice (input : list byte) (anon : DefaultAnonymizer)
    (magic : N) (r : list byte) (order : ByteOrder) (gh : GlobalHeader)
    (r' : list byte) (o1 : run_outcome) :
  all_encrypt anon →
  Magic_Read input = inr (magic, r) →
  Magic_ByteOrder magic = Some order →
  GlobalHeader_Read r order = inr (gh, r') →
  LinkLayer gh = 127%N →
  run input anon false = Some o1 →
  ∃ o2, run (rout (run_state o1)) anon false = Some o2 ∧
        rout (run_state o2) = take (length (rout (run_state o1))) input.
Proof.
  intros Henc Hm Ho Hg Hl Hrun.
  unfold run in Hrun. rewrite Hm in Hrun.
  destruct (Magic_Read_inr _ _ _ Hm) as (Hlen & -> & order' & Ho' & Hw).
  rewrite Hw, Ho, Hg, Hl in Hrun.
  destruct (GlobalHeader_Read_inr _ _ _ _ Hg) as (Hlen' & -> & Hgw & _).
  rewrite length_drop in Hlen'.
  change (Handlers !! 127%N) with (Some Radiotap80211Handler) in Hrun.
  cbv iota beta in Hrun. rewrite Hgw, take_take_drop, drop_drop in Hrun.
  change (4 + 20) with 24 in Hrun.
  destruct (run_loop_out _ _ _ _ _ _ Hrun) as [W HW]. cbn [rout] in HW.
  assert (H24 : length (take 24 input) = 24) by (rewrite length_take; lia).
  destruct (run_loop_twice _ _ _ _ _ _ _ W Henc Hrun HW (take 24 input)
              (S (length W))) as (o2 & Ho2 & Hout2); [lia|].
  exists o2. rewrite HW. split.
  - unfold run.
    assert (Hm2 : Magic_Read (take 24 input ++ W)
                  = inr (magic, drop 4 (take 24 input ++ W))).
    { eapply Magic_Read_take; [| |exact Hm].
      - rewrite take_app_le by lia. rewrite take_take. f_equal.
      - rewrite length_app. lia. }
    rewrite Hm2.
    destruct (Magic_Read_inr _ _ _ Hm2) as (_ & _ & order2 & Ho2' & Hw2).
    rewrite Hw2, Ho.
    assert (Hg2 : GlobalHeader_Read (drop 4 (take 24 input ++ W)) order
                  = inr (gh, drop 20 (drop 4 (take 24 input ++ W)))).
    { eapply GlobalHeader_Read_take; [| |exact Hg].
      - rewrite drop_app_le by lia. rewrite take_app_le
          by (rewrite length_drop; lia).
        rewrite !take_drop_commute. rewrite take_take. f_equal.
      - rewrite length_drop, length_app. lia. }
    rewrite Hg2, Hl.
    change (Handlers !! 127%N) with (Some Radiotap80211Handler). cbv iota beta.
    destruct (GlobalHeader_Read_inr _ _ _ _ Hg2) as (_ & _ & Hgw2 & _).
    rewrite Hgw2, take_take_drop, drop_drop.
    change (4 + 20) with 24.
    rewrite take_app_length', drop_app_length' by done. exact Ho2.
  - rewrite Hout2, length_app, H24. by rewrite take_take_drop.
Qed.

Lemma run_encrypt_twice_witness :
  let input := capture_radiotap x88 x03 30 in
  let anon := NewDefaultAnonymizer Encrypt Encrypt Encrypt Encrypt count_stream in
  ∃ o1,
    run input anon false = Some o1 ∧
    ∃ o2, run (rout (run_state o1)) anon false = Some o2 ∧
          rout (run_state o2) = take (length (rout (run_state o1))) input.
Proof.
  intros input anon. eexists. split; [vm_compute; reflexivity|].
  apply (run_encrypt_twice input anon MagicLE (drop 4 input) LittleEndian
           (mkGlobalHeader 2 4 0 0 0xffff 127) (drop 24 input)).
  - vm_compute. done.
  - vm_compute. reflexivity.
  - vm_compute. reflexivity.
  - vm_compute. reflexivity.
  - reflexivity.
  - vm_compute. reflexivity.
Defined.

(** ** One method per class *)

(** X23. The four classes of fields (the OUI half and the NIC half of a MAC
    address, IPv4 and IPv6 addresses) are treated each by its own method,
    whatever the methods of the others.  A field of a class whose method is
    [Leave] comes back as it was; a field of a class whose method is
    [Encrypt] comes back XORed with the keystream at the position the
    cursor has when the call reaches the field.  In both cases the map of
    the class is not touched. *)
Theorem leave_and_encrypt_by_class (cls : class) (c : call) (a : DefaultAnonymizer)
    (out : list byte) (a' : DefaultAnonymizer) (v : list byte) :
  do_call c a = Some (out, a') →
  field_of cls c = Some v →
  (method_of cls a = Leave →
   part cls out = v ∧ map_of cls a' = map_of cls a) ∧
  (method_of cls a = Encrypt →
   part cls out
   = xor_bytes v (keystream (scipher a) <$> seq (field_cursor cls c a) (width cls)) ∧
   map_of cls a' = map_of cls a).
Proof.
  intros Hc Hf.
  destruct (do_call_class cls c a out a' v Hc Hf)
    as (Hlen & s0 & s1 & Hks & Hcur & _ & _ & Ha).
  split; intros Hm; rewrite Hm in Ha; unfold anonymize in Ha.
  - by injection Ha as <- _ <-.
  - unfold XORKeyStream in Ha. injection Ha as <- _ <-. split; [|done].
    unfold segment. by rewrite Hks, Hcur, Hlen.
Qed.

Lemma leave_and_encrypt_by_class_witness :
  let a := NewDefaultAnonymizer Leave Encrypt Pseudonym Pseudonym count_stream in
  let c := CallMAC [x00; x11; x22; x33; x44; x55] in
  ∃ out a',
    do_call c a = Some (out, a') ∧
    (method_of OUI a = Leave →
     part OUI out = [x00; x11; x22] ∧ map_of OUI a' = map_of OUI a) ∧
    (method_of OUI a = Encrypt →
     part OUI out
     = xor_bytes [x00; x11; x22]
         (keystream (scipher a) <$> seq (field_cursor OUI c a) (width OUI)) ∧
     map_of OUI a' = map_of OUI a).
Proof.
  intros a c. eexists _, _. split; [vm_compute; reflexivity|].
  eapply (leave_and_encrypt_by_class OUI c a).
  - vm_compute. reflexivity.
  - reflexivity.
Defined.
